(** * ChafaTermInfo: control-sequence templates, their compilation and emission

    A shallow embedding of [chafa/chafa-term-info.c].  C integers are [Z]
    with the conversions to [guint8] and [guint] written out, [gchar] is
    [ascii], arrays are lists read and updated by index, and the heap
    holding the containers and their raw template strings is a pair of
    finite maps. *)

From Stdlib Require Import ZArith Ascii String Lia.
From stdpp Require Import base option list gmap.

Local Open Scope Z_scope.

(** ** Characters and C strings *)

Definition gchar := ascii.
Definition NUL : gchar := "000"%char.
Definition PERCENT : gchar := "%"%char.
Definition code (c : gchar) : Z := Z.of_N (N_of_ascii c).

(** A [const gchar *] argument is given by the bytes it points to; what a
    C function sees of it ends before the first NUL. *)
Fixpoint c_str (s : list gchar) : list gchar :=
  match s with
  | [] => []
  | c :: rest => if decide (c = NUL) then [] else c :: c_str rest
  end.

Definition to_guint8 (z : Z) : Z := z mod 256.
Definition to_guint (z : Z) : Z := z mod 4294967296.

(** ** Constants of this file *)

Definition CHAFA_TERM_SEQ_ARGS_MAX : Z := 8.
Definition ARG_INDEX_SENTINEL : Z := 255.

Record SeqArgInfo := { pre_len : Z; arg_index : Z }.

Record SeqMeta := { n_args : Z; type_size : Z }.

Inductive ChafaTermInfoError :=
| CHAFA_TERM_INFO_ERROR_SEQ_TOO_LONG
| CHAFA_TERM_INFO_ERROR_BAD_ARGUMENTS.

#[global] Instance SeqArgInfo_eq_dec : EqDecision SeqArgInfo.
Proof. solve_decision. Defined.
#[global] Instance SeqArgInfo_inhabited : Inhabited SeqArgInfo :=
  populate {| pre_len := 0; arg_index := 0 |}.
#[global] Instance gchar_inhabited : Inhabited gchar := populate NUL.
#[global] Instance ChafaTermInfoError_eq_dec : EqDecision ChafaTermInfoError.
Proof. solve_decision. Defined.

(** ** The destination buffer

    The caller's buffer is a list of bytes and a [gchar *] into it is an
    offset.  A store outside the buffer is the overrun the compiler's length
    check is there to exclude; it ends the run with [Overrun]. *)

Inductive outcome (A : Type) :=
| Done (a : A)
| Overrun.
Arguments Done {A} a.
Arguments Overrun {A}.

#[global] Instance outcome_ret : MRet outcome := @Done.
#[global] Instance outcome_bind : MBind outcome := λ A B f m,
  match m with
  | Done a => f a
  | Overrun => Overrun
  end.

Definition store (mem : list gchar) (p : Z) (c : gchar) : outcome (list gchar) :=
  if bool_decide (0 ≤ p < Z.of_nat (length mem))
  then Done (<[Z.to_nat p := c]> mem)
  else Overrun.

(** A read; past the end of the array it yields NUL. *)
Definition load (mem : list gchar) (p : Z) : gchar := mem !!! Z.to_nat p.

(** [copy_bytes]: a do-while loop, so the body runs once even for n ≤ 0;
    [more] counts the iterations that follow the first one. *)
Fixpoint copy_bytes_loop (more : nat) (mem : list gchar) (out : Z)
    (src : list gchar) (in_ : Z) : outcome (list gchar) :=
  mem' ← store mem out (load src in_);
  match more with
  | O => Done mem'
  | S more' => copy_bytes_loop more' mem' (out + 1) src (in_ + 1)
  end.

Definition copy_bytes (mem : list gchar) (out : Z) (src : list gchar) (in_ : Z)
    (n : Z) : outcome (list gchar) :=
  copy_bytes_loop (Z.to_nat (n - 1)) mem out src in_.

(** Stores [bs] at [p], [p+1], ... *)
Fixpoint store_bytes (mem : list gchar) (p : Z) (bs : list gchar)
    : outcome (list gchar) :=
  match bs with
  | [] => Done mem
  | b :: bs' => mem' ← store mem p b; store_bytes mem' (p + 1) bs'
  end.

(** ** Decimal formatting (chafa-string-util) *)

Definition digit (d : Z) : gchar := ascii_of_N (Z.to_N (48 + d)).

(** Modelled from the spec: internal/chafa-string-util.h and its
    implementation are not part of the sources at hand.  The spec describes
    the routine as appending "the decimal ASCII digits of the corresponding
    argument value", "no leading zeros, no sign", for the 0-9999 range. *)
Definition dec_digits (v : Z) : list gchar :=
  if v <? 10 then [digit v]
  else if v <? 100 then [digit (v / 10); digit (v mod 10)]
  else if v <? 1000 then [digit (v / 100); digit (v / 10 mod 10); digit (v mod 10)]
  else [digit (v / 1000 mod 10); digit (v / 100 mod 10); digit (v / 10 mod 10);
        digit (v mod 10)].

(** Modelled from the spec: the formatter stores the digits at [out] and
    returns the advanced pointer. *)
Definition chafa_format_dec_uint_0_to_9999 (mem : list gchar) (out : Z) (arg : Z)
    : outcome (list gchar * Z) :=
  mem' ← store_bytes mem out (dec_digits arg);
  Done (mem', out + Z.of_nat (length (dec_digits arg))).

(** Modelled from the spec: the byte-sized variant, 0-255 range. *)
Definition chafa_format_dec_u8 (mem : list gchar) (out : Z) (arg : Z)
    : outcome (list gchar * Z) :=
  mem' ← store_bytes mem out (dec_digits (to_guint8 arg));
  Done (mem', out + Z.of_nat (length (dec_digits (to_guint8 arg)))).

(** ** The table of sequence kinds

    [chafa-term-seq-def.h] lists the kinds, one CHAFA_TERM_SEQ_DEF (name,
    NAME, n_args, arg_proc, arg_type) line each; the three last fields pick
    one of the DEFINE_EMIT_SEQ_ macros of this file. *)

Inductive EmitMacro :=
| EMIT_SEQ_0_none_void
| EMIT_SEQ_1_none_guint
| EMIT_SEQ_1_none_guint8
| EMIT_SEQ_1_aix16fg_guint8
| EMIT_SEQ_1_aix16bg_guint8
| EMIT_SEQ_2_none_guint
| EMIT_SEQ_2_none_guint8
| EMIT_SEQ_2_aix16fgbg_guint8
| EMIT_SEQ_3_none_guint
| EMIT_SEQ_3_none_guint8
| EMIT_SEQ_6_none_guint8.

Inductive ArgType := void | guint | guint8.

(** [sizeof (void)] is 1 for the GNU compilers the project builds with. *)
Definition sizeof (t : ArgType) : Z :=
  match t with
  | void => 1
  | guint => 4
  | guint8 => 1
  end.

Definition def_n_args (m : EmitMacro) : Z :=
  match m with
  | EMIT_SEQ_0_none_void => 0
  | EMIT_SEQ_1_none_guint | EMIT_SEQ_1_none_guint8
  | EMIT_SEQ_1_aix16fg_guint8 | EMIT_SEQ_1_aix16bg_guint8 => 1
  | EMIT_SEQ_2_none_guint | EMIT_SEQ_2_none_guint8
  | EMIT_SEQ_2_aix16fgbg_guint8 => 2
  | EMIT_SEQ_3_none_guint | EMIT_SEQ_3_none_guint8 => 3
  | EMIT_SEQ_6_none_guint8 => 6
  end.

Definition def_arg_type (m : EmitMacro) : ArgType :=
  match m with
  | EMIT_SEQ_0_none_void => void
  | EMIT_SEQ_1_none_guint | EMIT_SEQ_2_none_guint | EMIT_SEQ_3_none_guint => guint
  | _ => guint8
  end.

#[global] Instance EmitMacro_eq_dec : EqDecision EmitMacro.
Proof. solve_decision. Defined.

(** ** The heap *)

Definition loc := positive.

Record ChafaTermInfo := {
  refs : Z;
  seq_str : list (list gchar);
  seq_args : list (list SeqArgInfo);
  unparsed_str : list (option loc)
}.

Record Heap := {
  infos : gmap loc ChafaTermInfo;
  strs : gmap loc (list gchar)
}.

Definition g_strdup (s : list gchar) (h : Heap) : loc * Heap :=
  let l := fresh (dom (strs h)) in
  (l, {| infos := infos h; strs := <[l := c_str s]> (strs h) |}).

(** [g_free (NULL)] does nothing; freeing what is not a live string has no
    defined result. *)
Definition g_free (p : option loc) (h : Heap) : option Heap :=
  match p with
  | None => Some h
  | Some l =>
      match strs h !! l with
      | Some _ => Some {| infos := infos h; strs := delete l (strs h) |}
      | None => None
      end
  end.

Definition set_info (p : loc) (ti : ChafaTermInfo) (h : Heap) : Heap :=
  {| infos := <[p := ti]> (infos h); strs := strs h |}.

(** A [const gchar *] argument that is not NULL: a string of the caller's
    own, given by its bytes, or a string of the heap, such as the one
    [chafa_term_info_get_seq] returns. *)
Inductive gstr :=
| own (s : list gchar)
| held (l : loc).

(** The bytes a string argument points to; a string of the heap that was
    freed has none to read. *)
Definition read_str (str : gstr) (h : Heap) : option (list gchar) :=
  match str with
  | own s => Some s
  | held l => strs h !! l
  end.

Definition empty_heap : Heap := {| infos := ∅; strs := ∅ |}.

(** The variables of [parse_seq_args].  [out] is an array of the caller's
    with as many bytes as the list has; [st_oob] tells that a store went
    past its end. *)
Record ParseState := {
  st_out : list gchar;
  st_j : Z;
  st_k : Z;
  st_pre_len : Z;
  st_arg_info : list SeqArgInfo;
  st_oob : bool
}.

Inductive LoopExit :=
| Fallthrough (st : ParseState)
| GotoOut (err : option ChafaTermInfoError) (st : ParseState).

(** What a call of [parse_seq_args] leaves: its result, the error it set,
    the two arrays, and [pr_oob] when it stored past the end of [out]. *)
Record ParseResult := {
  pr_result : bool;
  pr_error : option ChafaTermInfoError;
  pr_out : list gchar;
  pr_arg_info : list SeqArgInfo;
  pr_oob : bool
}.

Definition sentinel (len : Z) : SeqArgInfo :=
  {| pre_len := len; arg_index := ARG_INDEX_SENTINEL |}.

(** out [j++] = c; pre_len++.  Nothing bounds [j] by the size of [out]: a
    store past its end is outside the array, and is recorded. *)
Definition put_literal (c : gchar) (st : ParseState) : ParseState :=
  {| st_out := <[Z.to_nat (st_j st) := c]> (st_out st);
     st_j := st_j st + 1;
     st_k := st_k st;
     st_pre_len := st_pre_len st + 1;
     st_arg_info := st_arg_info st;
     st_oob := st_oob st || negb (st_j st <? Z.of_nat (length (st_out st))) |}.

(** arg_info [k].arg_index = v; arg_info [k].pre_len = pre_len *)
Definition put_arg (v : Z) (st : ParseState) : ParseState :=
  {| st_out := st_out st;
     st_j := st_j st;
     st_k := st_k st;
     st_pre_len := st_pre_len st;
     st_arg_info :=
       <[Z.to_nat (st_k st) :=
           {| pre_len := to_guint8 (st_pre_len st);
              arg_index := to_guint8 v |}]> (st_arg_info st);
     st_oob := st_oob st |}.

(** pre_len = 0; k++ *)
Definition next_arg (st : ParseState) : ParseState :=
  {| st_out := st_out st;
     st_j := st_j st;
     st_k := st_k st + 1;
     st_pre_len := 0;
     st_arg_info := st_arg_info st;
     st_oob := st_oob st |}.

(** What the headers fix: [CHAFA_TERM_SEQ_LENGTH_MAX], the end
    [CHAFA_TERM_SEQ_MAX] of the enumeration of kinds, and the table of
    [chafa-term-seq-def.h].  None of them is part of the sources at hand. *)
Record Headers := {
  hdr_seq_length_max : Z;
  hdr_seq_max : Z;
  hdr_seq_def : Z → EmitMacro
}.

Section TermInfo.

Variable hdr : Headers.

Local Abbreviation CHAFA_TERM_SEQ_LENGTH_MAX := (hdr_seq_length_max hdr).
Local Abbreviation CHAFA_TERM_SEQ_MAX := (hdr_seq_max hdr).
Local Abbreviation seq_def := (hdr_seq_def hdr).

(** The emitter reads [args [arg_index]] unchecked.  [past] is what such a
    read yields when the index lies beyond the caller's array. *)
Variable past : Z.

Definition seq_meta (seq : Z) : SeqMeta :=
  {| n_args := def_n_args (seq_def seq);
     type_size := sizeof (def_arg_type (seq_def seq)) |}.

(** The scanning loop of [parse_seq_args].  [in_] is the input from [in [i]]
    on; a character compares the same against '1' and '8' whether [gchar]
    is signed or not. *)
Fixpoint parse_loop (n_args : Z) (in_ : list gchar) (st : ParseState) : LoopExit :=
  if negb ((st_j st <? CHAFA_TERM_SEQ_LENGTH_MAX)
           && (st_k st <? CHAFA_TERM_SEQ_ARGS_MAX))
  then Fallthrough st
  else
    match in_ with
    | [] => Fallthrough st
    | c :: rest =>
        if decide (c = NUL) then Fallthrough st
        else if decide (c = PERCENT) then
          match rest with
          | [] => GotoOut None st
          | c2 :: rest' =>
              if decide (c2 = PERCENT) then
                parse_loop n_args rest' (put_literal PERCENT st)
              else if (code "1"%char <=? code c2) && (code c2 <=? code "8"%char) then
                let st' := put_arg (code c2 - code "1"%char) st in
                if to_guint8 (code c2 - code "1"%char) >=? n_args
                then GotoOut (Some CHAFA_TERM_INFO_ERROR_BAD_ARGUMENTS) st'
                else parse_loop n_args rest' (next_arg st')
              else GotoOut None st
          end
        else parse_loop n_args rest (put_literal c st)
    end.

(** [out] is the caller's array as it is on entry; the first loop fills
    [arg_info] whatever it held.  The array [arg_info] has
    CHAFA_TERM_SEQ_ARGS_MAX slots and is stored to at [k] < 8 only. *)
Definition parse_seq_args (out : list gchar) (in_ : list gchar)
    (n_args arg_len_max : Z) : ParseResult :=
  let arg_info := replicate (Z.to_nat CHAFA_TERM_SEQ_ARGS_MAX) (sentinel 0) in
  match parse_loop n_args in_
          {| st_out := out; st_j := 0; st_k := 0; st_pre_len := 0;
             st_arg_info := arg_info; st_oob := false |} with
  | GotoOut err st =>
      {| pr_result := false; pr_error := err;
         pr_out := st_out st; pr_arg_info := st_arg_info st;
         pr_oob := st_oob st |}
  | Fallthrough st =>
      if st_k st =? CHAFA_TERM_SEQ_ARGS_MAX then
        {| pr_result := false;
           pr_error := Some CHAFA_TERM_INFO_ERROR_BAD_ARGUMENTS;
           pr_out := st_out st; pr_arg_info := st_arg_info st;
           pr_oob := st_oob st |}
      else if st_j st + st_k st * arg_len_max + 1 >? CHAFA_TERM_SEQ_LENGTH_MAX then
        {| pr_result := false;
           pr_error := Some CHAFA_TERM_INFO_ERROR_SEQ_TOO_LONG;
           pr_out := st_out st; pr_arg_info := st_arg_info st;
           pr_oob := st_oob st |}
      else
        {| pr_result := true; pr_error := None;
           pr_out := st_out st;
           pr_arg_info :=
             <[Z.to_nat (st_k st) := sentinel (to_guint8 (st_pre_len st))]>
               (st_arg_info st);
           pr_oob := st_oob st |}
  end.

(** *** The emitter *)

Definition nth_arg (args : list Z) (idx : Z) : Z := nth (Z.to_nat idx) args past.

(** The loop of EMIT_SEQ_DEF: [todo] iterations are left, the next one is
    iteration [i]. *)
Fixpoint emit_seq_loop (todo : nat) (seq_str : list gchar)
    (seq_args : list SeqArgInfo) (args : list Z)
    (mem : list gchar) (out ofs i : Z) : outcome (list gchar * Z * Z * Z) :=
  match todo with
  | O => Done (mem, out, ofs, i)
  | S todo' =>
      let a := seq_args !!! Z.to_nat i in
      mem1 ← copy_bytes mem out seq_str ofs (pre_len a);
      '(mem2, out2) ← chafa_format_dec_uint_0_to_9999 mem1 (out + pre_len a)
                         (nth_arg args (arg_index a));
      emit_seq_loop todo' seq_str seq_args args mem2 out2 (ofs + pre_len a) (i + 1)
  end.

(** The macro names its second parameter [intformatter] and never uses it:
    both expansions format with [chafa_format_dec_uint_0_to_9999]. *)
Definition EMIT_SEQ_DEF
    (intformatter : list gchar → Z → Z → outcome (list gchar * Z))
    (term_info : ChafaTermInfo) (dest : list gchar * Z) (seq : Z)
    (args : list Z) (n_args : Z) : outcome (list gchar * Z) :=
  let '(mem, out) := dest in
  let seq_str := seq_str term_info !!! Z.to_nat seq in
  let seq_args := seq_args term_info !!! Z.to_nat seq in
  if arg_index (seq_args !!! 0%nat) =? ARG_INDEX_SENTINEL then Done (mem, out)
  else
    '(mem1, out1, ofs, i) ←
      emit_seq_loop (Z.to_nat n_args) seq_str seq_args args mem out 0 0;
    mem2 ← copy_bytes mem1 out1 seq_str ofs (pre_len (seq_args !!! Z.to_nat i));
    Done (mem2, out1 + pre_len (seq_args !!! Z.to_nat i)).

Definition emit_seq_guint := EMIT_SEQ_DEF chafa_format_dec_uint_0_to_9999.
Definition emit_seq_guint8 := EMIT_SEQ_DEF chafa_format_dec_u8.

Definition emit_seq_0_args_uint (term_info : ChafaTermInfo)
    (dest : list gchar * Z) (seq : Z) : outcome (list gchar * Z) :=
  let '(mem, out) := dest in
  let seq_str := seq_str term_info !!! Z.to_nat seq in
  let seq_args := seq_args term_info !!! Z.to_nat seq in
  mem' ← copy_bytes mem out seq_str 0 (pre_len (seq_args !!! 0%nat));
  Done (mem', out + pre_len (seq_args !!! 0%nat)).

(** A parameter of type [guint] or [guint8] holds a value of that type; the
    conversion of what is passed is written at each call. *)
Definition emit_seq_1_args_uint term_info dest seq (arg0 : Z) :=
  emit_seq_guint term_info dest seq [arg0] 1.

Definition emit_seq_1_args_uint8 term_info dest seq (arg0 : Z) :=
  emit_seq_guint8 term_info dest seq [arg0] 1.

Definition emit_seq_2_args_uint term_info dest seq (arg0 arg1 : Z) :=
  emit_seq_guint term_info dest seq [arg0; arg1] 2.

(** Takes two [guint] and stores them in a [guint8] array. *)
Definition emit_seq_2_args_uint8 term_info dest seq (arg0 arg1 : Z) :=
  emit_seq_guint8 term_info dest seq [to_guint8 arg0; to_guint8 arg1] 2.

(** Takes three [guint8] and stores them in a [guint] array. *)
Definition emit_seq_3_args_uint term_info dest seq (arg0 arg1 arg2 : Z) :=
  emit_seq_guint term_info dest seq [arg0; arg1; arg2] 3.

Definition emit_seq_3_args_uint8 term_info dest seq (arg0 arg1 arg2 : Z) :=
  emit_seq_guint8 term_info dest seq [arg0; arg1; arg2] 3.

Definition emit_seq_6_args_uint8 term_info dest seq
    (arg0 arg1 arg2 arg3 arg4 arg5 : Z) :=
  emit_seq_guint8 term_info dest seq [arg0; arg1; arg2; arg3; arg4; arg5] 6.

(** *** The public emit functions, one per DEFINE_EMIT_SEQ_ macro *)

Definition emit_0_none_void term_info dest seq :=
  emit_seq_0_args_uint term_info dest seq.

Definition emit_1_none_guint term_info dest seq (arg : Z) :=
  emit_seq_1_args_uint term_info dest seq arg.

Definition emit_1_none_guint8 term_info dest seq (arg : Z) :=
  emit_seq_1_args_uint8 term_info dest seq arg.

Definition emit_1_aix16fg_guint8 term_info dest seq (arg : Z) :=
  emit_seq_1_args_uint8 term_info dest seq
    (to_guint8 (arg + (if arg <? 8 then 30 else 90 - 8))).

Definition emit_1_aix16bg_guint8 term_info dest seq (arg : Z) :=
  emit_seq_1_args_uint8 term_info dest seq
    (to_guint8 (arg + (if arg <? 8 then 40 else 100 - 8))).

Definition emit_2_none_guint term_info dest seq (arg0 arg1 : Z) :=
  emit_seq_2_args_uint term_info dest seq arg0 arg1.

Definition emit_2_none_guint8 term_info dest seq (arg0 arg1 : Z) :=
  emit_seq_2_args_uint8 term_info dest seq arg0 arg1.

Definition emit_2_aix16fgbg_guint8 term_info dest seq (arg0 arg1 : Z) :=
  emit_seq_2_args_uint8 term_info dest seq
    (to_guint (arg0 + (if arg0 <? 8 then 30 else 90 - 8)))
    (to_guint (arg1 + (if arg1 <? 8 then 40 else 100 - 8))).

Definition emit_3_none_guint term_info dest seq (arg0 arg1 arg2 : Z) :=
  emit_seq_3_args_uint term_info dest seq
    (to_guint8 arg0) (to_guint8 arg1) (to_guint8 arg2).

Definition emit_3_none_guint8 term_info dest seq (arg0 arg1 arg2 : Z) :=
  emit_seq_3_args_uint8 term_info dest seq arg0 arg1 arg2.

Definition emit_6_none_guint8 term_info dest seq
    (arg0 arg1 arg2 arg3 arg4 arg5 : Z) :=
  emit_seq_6_args_uint8 term_info dest seq arg0 arg1 arg2 arg3 arg4 arg5.

(** [chafa_term_info_emit_<name>] for the kind [seq]: the function its
    table line generates, called with the values of [args] in order, each
    converted to the type of the parameter it is passed for. *)
Definition chafa_term_info_emit (term_info : ChafaTermInfo)
    (dest : list gchar * Z) (seq : Z) (args : list Z) : outcome (list gchar * Z) :=
  let a (i : nat) := nth i args 0 in
  let w (i : nat) := to_guint (a i) in
  let b (i : nat) := to_guint8 (a i) in
  match seq_def seq with
  | EMIT_SEQ_0_none_void => emit_0_none_void term_info dest seq
  | EMIT_SEQ_1_none_guint => emit_1_none_guint term_info dest seq (w 0%nat)
  | EMIT_SEQ_1_none_guint8 => emit_1_none_guint8 term_info dest seq (b 0%nat)
  | EMIT_SEQ_1_aix16fg_guint8 => emit_1_aix16fg_guint8 term_info dest seq (b 0%nat)
  | EMIT_SEQ_1_aix16bg_guint8 => emit_1_aix16bg_guint8 term_info dest seq (b 0%nat)
  | EMIT_SEQ_2_none_guint =>
      emit_2_none_guint term_info dest seq (w 0%nat) (w 1%nat)
  | EMIT_SEQ_2_none_guint8 =>
      emit_2_none_guint8 term_info dest seq (b 0%nat) (b 1%nat)
  | EMIT_SEQ_2_aix16fgbg_guint8 =>
      emit_2_aix16fgbg_guint8 term_info dest seq (b 0%nat) (b 1%nat)
  | EMIT_SEQ_3_none_guint =>
      emit_3_none_guint term_info dest seq (w 0%nat) (w 1%nat) (w 2%nat)
  | EMIT_SEQ_3_none_guint8 =>
      emit_3_none_guint8 term_info dest seq (b 0%nat) (b 1%nat) (b 2%nat)
  | EMIT_SEQ_6_none_guint8 =>
      emit_6_none_guint8 term_info dest seq (b 0%nat) (b 1%nat) (b 2%nat)
        (b 3%nat) (b 4%nat) (b 5%nat)
  end.

(** *** The container *)

(** The array [dst] with its first [n] elements replaced by those of
    [src]. *)
Definition copied {A} (dst src : list A) (n : Z) : list A :=
  take (Z.to_nat n) src ++ drop (Z.to_nat n) dst.

(** [memcpy (dst, src, n)] between two arrays, [n] counted in elements: it
    has a defined result when both arrays have [n] elements.  (A copy that
    is longer than the row it is made into runs on into what follows the row
    in the structure.) *)
Definition memcpy {A} (dst src : list A) (n : Z) : option (list A) :=
  if bool_decide (0 ≤ n ≤ Z.of_nat (length dst) ∧ n ≤ Z.of_nat (length src))
  then Some (copied dst src n) else None.

Definition set_row {A} (rows : list (list A)) (seq : Z) (row : list A)
    : list (list A) :=
  <[Z.to_nat seq := row]> rows.

(** [g_new0] zeroes the structure; the loop then marks the first slot of
    every kind. *)
Definition chafa_term_info_new (h : Heap) : loc * Heap :=
  let zero_args :=
    replicate (Z.to_nat CHAFA_TERM_SEQ_ARGS_MAX) {| pre_len := 0; arg_index := 0 |} in
  let term_info :=
    {| refs := 1;
       seq_str :=
         replicate (Z.to_nat CHAFA_TERM_SEQ_MAX)
           (replicate (Z.to_nat CHAFA_TERM_SEQ_LENGTH_MAX) NUL);
       seq_args :=
         replicate (Z.to_nat CHAFA_TERM_SEQ_MAX)
           (<[0%nat := {| pre_len := 0; arg_index := ARG_INDEX_SENTINEL |}]> zero_args);
       unparsed_str := replicate (Z.to_nat CHAFA_TERM_SEQ_MAX) None |} in
  let p := fresh (dom (infos h)) in
  (p, set_info p term_info h).

Definition set_unparsed (ti : ChafaTermInfo) (i : Z) (p : option loc)
    : ChafaTermInfo :=
  {| refs := refs ti; seq_str := seq_str ti; seq_args := seq_args ti;
     unparsed_str := <[Z.to_nat i := p]> (unparsed_str ti) |}.

(** The loop of [chafa_term_info_copy] over the kinds from [i] on. *)
Fixpoint copy_loop (todo : nat) (i : Z) (new_term_info : ChafaTermInfo)
    (h : Heap) : option (ChafaTermInfo * Heap) :=
  match todo with
  | O => Some (new_term_info, h)
  | S todo' =>
      match unparsed_str new_term_info !!! Z.to_nat i with
      | Some l =>
          s ← strs h !! l;
          let '(l', h') := g_strdup s h in
          copy_loop todo' (i + 1) (set_unparsed new_term_info i (Some l')) h'
      | None => copy_loop todo' (i + 1) new_term_info h
      end
  end.

(** A result of [None] stands for the use of a pointer to no live object. *)
Definition chafa_term_info_copy (term_info : option loc) (h : Heap)
    : option (option loc * Heap) :=
  match term_info with
  | None => Some (None, h)
  | Some p =>
      ti ← infos h !! p;
      let q := fresh (dom (infos h)) in
      let new_term_info :=
        {| refs := 1; seq_str := seq_str ti; seq_args := seq_args ti;
           unparsed_str := unparsed_str ti |} in
      '(new_term_info', h') ←
        copy_loop (Z.to_nat CHAFA_TERM_SEQ_MAX) 0 new_term_info h;
      Some (Some q, set_info q new_term_info' h')
  end.

(** [g_atomic_int_inc] on a [gint]: the count wraps around. *)
Definition to_gint (z : Z) : Z := (z + 2147483648) mod 4294967296 - 2147483648.

Definition set_refs (ti : ChafaTermInfo) (r : Z) : ChafaTermInfo :=
  {| refs := r; seq_str := seq_str ti; seq_args := seq_args ti;
     unparsed_str := unparsed_str ti |}.

(** [g_return_if_fail] returns without a change when its test fails. *)
Definition chafa_term_info_ref (term_info : option loc) (h : Heap) : option Heap :=
  match term_info with
  | None => Some h
  | Some p =>
      ti ← infos h !! p;
      if negb (refs ti >? 0) then Some h
      else Some (set_info p (set_refs ti (to_gint (refs ti + 1))) h)
  end.

(** The loop of [chafa_term_info_unref] over the kinds from [i] on. *)
Fixpoint free_loop (todo : nat) (i : Z) (term_info : ChafaTermInfo) (h : Heap)
    : option Heap :=
  match todo with
  | O => Some h
  | S todo' =>
      h' ← g_free (unparsed_str term_info !!! Z.to_nat i) h;
      free_loop todo' (i + 1) term_info h'
  end.

(** [g_atomic_int_dec_and_test] stores the count less one and tells whether
    that is 0; the container is then freed with its raw templates. *)
Definition chafa_term_info_unref (term_info : option loc) (h : Heap)
    : option Heap :=
  match term_info with
  | None => Some h
  | Some p =>
      ti ← infos h !! p;
      if negb (refs ti >? 0) then Some h
      else
        let refs' := to_gint (refs ti - 1) in
        if refs' =? 0 then
          h' ← free_loop (Z.to_nat CHAFA_TERM_SEQ_MAX) 0 ti h;
          Some {| infos := delete p (infos h'); strs := strs h' |}
        else Some (set_info p (set_refs ti refs') h)
  end.

Definition chafa_term_info_have_seq (term_info : option loc) (seq : Z) (h : Heap)
    : option (bool * Heap) :=
  match term_info with
  | None => Some (false, h)
  | Some p =>
      ti ← infos h !! p;
      if negb ((0 <=? seq) && (seq <? CHAFA_TERM_SEQ_MAX)) then Some (false, h)
      else
        Some (match unparsed_str ti !!! Z.to_nat seq with
              | Some _ => true
              | None => false
              end, h)
  end.

Definition chafa_term_info_get_seq (term_info : option loc) (seq : Z) (h : Heap)
    : option (option loc * Heap) :=
  match term_info with
  | None => Some (None, h)
  | Some p =>
      ti ← infos h !! p;
      if negb ((0 <=? seq) && (seq <? CHAFA_TERM_SEQ_MAX)) then Some (None, h)
      else Some (unparsed_str ti !!! Z.to_nat seq, h)
  end.

(** [stack] is what the memory of the local array [seq_str] holds on entry;
    the array has CHAFA_TERM_SEQ_MAX bytes, and so has the [memcpy] out of
    it.  A result of [None] stands for a run that leaves the objects it was
    given: a store past the end of the local array, a copy longer than the
    row, or the use of a string or container that is not live.  The string
    is read twice, by [parse_seq_args] at first and by [g_strdup] after the
    old raw template was freed. *)
Definition chafa_term_info_set_seq (stack : list gchar)
    (term_info : option loc) (seq : Z) (str : option gstr) (h : Heap)
    : option ((bool * option ChafaTermInfoError) * Heap) :=
  match term_info with
  | None => Some ((false, None), h)
  | Some p =>
      ti ← infos h !! p;
      if negb ((0 <=? seq) && (seq <? CHAFA_TERM_SEQ_MAX))
      then Some ((false, None), h)
      else
        match str with
        | None =>
            let ti' :=
              {| refs := refs ti;
                 seq_str :=
                   set_row (seq_str ti) seq
                     (<[0%nat := NUL]> (seq_str ti !!! Z.to_nat seq));
                 seq_args :=
                   set_row (seq_args ti) seq
                     (<[0%nat := sentinel 0]> (seq_args ti !!! Z.to_nat seq));
                 unparsed_str := <[Z.to_nat seq := None]> (unparsed_str ti) |} in
            h' ← g_free (unparsed_str ti !!! Z.to_nat seq) h;
            Some ((true, None), set_info p ti' h')
        | Some str =>
            s ← read_str str h;
            let seq_str' := resize (Z.to_nat CHAFA_TERM_SEQ_MAX) NUL stack in
            let r :=
              parse_seq_args seq_str' s (n_args (seq_meta seq))
                (if type_size (seq_meta seq) =? 1 then 3 else 4) in
            if pr_oob r then None
            else if pr_result r then
              row ← memcpy (seq_str ti !!! Z.to_nat seq) (pr_out r)
                      CHAFA_TERM_SEQ_MAX;
              slots ← memcpy (seq_args ti !!! Z.to_nat seq) (pr_arg_info r)
                        CHAFA_TERM_SEQ_ARGS_MAX;
              h1 ← g_free (unparsed_str ti !!! Z.to_nat seq) h;
              s' ← read_str str h1;
              let '(l, h2) := g_strdup s' h1 in
              let ti' :=
                {| refs := refs ti;
                   seq_str := set_row (seq_str ti) seq row;
                   seq_args := set_row (seq_args ti) seq slots;
                   unparsed_str := <[Z.to_nat seq := Some l]> (unparsed_str ti) |} in
              Some ((true, pr_error r), set_info p ti' h2)
            else Some ((false, pr_error r), h)
        end
  end.

End TermInfo.

(** ** The template language, in the specification's words

    "ASCII bytes are literal; %% escapes to a literal %; %1..%N (decimal
    digit 1-8) denotes a zero-based positional argument.  No other escape
    forms are defined." *)

Inductive token :=
| TLit (c : gchar)
| TArg (idx : Z).

Definition is_arg_digit (c : gchar) : bool :=
  (code "1"%char <=? code c) && (code c <=? code "8"%char).

(** [None] for a template with an escape that is not defined. *)
Fixpoint tokens (s : list gchar) : option (list token) :=
  match s with
  | [] => Some []
  | c :: rest =>
      if decide (c = NUL) then Some []
      else if decide (c = PERCENT) then
        match rest with
        | [] => None
        | c2 :: rest' =>
            if decide (c2 = PERCENT) then cons (TLit PERCENT) <$> tokens rest'
            else if is_arg_digit c2
                 then cons (TArg (code c2 - code "1"%char)) <$> tokens rest'
                 else None
        end
      else cons (TLit c) <$> tokens rest
  end.

Definition literals (toks : list token) : list gchar :=
  concat ((λ t, match t with TLit c => [c] | TArg _ => [] end) <$> toks).

Definition placeholders (toks : list token) : list Z :=
  concat ((λ t, match t with TLit _ => [] | TArg i => [i] end) <$> toks).

(** Every placeholder names an argument the kind has. *)
Definition indexes_below (n : Z) (toks : list token) : Prop :=
  Forall (λ i, i < n) (placeholders toks).

(** The literal bytes as they are, each placeholder replaced by the decimal
    digits of its argument. *)
Definition expand (args : list Z) (toks : list token) : list gchar :=
  concat ((λ t, match t with
                | TLit c => [c]
                | TArg i => dec_digits (nth (Z.to_nat i) args 0)
                end) <$> toks).

(** "3 digits for byte-width arguments, 4 digits for wider arguments" *)
Definition arg_width (m : EmitMacro) : Z :=
  match def_arg_type m with
  | guint => 4
  | _ => 3
  end.

(** The literal runs of a template with the argument each one precedes, and
    the trailing run; [cur] is the run under way. *)
Fixpoint segments (cur : list gchar) (toks : list token)
    : list (list gchar * Z) * list gchar :=
  match toks with
  | [] => ([], cur)
  | TLit c :: toks' => segments (cur ++ [c]) toks'
  | TArg i :: toks' =>
      let '(segs, trail) := segments [] toks' in ((cur, i) :: segs, trail)
  end.

Definition slot_of (seg : list gchar * Z) : SeqArgInfo :=
  {| pre_len := Z.of_nat (length seg.1); arg_index := seg.2 |}.

Definition expand_segment (args : list Z) (seg : list gchar * Z) : list gchar :=
  seg.1 ++ dec_digits (nth (Z.to_nat seg.2) args 0).

(** What the scan has done once it is past the tokens [toks]. *)
Definition step_token (st : ParseState) (t : token) : ParseState :=
  match t with
  | TLit c => put_literal c st
  | TArg i => next_arg (put_arg i st)
  end.

Definition run_tokens (toks : list token) (st : ParseState) : ParseState :=
  fold_left step_token toks st.

(** "an input color index v in [0,7] maps to 30+v (foreground) or 40+v
    (background); v in [8,15] maps to 90+(v-8) (foreground) or 100+(v-8)
    (background)", with [base] 30 or 40. *)
Definition aix16 (base v : Z) : Z :=
  if v <? 8 then base + v else base + 60 + (v - 8).

(** The values an entry point hands to the generic routine. *)
Definition passed (m : EmitMacro) (args : list Z) : list Z :=
  match m, args with
  | EMIT_SEQ_1_aix16fg_guint8, [a] => [aix16 30 a]
  | EMIT_SEQ_1_aix16bg_guint8, [a] => [aix16 40 a]
  | EMIT_SEQ_2_aix16fgbg_guint8, [a; b] => [aix16 30 a; aix16 40 b]
  | _, _ => args
  end.

(** The largest argument an entry point carries through unchanged: a colour
    index for the aixterm kinds, a byte where a [guint8] is on the way. *)
Definition arg_max (m : EmitMacro) : Z :=
  match m with
  | EMIT_SEQ_1_aix16fg_guint8 | EMIT_SEQ_1_aix16bg_guint8
  | EMIT_SEQ_2_aix16fgbg_guint8 => 15
  | EMIT_SEQ_1_none_guint | EMIT_SEQ_2_none_guint => 9999
  | _ => 255
  end.

Definition in_range (m : EmitMacro) (args : list Z) : Prop :=
  Z.of_nat (length args) = def_n_args m ∧ Forall (λ a, 0 ≤ a ≤ arg_max m) args.

(** [mem] is the buffer [mem0] with the bytes [em] stored from [out0] on, the
    cursor standing at [cur] behind them; the byte under the cursor is left
    open, since [copy_bytes] may have stored one there. *)
Definition agrees (mem0 : list gchar) (out0 : Z) (mem : list gchar) (cur : Z)
    (em : list gchar) : Prop :=
  length mem = length mem0 ∧ cur = out0 + Z.of_nat (length em) ∧
  ∀ i, 0 ≤ i → i ≠ cur →
    mem !! Z.to_nat i =
    if decide (out0 ≤ i < cur) then em !! Z.to_nat (i - out0)
    else mem0 !! Z.to_nat i.

(** The state [parse_seq_args] enters its scanning loop in. *)
Definition scan_start (out : list gchar) : ParseState :=
  {| st_out := out; st_j := 0; st_k := 0; st_pre_len := 0;
     st_arg_info := replicate (Z.to_nat CHAFA_TERM_SEQ_ARGS_MAX) (sentinel 0);
     st_oob := false |}.

(** The state the scanning loop ends in, by either way out. *)
Definition exit_state (e : LoopExit) : ParseState :=
  match e with
  | Fallthrough st | GotoOut _ st => st
  end.

(** [j] counts the stores into [out], one byte each and in order: a store
    went past the end of [out] when [j] is beyond it. *)
Definition counted (st : ParseState) : Prop :=
  0 ≤ st_j st ∧ st_oob st = (Z.of_nat (length (st_out st)) <? st_j st).

(** How far [todo] rounds of the emitter's loop move the cursor, from slot
    [i] on: each round by the run it copies and the digits it formats. *)
Fixpoint loop_advance (past : Z) (todo : nat) (seq_args : list SeqArgInfo)
    (args : list Z) (i : Z) : Z :=
  match todo with
  | O => 0
  | S todo' =>
      let a := seq_args !!! Z.to_nat i in
      pre_len a + Z.of_nat (length (dec_digits (nth_arg past args (arg_index a))))
      + loop_advance past todo' seq_args args (i + 1)
  end.

(** ** Well-formed containers *)

Definition wf_info (hdr : Headers) (ti : ChafaTermInfo) : Prop :=
  length (seq_str ti) = Z.to_nat (hdr_seq_max hdr) ∧
  Forall (λ row, length row = Z.to_nat (hdr_seq_length_max hdr)) (seq_str ti) ∧
  length (seq_args ti) = Z.to_nat (hdr_seq_max hdr) ∧
  Forall (λ row, length row = Z.to_nat CHAFA_TERM_SEQ_ARGS_MAX) (seq_args ti) ∧
  length (unparsed_str ti) = Z.to_nat (hdr_seq_max hdr).

Definition ptr_live (h : Heap) (o : option loc) : Prop :=
  match o with
  | Some l => is_Some (strs h !! l)
  | None => True
  end.

(** [p] points to a container whose arrays have their declared sizes and
    whose raw templates are live strings. *)
Definition term_info_ok (hdr : Headers) (h : Heap) (p : loc) : Prop :=
  match infos h !! p with
  | Some ti => wf_info hdr ti ∧ Forall (ptr_live h) (unparsed_str ti)
  | None => False
  end.

#[global] Instance ptr_live_dec h o : Decision (ptr_live h o).
Proof. destruct o; simpl; apply _. Defined.
#[global] Instance wf_info_dec hdr ti : Decision (wf_info hdr ti).
Proof. unfold wf_info. apply _. Defined.
#[global] Instance term_info_ok_dec hdr h p : Decision (term_info_ok hdr h p).
Proof. unfold term_info_ok. destruct (infos h !! p); apply _. Defined.
#[global] Instance in_range_dec m args : Decision (in_range m args).
Proof. unfold in_range. apply _. Defined.
#[global] Instance indexes_below_dec n toks : Decision (indexes_below n toks).
Proof. unfold indexes_below. apply _. Defined.

(** The strings that are left once [g_free (o)] has run. *)
Definition strs_after_free (o : option loc) (m : gmap loc (list gchar))
    : gmap loc (list gchar) :=
  match o with
  | Some l => delete l m
  | None => m
  end.

(** The call of [parse_seq_args] in [chafa_term_info_set_seq]. *)
Definition compile_of (hdr : Headers) (stack : list gchar) (seq : Z)
    (s : list gchar) : ParseResult :=
  parse_seq_args hdr (resize (Z.to_nat (hdr_seq_max hdr)) NUL stack) s
    (n_args (seq_meta hdr seq))
    (if type_size (seq_meta hdr seq) =? 1 then 3 else 4).

(** The local array of [chafa_term_info_set_seq] holds what a scan stores
    of [n] literal bytes: the scan stops storing at
    CHAFA_TERM_SEQ_LENGTH_MAX bytes, the array has CHAFA_TERM_SEQ_MAX. *)
Definition local_holds (hdr : Headers) (n : Z) : Prop :=
  Z.min n (hdr_seq_length_max hdr) ≤ hdr_seq_max hdr.

#[global] Instance local_holds_dec hdr n : Decision (local_holds hdr n).
Proof. unfold local_holds. apply _. Defined.

(** [o] is NULL, or a string that is live in [h] and was not in [h0]. *)
Definition fresh_live (h0 h : Heap) (o : option loc) : Prop :=
  ∀ l, o = Some l → (l ∉ dom (strs h0)) ∧ is_Some (strs h !! l).

(** What a container holds for each kind: the compiled bytes, the slots and
    the raw template its pointer leads to. *)
Definition snapshot (h : Heap) (p : loc)
    : option (list (list gchar) * list (list SeqArgInfo)
              * list (option (list gchar))) :=
  ti ← infos h !! p;
  Some (seq_str ti, seq_args ti, (λ o, l ← o; strs h !! l) <$> unparsed_str ti).

(** ** Heaps the functions of this file build

    The container [p] holds the string [l] as the raw template of kind [i]. *)
Definition owns (h : Heap) (p : loc) (i : nat) (l : loc) : Prop :=
  ∃ ti, infos h !! p = Some ti ∧ unparsed_str ti !! i = Some (Some l).

(** Every container is well-formed with live raw templates, and no string
    is the raw template of two kinds or of two containers. *)
Definition heap_ok (hdr : Headers) (h : Heap) : Prop :=
  (∀ p, is_Some (infos h !! p) → term_info_ok hdr h p) ∧
  (∀ p1 i1 p2 i2 l, owns h p1 i1 l → owns h p2 i2 l → p1 = p2 ∧ i1 = i2).

(** Every string of the heap is the raw template of some kind of some
    container. *)
Definition no_leak (h : Heap) : Prop :=
  ∀ l, is_Some (strs h !! l) → ∃ p i, owns h p i l.

(** The strings of the heap are C strings: no NUL inside. *)
Definition strs_clean (h : Heap) : Prop :=
  ∀ l s, strs h !! l = Some s → NUL ∉ s.

(** The heaps a program gets to from the empty one with the functions of
    this file, each call on a container that is there. *)
Inductive reachable (hdr : Headers) : Heap → Prop :=
| reach_empty : reachable hdr empty_heap
| reach_new h :
    reachable hdr h → reachable hdr (chafa_term_info_new hdr h).2
| reach_copy h p q h' :
    reachable hdr h →
    chafa_term_info_copy hdr (Some p) h = Some (q, h') →
    reachable hdr h'
| reach_set_seq h stack p seq str r h' :
    reachable hdr h →
    chafa_term_info_set_seq hdr stack (Some p) seq str h = Some (r, h') →
    reachable hdr h'
| reach_ref h p h' :
    reachable hdr h →
    chafa_term_info_ref (Some p) h = Some h' →
    reachable hdr h'
| reach_unref h p h' :
    reachable hdr h →
    chafa_term_info_unref hdr (Some p) h = Some h' →
    reachable hdr h'.

(** ** A configuration to run the definitions on: one kind per macro *)

Definition sample_seq_def (seq : Z) : EmitMacro :=
  match seq with
  | 0 => EMIT_SEQ_0_none_void
  | 1 => EMIT_SEQ_1_none_guint
  | 2 => EMIT_SEQ_1_none_guint8
  | 3 => EMIT_SEQ_1_aix16fg_guint8
  | 4 => EMIT_SEQ_1_aix16bg_guint8
  | 5 => EMIT_SEQ_2_none_guint
  | 6 => EMIT_SEQ_2_none_guint8
  | 7 => EMIT_SEQ_2_aix16fgbg_guint8
  | 8 => EMIT_SEQ_3_none_guint
  | 9 => EMIT_SEQ_3_none_guint8
  | _ => EMIT_SEQ_6_none_guint8
  end.

Definition sample : Headers :=
  {| hdr_seq_length_max := 96; hdr_seq_max := 11; hdr_seq_def := sample_seq_def |}.

(** The same kinds in a table as long as a row, so that the local array of
    [chafa_term_info_set_seq] holds whatever a scan stores. *)
Definition roomy : Headers :=
  {| hdr_seq_length_max := 96; hdr_seq_max := 96; hdr_seq_def := sample_seq_def |}.

Definition ESC : gchar := ascii_of_nat 27.
Definition chars (s : string) : list gchar := list_ascii_of_string s.

(** A new container on the empty heap, then one template set. *)
Definition sample_set (seq : Z) (str : option (list gchar))
    : option ((bool * option ChafaTermInfoError) * Heap) :=
  let '(p, h) := chafa_term_info_new sample empty_heap in
  chafa_term_info_set_seq sample [] (Some p) seq (own <$> str) h.

Definition sample_ptr : loc := (chafa_term_info_new sample empty_heap).1.
Definition sample_heap : Heap := (chafa_term_info_new sample empty_heap).2.

(** The heap a call leaves, and the container a pointer leads to in it. *)
Definition heap_of {A} (r : option (A * Heap)) : Heap :=
  match r with
  | Some (_, h) => h
  | None => empty_heap
  end.

Definition buffer_of (o : outcome (list gchar * Z)) : list gchar :=
  match o with
  | Done (mem, _) => mem
  | Overrun => []
  end.

Definition info_at (h : Heap) (p : loc) : ChafaTermInfo :=
  default {| refs := 0; seq_str := []; seq_args := []; unparsed_str := [] |}
    (infos h !! p).

(** * Lemmas *)

(** ** Facts about the template language *)

Lemma shorter_ind {A} (P : list A → Prop) :
  (∀ l, (∀ l', (length l' < length l)%nat → P l') → P l) → ∀ l, P l.
Proof.
  intros H l. remember (length l) as n eqn:E.
  revert l E. induction (lt_wf n) as [n _ IH]. intros l ->.
  apply H. intros l' Hl. by apply (IH (length l')).
Qed.

Lemma is_arg_digit_range c :
  is_arg_digit c = true → 0 ≤ code c - code "1"%char ≤ 7.
Proof.
  unfold is_arg_digit. intros H. apply andb_prop in H as [H1 H2].
  apply Z.leb_le in H1, H2. change (code "1"%char) with 49 in *.
  change (code "8"%char) with 56 in *. lia.
Qed.

Lemma to_guint8_small z : 0 ≤ z < 256 → to_guint8 z = z.
Proof. intros. unfold to_guint8. by apply Z.mod_small. Qed.

Lemma run_tokens_app t1 t2 st :
  run_tokens (t1 ++ t2) st = run_tokens t2 (run_tokens t1 st).
Proof. apply fold_left_app. Qed.

Lemma literals_cons_lit c toks : literals (TLit c :: toks) = c :: literals toks.
Proof. done. Qed.

Lemma literals_cons_arg i toks : literals (TArg i :: toks) = literals toks.
Proof. done. Qed.

Lemma placeholders_cons_lit c toks : placeholders (TLit c :: toks) = placeholders toks.
Proof. done. Qed.

Lemma placeholders_cons_arg i toks :
  placeholders (TArg i :: toks) = i :: placeholders toks.
Proof. done. Qed.

Lemma literals_app t1 t2 : literals (t1 ++ t2) = literals t1 ++ literals t2.
Proof. unfold literals. by rewrite fmap_app, concat_app. Qed.

Lemma placeholders_app t1 t2 :
  placeholders (t1 ++ t2) = placeholders t1 ++ placeholders t2.
Proof. unfold placeholders. by rewrite fmap_app, concat_app. Qed.

Lemma run_tokens_cons t toks st :
  run_tokens (t :: toks) st = run_tokens toks (step_token st t).
Proof. done. Qed.

Lemma run_tokens_j toks : ∀ st,
  st_j (run_tokens toks st) = st_j st + Z.of_nat (length (literals toks)).
Proof.
  induction toks as [|[c|i] toks IH]; intros st.
  - simpl. lia.
  - rewrite run_tokens_cons, IH, literals_cons_lit. simpl. lia.
  - rewrite run_tokens_cons, IH, literals_cons_arg. simpl. lia.
Qed.

Lemma run_tokens_k toks : ∀ st,
  st_k (run_tokens toks st) = st_k st + Z.of_nat (length (placeholders toks)).
Proof.
  induction toks as [|[c|i] toks IH]; intros st.
  - simpl. lia.
  - rewrite run_tokens_cons, IH, placeholders_cons_lit. simpl. lia.
  - rewrite run_tokens_cons, IH, placeholders_cons_arg. simpl. lia.
Qed.

(** Tokens of a template carry indexes 0..7. *)
Lemma tokens_indexes s : ∀ toks,
  tokens s = Some toks → Forall (λ i, 0 ≤ i ≤ 7) (placeholders toks).
Proof.
  induction s as [s IH] using shorter_ind. intros toks.
  destruct s as [|a rest]; [intros [= <-]; constructor|].
  cbn [tokens]. destruct (decide (a = NUL)); [intros [= <-]; constructor|].
  destruct (decide (a = PERCENT)).
  - destruct rest as [|b l]; [done|]. destruct (decide (b = PERCENT)).
    + destruct (tokens l) eqn:E; intros [= <-]. rewrite placeholders_cons_lit.
      apply (IH l); [simpl; lia|done].
    + destruct (is_arg_digit b) eqn:Hd; [|done].
      destruct (tokens l) eqn:E; intros [= <-].
      rewrite placeholders_cons_arg. constructor; [by apply is_arg_digit_range|].
      apply (IH l); [simpl; lia|done].
  - destruct (tokens rest) eqn:E; intros [= <-]. rewrite placeholders_cons_lit.
    apply (IH rest); [simpl; lia|done].
Qed.

Section Parse.

Variable hdr : Headers.

Lemma parse_loop_unfold n s st :
  parse_loop hdr n s st =
  if negb ((st_j st <? (hdr_seq_length_max hdr)) && (st_k st <? CHAFA_TERM_SEQ_ARGS_MAX))
  then Fallthrough st
  else
    match s with
    | [] => Fallthrough st
    | c :: rest =>
        if decide (c = NUL) then Fallthrough st
        else if decide (c = PERCENT) then
          match rest with
          | [] => GotoOut None st
          | c2 :: rest' =>
              if decide (c2 = PERCENT) then
                parse_loop hdr n rest' (put_literal PERCENT st)
              else if is_arg_digit c2 then
                let st' := put_arg (code c2 - code "1"%char) st in
                if to_guint8 (code c2 - code "1"%char) >=? n
                then GotoOut (Some CHAFA_TERM_INFO_ERROR_BAD_ARGUMENTS) st'
                else parse_loop hdr n rest' (next_arg st')
              else GotoOut None st
          end
        else parse_loop hdr n rest (put_literal c st)
    end.
Proof. destruct s; reflexivity. Qed.

Lemma loop_cond_true st :
  st_j st < (hdr_seq_length_max hdr) → st_k st < 8 →
  negb ((st_j st <? (hdr_seq_length_max hdr)) && (st_k st <? CHAFA_TERM_SEQ_ARGS_MAX)) = false.
Proof.
  intros. apply negb_false_iff, andb_true_intro.
  split; apply Z.ltb_lt; [done | by unfold CHAFA_TERM_SEQ_ARGS_MAX].
Qed.

Lemma loop_cond_false st :
  ¬ (st_j st < (hdr_seq_length_max hdr) ∧ st_k st < 8) →
  negb ((st_j st <? (hdr_seq_length_max hdr)) && (st_k st <? CHAFA_TERM_SEQ_ARGS_MAX)) = true.
Proof.
  intros H. apply negb_true_iff, andb_false_iff.
  unfold CHAFA_TERM_SEQ_ARGS_MAX. rewrite !Z.ltb_ge. lia.
Qed.

(** The scan of a well-formed template with fewer than eight placeholders
    falls through; it has gone over the whole template unless the literal
    bytes reached the length limit first. *)
Lemma parse_loop_scan n s : ∀ st toks,
  tokens s = Some toks → indexes_below n toks →
  st_k st + Z.of_nat (length (placeholders toks)) < 8 →
  ∃ st', parse_loop hdr n s st = Fallthrough st' ∧
    st_k st ≤ st_k st' ≤ st_k st + Z.of_nat (length (placeholders toks)) ∧
    (st_j st + Z.of_nat (length (literals toks)) < (hdr_seq_length_max hdr) → st' = run_tokens toks st) ∧
    ((hdr_seq_length_max hdr) ≤ st_j st + Z.of_nat (length (literals toks)) → (hdr_seq_length_max hdr) ≤ st_j st').
Proof.
  induction s as [s IH] using shorter_ind. intros st toks Ht Hi Hk.
  rewrite parse_loop_unfold.
  destruct (decide (st_j st < (hdr_seq_length_max hdr) ∧ st_k st < 8)) as [[Hj Hk']|Hc];
    [rewrite loop_cond_true by done
    |rewrite loop_cond_false by done; exists st; repeat split; lia].
  destruct s as [|a rest]; [injection Ht as <-; exists st; simpl; repeat split; lia|].
  cbn [tokens] in Ht.
  destruct (decide (a = NUL));
    [injection Ht as <-; exists st; simpl; repeat split; lia|].
  destruct (decide (a = PERCENT)).
  - destruct rest as [|b l]; [done|]. destruct (decide (b = PERCENT)).
    + destruct (tokens l) as [t|] eqn:E; [|done]. injection Ht as <-.
      destruct (IH l ltac:(simpl; lia) (put_literal PERCENT st) t E Hi)
        as (st' & -> & Hk2 & Hfull & Hearly); [simpl; by rewrite placeholders_cons_lit in Hk|].
      exists st'. rewrite placeholders_cons_lit, literals_cons_lit.
      cbn [length st_j st_k put_literal] in *.
      repeat split; try lia. intros. rewrite run_tokens_cons. apply Hfull. lia.
    + destruct (is_arg_digit b) eqn:Hd; [|done].
      destruct (tokens l) as [t|] eqn:E; [|done]. injection Ht as <-.
      pose proof (is_arg_digit_range _ Hd) as Hr.
      rewrite placeholders_cons_arg in Hk. simpl in Hk.
      unfold indexes_below in Hi. rewrite placeholders_cons_arg in Hi.
      apply Forall_cons in Hi as [Hlt Hi].
      rewrite to_guint8_small by lia.
      destruct (Z.geb_spec (code b - code "1"%char) n) as [?|_]; [lia|]. cbv zeta.
      destruct (IH l ltac:(simpl; lia) (next_arg (put_arg (code b - code "1"%char) st)) t E Hi)
        as (st' & -> & Hk2 & Hfull & Hearly); [simpl; lia|].
      exists st'. rewrite placeholders_cons_arg, literals_cons_arg.
      cbn [length st_j st_k put_arg next_arg] in *.
      repeat split; try lia.
      intros. rewrite run_tokens_cons. by apply Hfull.
  - destruct (tokens rest) as [t|] eqn:E; [|done]. injection Ht as <-.
    destruct (IH rest ltac:(simpl; lia) (put_literal a st) t E Hi)
      as (st' & -> & Hk2 & Hfull & Hearly); [simpl; by rewrite placeholders_cons_lit in Hk|].
    exists st'. rewrite placeholders_cons_lit, literals_cons_lit.
    cbn [length st_j st_k put_literal] in *.
    repeat split; try lia. intros. rewrite run_tokens_cons. apply Hfull. lia.
Qed.

End Parse.

(** ** Stores into the destination buffer *)

Lemma store_Done mem p c :
  0 ≤ p < Z.of_nat (length mem) → store mem p c = Done (<[Z.to_nat p := c]> mem).
Proof. intros. unfold store. by rewrite bool_decide_eq_true_2. Qed.

Lemma store_Overrun mem p c :
  Z.of_nat (length mem) ≤ p → store mem p c = Overrun.
Proof. intros. unfold store. rewrite bool_decide_eq_false_2; [done|lia]. Qed.

Lemma store_bytes_lookup bs : ∀ mem p,
  0 ≤ p → p + Z.of_nat (length bs) ≤ Z.of_nat (length mem) →
  ∃ mem', store_bytes mem p bs = Done mem' ∧ length mem' = length mem ∧
    ∀ i, 0 ≤ i →
      mem' !! Z.to_nat i =
      if decide (p ≤ i < p + Z.of_nat (length bs))
      then bs !! Z.to_nat (i - p) else mem !! Z.to_nat i.
Proof.
  induction bs as [|b bs IH]; intros mem p Hp Hlen.
  - exists mem. repeat split. intros i Hi. case_decide; [simpl in *; lia|done].
  - simpl in Hlen. cbn [store_bytes]. rewrite store_Done by lia.
    destruct (IH (<[Z.to_nat p := b]> mem) (p + 1)) as (mem' & Hs & Hl & Hlook);
      [lia|rewrite length_insert; lia|].
    exists mem'. split; [exact Hs|]. rewrite length_insert in Hl. split; [done|].
    intros i Hi. rewrite Hlook by done. cbn [length].
    destruct (decide (i = p)) as [->|Hne].
    + rewrite decide_False by lia. rewrite decide_True by lia.
      rewrite Z.sub_diag. simpl. apply list_lookup_insert_eq. lia.
    + rewrite list_lookup_insert_ne by lia.
      destruct (decide (p + 1 ≤ i < p + 1 + Z.of_nat (length bs))).
      * rewrite decide_True by lia.
        replace (Z.to_nat (i - p)) with (S (Z.to_nat (i - (p + 1)))) by lia. done.
      * rewrite decide_False by lia. done.
Qed.

Lemma take_drop_cons {A} (src : list A) i n b bs :
  take (S n) (drop i src) = b :: bs →
  src !! i = Some b ∧ take n (drop (S i) src) = bs.
Proof.
  intros H. destruct (drop i src) as [|x rest] eqn:E; [done|].
  simpl in H. injection H as -> H.
  assert (src !! i = Some b) as Hb.
  { rewrite <- (Nat.add_0_r i), <- lookup_drop. by rewrite E. }
  split; [done|]. rewrite (drop_S _ _ _ Hb) in E. by injection E as ->.
Qed.

(** The bytes [copy_bytes] takes from [src]. *)
Lemma copy_bytes_loop_store bs : ∀ b mem out src in_,
  0 ≤ in_ → take (S (length bs)) (drop (Z.to_nat in_) src) = b :: bs →
  copy_bytes_loop (length bs) mem out src in_ = store_bytes mem out (b :: bs).
Proof.
  induction bs as [|b' bs IH]; intros b mem out src in_ Hin Hsrc;
    apply take_drop_cons in Hsrc as [Hb Hrest];
    cbn [length copy_bytes_loop store_bytes]; unfold load;
    rewrite (list_lookup_total_correct _ _ _ Hb).
  - by destruct (store mem out b).
  - destruct (store mem out b) as [mem1|]; [|done]. simpl.
    apply IH; [lia|]. by replace (Z.to_nat (in_ + 1)) with (S (Z.to_nat in_)) by lia.
Qed.

Lemma copy_bytes_run mem out src in_ n bs :
  0 ≤ in_ → 0 < n → n = Z.of_nat (length bs) →
  take (length bs) (drop (Z.to_nat in_) src) = bs →
  copy_bytes mem out src in_ n = store_bytes mem out bs.
Proof.
  intros Hin Hn -> Hsrc. destruct bs as [|b bs]; [simpl in Hn; lia|].
  unfold copy_bytes. replace (Z.to_nat (Z.of_nat (length (b :: bs)) - 1)) with (length bs)
    by (simpl; lia).
  by apply copy_bytes_loop_store.
Qed.

Lemma copy_bytes_none mem out src in_ n :
  n ≤ 0 → copy_bytes mem out src in_ n = store mem out (load src in_).
Proof.
  intros Hn. unfold copy_bytes. replace (Z.to_nat (n - 1)) with 0%nat by lia.
  simpl. by destruct (store mem out (load src in_)).
Qed.

Lemma dec_digits_length v : (1 ≤ length (dec_digits v) ≤ 4)%nat.
Proof. unfold dec_digits. repeat case_match; simpl; lia. Qed.

Lemma dec_digits_length_u8 v : v < 1000 → (length (dec_digits v) ≤ 3)%nat.
Proof.
  intros Hv. unfold dec_digits.
  destruct (Z.ltb_spec v 10); [simpl; lia|].
  destruct (Z.ltb_spec v 100); [simpl; lia|].
  destruct (Z.ltb_spec v 1000); [simpl; lia|lia].
Qed.

Lemma outcome_bind_Done {A B} (a : A) (f : A → outcome B) : (Done a ≫= f) = f a.
Proof. done. Qed.

Lemma agrees_start mem0 out0 : agrees mem0 out0 mem0 out0 [].
Proof.
  repeat split; [simpl; lia|]. intros i Hi Hne. by rewrite decide_False by lia.
Qed.

Lemma agrees_store_bytes mem0 out0 mem cur em bs :
  agrees mem0 out0 mem cur em → 0 ≤ out0 → bs ≠ [] →
  cur + Z.of_nat (length bs) ≤ Z.of_nat (length mem0) →
  ∃ mem', store_bytes mem cur bs = Done mem' ∧
    agrees mem0 out0 mem' (cur + Z.of_nat (length bs)) (em ++ bs).
Proof.
  intros (Hlen & Hcur & Hlook) Hout Hbs Hroom.
  assert (0 < Z.of_nat (length bs)) by (destruct bs; [done|simpl; lia]).
  destruct (store_bytes_lookup bs mem cur) as (mem' & Hs & Hl & Hlook');
    [lia|lia|].
  exists mem'. split; [done|]. split; [congruence|].
  split; [rewrite length_app; lia|].
  intros i Hi Hne. rewrite Hlook' by done.
  destruct (decide (cur ≤ i < cur + Z.of_nat (length bs))).
  - rewrite decide_True by lia. rewrite lookup_app_r by lia.
    f_equal. lia.
  - rewrite Hlook by lia. destruct (decide (out0 ≤ i < cur)).
    + rewrite decide_True by lia. rewrite lookup_app_l by lia. done.
    + rewrite decide_False by lia. done.
Qed.

Lemma agrees_store mem0 out0 mem cur em c :
  agrees mem0 out0 mem cur em → 0 ≤ out0 → cur < Z.of_nat (length mem0) →
  ∃ mem', store mem cur c = Done mem' ∧ agrees mem0 out0 mem' cur em.
Proof.
  intros (Hlen & Hcur & Hlook) Hout Hroom.
  exists (<[Z.to_nat cur := c]> mem). split; [apply store_Done; lia|].
  split; [by rewrite length_insert|]. split; [done|].
  intros i Hi Hne. rewrite list_lookup_insert_ne by lia. by apply Hlook.
Qed.

Lemma agrees_copy_bytes mem0 out0 mem cur em src in_ bs :
  agrees mem0 out0 mem cur em → 0 ≤ out0 → 0 ≤ in_ →
  take (length bs) (drop (Z.to_nat in_) src) = bs →
  cur + Z.of_nat (length bs) < Z.of_nat (length mem0) →
  ∃ mem', copy_bytes mem cur src in_ (Z.of_nat (length bs)) = Done mem' ∧
    agrees mem0 out0 mem' (cur + Z.of_nat (length bs)) (em ++ bs).
Proof.
  intros Ha Hout Hin Hsrc Hroom. destruct bs as [|b bs].
  - rewrite copy_bytes_none by (simpl; lia). simpl in Hroom.
    destruct (agrees_store _ _ _ _ _ (load src in_) Ha) as (mem' & -> & Ha'); [lia..|].
    exists mem'. split; [done|]. simpl. by rewrite Z.add_0_r, app_nil_r.
  - rewrite (copy_bytes_run _ _ _ _ _ (b :: bs)) by (simpl; try done; lia).
    apply agrees_store_bytes; try done. lia.
Qed.

Lemma take_app_split {A} (l x y : list A) :
  take (length x + length y) l = x ++ y →
  take (length x) l = x ∧ take (length y) (drop (length x) l) = y.
Proof.
  intros H. split.
  - transitivity (take (length x) (take (length x + length y) l)).
    + rewrite take_take. f_equal. lia.
    + rewrite H. apply take_app_length.
  - rewrite take_drop_commute, H. apply drop_app_length.
Qed.

Lemma expand_segments_cons args r idx segs :
  concat (expand_segment args <$> (r, idx) :: segs)
  = r ++ dec_digits (nth (Z.to_nat idx) args 0)
      ++ concat (expand_segment args <$> segs).
Proof. rewrite fmap_cons. cbn [concat]. unfold expand_segment at 1. by rewrite <- app_assoc. Qed.

Lemma runs_cons (r : list gchar) (idx : Z) segs :
  concat ((r, idx) :: segs).*1 = r ++ concat segs.*1.
Proof. done. Qed.

Section Emit.

Variable past : Z.

Lemma agrees_format mem0 out0 mem cur em v :
  agrees mem0 out0 mem cur em → 0 ≤ out0 →
  cur + Z.of_nat (length (dec_digits v)) ≤ Z.of_nat (length mem0) →
  ∃ mem', chafa_format_dec_uint_0_to_9999 mem cur v
          = Done (mem', cur + Z.of_nat (length (dec_digits v))) ∧
    agrees mem0 out0 mem' (cur + Z.of_nat (length (dec_digits v)))
      (em ++ dec_digits v).
Proof.
  intros Ha Hout Hroom.
  destruct (agrees_store_bytes _ _ _ _ _ (dec_digits v) Ha) as (mem' & Hs & Ha');
    [done| |done|].
  { pose proof (dec_digits_length v). by destruct (dec_digits v); [simpl in *; lia|]. }
  exists mem'. split; [|done].
  unfold chafa_format_dec_uint_0_to_9999. by rewrite Hs.
Qed.

Lemma emit_seq_loop_ok mem0 out0 args row slots : ∀ segs mem cur ofs i em,
  (∀ n seg, segs !! n = Some seg →
            slots !! (Z.to_nat i + n)%nat = Some (slot_of seg)) →
  take (length (concat segs.*1)) (drop (Z.to_nat ofs) row) = concat segs.*1 →
  Forall (λ seg, 0 ≤ seg.2 < Z.of_nat (length args)) segs →
  0 ≤ out0 → 0 ≤ ofs → 0 ≤ i →
  agrees mem0 out0 mem cur em →
  cur + Z.of_nat (length (concat (expand_segment args <$> segs))) + 1
    ≤ Z.of_nat (length mem0) →
  ∃ mem',
    emit_seq_loop past (length segs) row slots args mem cur ofs i
    = Done (mem', cur + Z.of_nat (length (concat (expand_segment args <$> segs))),
            ofs + Z.of_nat (length (concat segs.*1)),
            i + Z.of_nat (length segs)) ∧
    agrees mem0 out0 mem'
      (cur + Z.of_nat (length (concat (expand_segment args <$> segs))))
      (em ++ concat (expand_segment args <$> segs)).
Proof.
  induction segs as [|[r idx] segs IH];
    intros mem cur ofs i em Hslots Hrow Hargs Hout Hofs Hi Ha Hroom.
  - exists mem. simpl. rewrite !Z.add_0_r, app_nil_r. done.
  - cbn [length emit_seq_loop].
    pose proof (Hslots 0%nat (r, idx) eq_refl) as H0. rewrite Nat.add_0_r in H0.
    rewrite (list_lookup_total_correct _ _ _ H0).
    cbn [slot_of pre_len arg_index fst snd].
    rewrite runs_cons, length_app in Hrow. apply take_app_split in Hrow as [Hr Hrow].
    apply Forall_cons in Hargs as [Hidx Hargs]. cbn [snd] in Hidx.
    rewrite expand_segments_cons, runs_cons, !length_app.
    rewrite expand_segments_cons, !length_app in Hroom.
    pose proof (dec_digits_length (nth (Z.to_nat idx) args 0)) as Hd.
    destruct (agrees_copy_bytes _ _ _ _ _ row ofs r Ha) as (mem1 & -> & Ha1);
      [done..|lia|].
    rewrite outcome_bind_Done.
    assert (nth_arg past args idx = nth (Z.to_nat idx) args 0) as ->.
    { unfold nth_arg. apply nth_indep. lia. }
    destruct (agrees_format _ _ _ _ _ (nth (Z.to_nat idx) args 0) Ha1)
      as (mem2 & -> & Ha2); [done|lia|].
    rewrite outcome_bind_Done.
    destruct (IH mem2 (cur + Z.of_nat (length r)
                       + Z.of_nat (length (dec_digits (nth (Z.to_nat idx) args 0))))
                (ofs + Z.of_nat (length r)) (i + 1)
                ((em ++ r) ++ dec_digits (nth (Z.to_nat idx) args 0)))
      as (mem' & -> & Ha'); try done; try lia.
    { intros n seg Hn.
      replace (Z.to_nat (i + 1) + n)%nat with (Z.to_nat i + S n)%nat by lia.
      by apply Hslots. }
    { replace (Z.to_nat (ofs + Z.of_nat (length r)))
        with (Z.to_nat ofs + length r)%nat by lia.
      by rewrite <- drop_drop. }
    exists mem'. split.
    + f_equal. f_equal; [f_equal; [f_equal|]|]; lia.
    + rewrite <- !app_assoc in Ha'.
      replace (cur + Z.of_nat (length r + (length (dec_digits (nth (Z.to_nat idx) args 0))
                  + length (concat (expand_segment args <$> segs)))))
        with (cur + Z.of_nat (length r)
              + Z.of_nat (length (dec_digits (nth (Z.to_nat idx) args 0)))
              + Z.of_nat (length (concat (expand_segment args <$> segs)))) by lia.
      done.
Qed.

End Emit.

Section EmitDef.

Variable past : Z.

(** The generic routine on a kind whose first slot carries an argument: the
    runs and the digits in turn, then the trailing run. *)
Lemma EMIT_SEQ_DEF_ok fmt ti seq args segs trail mem out :
  let row := seq_str ti !!! Z.to_nat seq in
  let slots := seq_args ti !!! Z.to_nat seq in
  let ex := concat (expand_segment args <$> segs) ++ trail in
  segs ≠ [] →
  (∀ n seg, segs !! n = Some seg → slots !! n = Some (slot_of seg)) →
  slots !! length segs = Some (sentinel (Z.of_nat (length trail))) →
  take (length (concat segs.*1 ++ trail)) row = concat segs.*1 ++ trail →
  Forall (λ seg, 0 ≤ seg.2 < Z.of_nat (length args)) segs →
  (length args < 255)%nat →
  0 ≤ out → out + Z.of_nat (length ex) < Z.of_nat (length mem) →
  ∃ mem',
    EMIT_SEQ_DEF past fmt ti (mem, out) seq args (Z.of_nat (length segs))
    = Done (mem', out + Z.of_nat (length ex)) ∧
    agrees mem out mem' (out + Z.of_nat (length ex)) ex.
Proof.
  intros row slots ex Hne Hslots Hsent Hrow Hargs Hlen Hout Hroom.
  unfold EMIT_SEQ_DEF. fold row. fold slots.
  assert (∃ r0 i0, slots !! 0%nat = Some (slot_of (r0, i0)) ∧
                   0 ≤ i0 < Z.of_nat (length args)) as (r0 & i0 & H0 & Hi0).
  { destruct segs as [|[r0 i0] segs']; [done|]. exists r0, i0.
    split; [by apply Hslots|]. by apply Forall_cons in Hargs as [? _]. }
  rewrite (list_lookup_total_correct _ _ _ H0). cbn [slot_of arg_index snd].
  destruct (Z.eqb_spec i0 ARG_INDEX_SENTINEL) as [E|_];
    [unfold ARG_INDEX_SENTINEL in E; lia|].
  rewrite length_app in Hrow. apply take_app_split in Hrow as [Hruns Htrail].
  unfold ex in Hroom. rewrite length_app in Hroom.
  rewrite Nat2Z.id.
  destruct (emit_seq_loop_ok past mem out args row slots segs mem out 0 0 [])
    as (mem1 & -> & Ha1); try done; try lia.
  { apply agrees_start. }
  rewrite outcome_bind_Done. rewrite !Z.add_0_l. rewrite Nat2Z.id.
  rewrite (list_lookup_total_correct _ _ _ Hsent). cbn [sentinel pre_len].
  destruct (agrees_copy_bytes _ _ _ _ _ row (Z.of_nat (length (concat segs.*1))) trail Ha1)
    as (mem2 & -> & Ha2); try done; try lia.
  { by rewrite Nat2Z.id. }
  rewrite outcome_bind_Done. exists mem2. unfold ex. rewrite length_app.
  replace (out + Z.of_nat (length (concat (expand_segment args <$> segs)) + length trail))
    with (out + Z.of_nat (length (concat (expand_segment args <$> segs)))
          + Z.of_nat (length trail)) by lia.
  done.
Qed.

(** The routine for kinds without arguments copies the first run. *)
Lemma emit_seq_0_args_uint_ok ti seq trail mem out :
  let row := seq_str ti !!! Z.to_nat seq in
  let slots := seq_args ti !!! Z.to_nat seq in
  slots !! 0%nat = Some (sentinel (Z.of_nat (length trail))) →
  take (length trail) row = trail →
  0 ≤ out → out + Z.of_nat (length trail) < Z.of_nat (length mem) →
  ∃ mem',
    emit_seq_0_args_uint ti (mem, out) seq
    = Done (mem', out + Z.of_nat (length trail)) ∧
    agrees mem out mem' (out + Z.of_nat (length trail)) trail.
Proof.
  intros row slots Hsent Hrow Hout Hroom. unfold emit_seq_0_args_uint.
  fold row. fold slots.
  rewrite (list_lookup_total_correct _ _ _ Hsent). cbn [sentinel pre_len].
  destruct (agrees_copy_bytes mem out mem out [] row 0 trail) as (mem' & -> & Ha);
    try done; try lia.
  { apply agrees_start. }
  rewrite outcome_bind_Done. by exists mem'.
Qed.

End EmitDef.

(** ** Runs and slots of a template *)

Lemma segments_spec args toks : ∀ cur segs trail,
  segments cur toks = (segs, trail) →
  cur ++ literals toks = concat segs.*1 ++ trail ∧
  cur ++ expand args toks = concat (expand_segment args <$> segs) ++ trail ∧
  placeholders toks = segs.*2.
Proof.
  induction toks as [|[c|i] toks IH]; intros cur segs trail Hs; cbn [segments] in Hs.
  - injection Hs as <- <-. by rewrite !app_nil_r.
  - apply IH in Hs as (H1 & H2 & H3). rewrite <- !app_assoc in H1, H2. done.
  - destruct (segments [] toks) as [segs' trail'] eqn:E. injection Hs as <- <-.
    apply IH in E as (H1 & H2 & H3). simpl in H1, H2.
    rewrite literals_cons_arg, placeholders_cons_arg, expand_segments_cons, runs_cons.
    rewrite <- !app_assoc, <- H1, <- H2, H3. done.
Qed.

Section ParseResults.

Variable hdr : Headers.

(** A scan that falls through has gone over the whole template, unless one
    of the two limits stopped it. *)
Lemma parse_loop_inv n s : ∀ st st',
  parse_loop hdr n s st = Fallthrough st' → 0 ≤ st_k st ≤ 8 →
  0 ≤ st_k st' ≤ 8 ∧
  ((∃ toks, tokens s = Some toks ∧ indexes_below n toks ∧
            st' = run_tokens toks st)
   ∨ ¬ (st_j st' < (hdr_seq_length_max hdr) ∧ st_k st' < 8)).
Proof.
  induction s as [s IH] using shorter_ind. intros st st' Hp Hk.
  rewrite parse_loop_unfold in Hp.
  destruct (decide (st_j st < (hdr_seq_length_max hdr) ∧ st_k st < 8)) as [[Hj Hk']|Hc];
    [rewrite loop_cond_true in Hp by done
    |rewrite loop_cond_false in Hp by done; injection Hp as <-; by split; [|right]].
  destruct s as [|a rest].
  { injection Hp as <-. split; [done|]. left. exists [].
    split_and!; [done|constructor|done]. }
  cbn [tokens]. destruct (decide (a = NUL)).
  { injection Hp as <-. split; [done|]. left. exists [].
    split_and!; [done|constructor|done]. }
  destruct (decide (a = PERCENT)).
  - destruct rest as [|b l]; [done|]. destruct (decide (b = PERCENT)).
    + destruct (IH l ltac:(simpl; lia) _ _ Hp ltac:(simpl; lia))
        as [Hk2 [(t & -> & Hi & ->)|Hstop]]; [|by split; [|right]].
      split; [done|]. left. exists (TLit PERCENT :: t). by split_and!.
    + destruct (is_arg_digit b) eqn:Hd; [|done].
      pose proof (is_arg_digit_range _ Hd) as Hr.
      rewrite to_guint8_small in Hp by lia. cbv zeta in Hp.
      destruct (Z.geb_spec (code b - code "1"%char) n) as [?|Hlt]; [done|].
      destruct (IH l ltac:(simpl; lia) _ _ Hp ltac:(simpl; lia))
        as [Hk2 [(t & -> & Hi & ->)|Hstop]]; [|by split; [|right]].
      split; [done|]. left. exists (TArg (code b - code "1"%char) :: t).
      split_and!; [done| |done]. unfold indexes_below.
      rewrite placeholders_cons_arg. by constructor.
  - destruct (IH rest ltac:(simpl; lia) _ _ Hp ltac:(simpl; lia))
      as [Hk2 [(t & -> & Hi & ->)|Hstop]]; [|by split; [|right]].
    split; [done|]. left. exists (TLit a :: t). by split_and!.
Qed.

(** Tokens of a prefix that holds no terminator. *)
Lemma tokens_app pre : ∀ tp rest,
  tokens pre = Some tp → NUL ∉ pre →
  tokens (pre ++ rest) = (tp ++.) <$> tokens rest.
Proof.
  induction pre as [pre IH] using shorter_ind. intros tp rest Ht Hnul.
  destruct pre as [|a pre'].
  { injection Ht as <-. simpl. by destruct (tokens rest). }
  apply not_elem_of_cons in Hnul as [Ha Hnul].
  cbn [tokens app] in *. rewrite decide_False in * by done.
  destruct (decide (a = PERCENT)).
  - destruct pre' as [|b l]; [done|]. cbn [app].
    apply not_elem_of_cons in Hnul as [Hb Hnul].
    destruct (decide (b = PERCENT)).
    + destruct (tokens l) as [t|] eqn:E; [|done]. injection Ht as <-.
      rewrite (IH l ltac:(simpl; lia) t rest E Hnul). by destruct (tokens rest).
    + destruct (is_arg_digit b); [|done].
      destruct (tokens l) as [t|] eqn:E; [|done]. injection Ht as <-.
      rewrite (IH l ltac:(simpl; lia) t rest E Hnul). by destruct (tokens rest).
  - destruct (tokens pre') as [t|] eqn:E; [|done]. injection Ht as <-.
    rewrite (IH pre' ltac:(simpl; lia) t rest E Hnul). by destruct (tokens rest).
Qed.

(** The scan goes over a well-formed prefix and on into what follows it, as
    long as neither limit is met. *)
Lemma parse_loop_app n pre : ∀ tp rest st,
  tokens pre = Some tp → NUL ∉ pre → indexes_below n tp →
  st_j st + Z.of_nat (length (literals tp)) < (hdr_seq_length_max hdr) →
  st_k st + Z.of_nat (length (placeholders tp)) < 8 →
  parse_loop hdr n (pre ++ rest) st = parse_loop hdr n rest (run_tokens tp st).
Proof.
  induction pre as [pre IH] using shorter_ind. intros tp rest st Ht Hnul Hi Hj Hk.
  destruct pre as [|a pre']; [by injection Ht as <-|].
  apply not_elem_of_cons in Hnul as [Ha Hnul].
  rewrite parse_loop_unfold. rewrite loop_cond_true by lia.
  cbn [tokens app] in *.
  destruct (decide (a = NUL)) as [->|_]; [done|].
  destruct (decide (a = PERCENT)) as [->|Hp].
  - destruct pre' as [|b l]; [done|]. cbn [app].
    apply not_elem_of_cons in Hnul as [Hb Hnul].
    destruct (decide (b = PERCENT)) as [->|Hbp].
    + destruct (tokens l) as [t|] eqn:E; [|done]. injection Ht as <-.
      rewrite placeholders_cons_lit, literals_cons_lit in *. cbn [length] in *.
      rewrite run_tokens_cons. apply IH; try done; simpl; lia.
    + destruct (is_arg_digit b) eqn:Hd; [|done].
      destruct (tokens l) as [t|] eqn:E; [|done]. injection Ht as <-.
      pose proof (is_arg_digit_range _ Hd) as Hr.
      unfold indexes_below in Hi.
      rewrite placeholders_cons_arg, literals_cons_arg in *. cbn [length] in *.
      apply Forall_cons in Hi as [Hlt Hi].
      rewrite to_guint8_small by lia. cbv zeta.
      destruct (Z.geb_spec (code b - code "1"%char) n) as [?|_]; [lia|].
      rewrite run_tokens_cons. apply IH; try done; simpl; lia.
  - destruct (tokens pre') as [t|] eqn:E; [|done]. injection Ht as <-.
    rewrite placeholders_cons_lit, literals_cons_lit in *. cbn [length] in *.
    rewrite run_tokens_cons. apply IH; try done; simpl; lia.
Qed.

Lemma parse_seq_args_unfold out s n w :
  parse_seq_args hdr out s n w =
  match parse_loop hdr n s (scan_start out) with
  | GotoOut err st =>
      {| pr_result := false; pr_error := err;
         pr_out := st_out st; pr_arg_info := st_arg_info st;
         pr_oob := st_oob st |}
  | Fallthrough st =>
      if st_k st =? CHAFA_TERM_SEQ_ARGS_MAX then
        {| pr_result := false;
           pr_error := Some CHAFA_TERM_INFO_ERROR_BAD_ARGUMENTS;
           pr_out := st_out st; pr_arg_info := st_arg_info st;
         pr_oob := st_oob st |}
      else if st_j st + st_k st * w + 1 >? (hdr_seq_length_max hdr) then
        {| pr_result := false;
           pr_error := Some CHAFA_TERM_INFO_ERROR_SEQ_TOO_LONG;
           pr_out := st_out st; pr_arg_info := st_arg_info st;
         pr_oob := st_oob st |}
      else
        {| pr_result := true; pr_error := None;
           pr_out := st_out st;
           pr_arg_info :=
             <[Z.to_nat (st_k st) := sentinel (to_guint8 (st_pre_len st))]>
               (st_arg_info st);
           pr_oob := st_oob st |}
  end.
Proof. done. Qed.

(** The verdict on a well-formed template with fewer than eight
    placeholders rests on the length check alone. *)
Lemma parse_seq_args_verdict out s n w toks :
  tokens s = Some toks → indexes_below n toks →
  Z.of_nat (length (placeholders toks)) < 8 → 0 ≤ w →
  let total := Z.of_nat (length (literals toks))
               + Z.of_nat (length (placeholders toks)) * w + 1 in
  (total > (hdr_seq_length_max hdr) →
   pr_result (parse_seq_args hdr out s n w) = false ∧
   pr_error (parse_seq_args hdr out s n w)
   = Some CHAFA_TERM_INFO_ERROR_SEQ_TOO_LONG) ∧
  (total ≤ (hdr_seq_length_max hdr) →
   parse_seq_args hdr out s n w =
   let st := run_tokens toks (scan_start out) in
   {| pr_result := true; pr_error := None; pr_out := st_out st;
      pr_arg_info :=
        <[Z.to_nat (st_k st) := sentinel (to_guint8 (st_pre_len st))]>
          (st_arg_info st);
      pr_oob := st_oob st |}).
Proof.
  intros Ht Hi Hk Hw total. rewrite parse_seq_args_unfold.
  destruct (parse_loop_scan hdr n s (scan_start out) toks Ht Hi)
    as (st' & -> & Hk2 & Hfull & Hearly); [simpl; lia|].
  cbn [scan_start st_j st_k] in *. unfold CHAFA_TERM_SEQ_ARGS_MAX.
  destruct (Z.eqb_spec (st_k st') 8) as [?|_]; [lia|].
  destruct (decide (Z.of_nat (length (literals toks)) < (hdr_seq_length_max hdr))) as [Hlt|Hge].
  - rewrite (Hfull ltac:(lia)). rewrite run_tokens_j, run_tokens_k.
    cbn [scan_start st_j st_k]. rewrite !Z.add_0_l. fold total.
    split; intros Htot.
    + destruct (Z.gtb_spec total (hdr_seq_length_max hdr)); [done|lia].
    + by destruct (Z.gtb_spec total (hdr_seq_length_max hdr)); [lia|].
  - specialize (Hearly ltac:(lia)). split; intros Htot.
    + destruct (Z.gtb_spec (st_j st' + st_k st' * w + 1) (hdr_seq_length_max hdr)); [done|nia].
    + unfold total in Htot. nia.
Qed.

(** An accepted template is well-formed, names arguments the kind has, holds
    fewer than eight placeholders and passes the length check. *)
Lemma parse_seq_args_accepted out s n w :
  pr_result (parse_seq_args hdr out s n w) = true → 0 ≤ w →
  ∃ toks, tokens s = Some toks ∧ indexes_below n toks ∧
    Z.of_nat (length (placeholders toks)) < 8 ∧
    Z.of_nat (length (literals toks))
    + Z.of_nat (length (placeholders toks)) * w + 1 ≤ (hdr_seq_length_max hdr).
Proof.
  rewrite parse_seq_args_unfold. intros Hr Hw.
  destruct (parse_loop hdr n s (scan_start out)) as [st'|] eqn:Hp; [|done].
  apply parse_loop_inv in Hp as [Hk [(toks & Ht & Hi & ->)|Hstop]]; [| |simpl; lia].
  - rewrite run_tokens_j, run_tokens_k in *. cbn [scan_start st_j st_k] in *.
    unfold CHAFA_TERM_SEQ_ARGS_MAX in Hr.
    destruct (Z.eqb_spec (0 + Z.of_nat (length (placeholders toks))) 8); [done|].
    destruct (Z.gtb_spec (0 + Z.of_nat (length (literals toks))
                          + (0 + Z.of_nat (length (placeholders toks))) * w + 1) (hdr_seq_length_max hdr));
      [done|].
    exists toks. repeat split; try done; lia.
  - unfold CHAFA_TERM_SEQ_ARGS_MAX in Hr.
    destruct (Z.eqb_spec (st_k st') 8); [done|].
    destruct (Z.gtb_spec (st_j st' + st_k st' * w + 1) (hdr_seq_length_max hdr)); [done|]. nia.
Qed.

End ParseResults.

(** ** What the scan leaves in [out] and [arg_info] *)

Lemma run_tokens_out toks : ∀ st,
  0 ≤ st_j st →
  st_j st + Z.of_nat (length (literals toks)) ≤ Z.of_nat (length (st_out st)) →
  length (st_out (run_tokens toks st)) = length (st_out st) ∧
  take (Z.to_nat (st_j st) + length (literals toks)) (st_out (run_tokens toks st))
  = take (Z.to_nat (st_j st)) (st_out st) ++ literals toks.
Proof.
  induction toks as [|[c|i] toks IH]; intros st Hj Hlen.
  - simpl. by rewrite Nat.add_0_r, app_nil_r.
  - rewrite run_tokens_cons, literals_cons_lit in *. cbn [length] in Hlen.
    destruct (IH (put_literal c st)) as [Hl Ht];
      [simpl; lia|simpl; rewrite length_insert; lia|].
    cbn [step_token]. rewrite Hl. cbn [put_literal st_out st_j] in *.
    rewrite length_insert. split; [done|].
    match goal with |- take ?n _ = _ =>
      replace n with (Z.to_nat (st_j st + 1) + length (literals toks))%nat
        by (simpl; lia) end.
    rewrite Ht.
    replace (Z.to_nat (st_j st + 1)) with (S (Z.to_nat (st_j st))) by lia.
    rewrite (take_S_r _ _ c) by (apply list_lookup_insert_eq; lia).
    rewrite take_insert_ge by lia. by rewrite <- app_assoc.
  - rewrite run_tokens_cons, literals_cons_arg in *.
    destruct (IH (next_arg (put_arg i st))) as [Hl Ht]; [done..|].
    by cbn [step_token].
Qed.

Lemma run_tokens_slots toks : ∀ st cur segs trail,
  segments cur toks = (segs, trail) →
  st_pre_len st = Z.of_nat (length cur) → 0 ≤ st_k st →
  Forall (λ i, 0 ≤ i ≤ 7) (placeholders toks) →
  Z.of_nat (length cur) + Z.of_nat (length (literals toks)) < 256 →
  (Z.to_nat (st_k st) + length segs ≤ length (st_arg_info st))%nat →
  let st' := run_tokens toks st in
  st_pre_len st' = Z.of_nat (length trail) ∧
  length (st_arg_info st') = length (st_arg_info st) ∧
  (∀ n seg, segs !! n = Some seg →
     st_arg_info st' !! (Z.to_nat (st_k st) + n)%nat = Some (slot_of seg)) ∧
  (∀ n, (n < Z.to_nat (st_k st) ∨ Z.to_nat (st_k st) + length segs ≤ n)%nat →
     st_arg_info st' !! n = st_arg_info st !! n).
Proof.
  induction toks as [|[c|i] toks IH]; intros st cur segs trail Hs Hpre Hk Hidx H256 Hroom;
    cbn [segments] in Hs.
  - injection Hs as <- <-. simpl. split_and!; try done.
  - rewrite literals_cons_lit, placeholders_cons_lit in *. cbn [length] in H256.
    rewrite run_tokens_cons.
    destruct (IH (put_literal c st) (cur ++ [c]) segs trail Hs) as (H1 & H2 & H3 & H4);
      try done.
    + simpl. rewrite length_app. simpl. lia.
    + rewrite length_app. simpl. lia.
  - destruct (segments [] toks) as [segs' trail'] eqn:E. injection Hs as <- <-.
    rewrite literals_cons_arg, placeholders_cons_arg in *.
    apply Forall_cons in Hidx as [Hi Hidx]. cbn [length] in Hroom.
    rewrite run_tokens_cons.
    destruct (IH (next_arg (put_arg i st)) [] segs' trail' E) as (H1 & H2 & H3 & H4);
      try done.
    + simpl. lia.
    + simpl. lia.
    + simpl. rewrite length_insert. lia.
    + cbn [step_token next_arg put_arg st_arg_info st_k] in *.
      rewrite length_insert in H2.
      split_and!; try done.
      * intros [|m] seg Hseg.
        -- injection Hseg as <-. rewrite Nat.add_0_r, H4 by lia.
           rewrite list_lookup_insert_eq by lia. unfold slot_of. simpl.
           rewrite Hpre, !to_guint8_small by lia. done.
        -- simpl in Hseg. rewrite <- (H3 m seg Hseg). f_equal. lia.
      * intros m Hm. cbn [length] in Hm. rewrite H4 by lia. apply list_lookup_insert_ne. lia.
Qed.

Lemma parse_loop_lengths hdr n s : ∀ st,
  match parse_loop hdr n s st with
  | Fallthrough st' | GotoOut _ st' =>
      length (st_out st') = length (st_out st) ∧
      length (st_arg_info st') = length (st_arg_info st)
  end.
Proof.
  induction s as [s IH] using shorter_ind. intros st.
  rewrite parse_loop_unfold.
  destruct (negb _); [done|].
  destruct s as [|a rest]; [done|].
  destruct (decide (a = NUL)); [done|].
  destruct (decide (a = PERCENT)).
  - destruct rest as [|b l]; [done|]. destruct (decide (b = PERCENT)).
    + specialize (IH l ltac:(simpl; lia) (put_literal PERCENT st)).
      destruct (parse_loop hdr n l _); cbn [put_literal st_out st_arg_info] in IH;
        by rewrite length_insert in IH.
    + destruct (is_arg_digit b); [|done]. cbv zeta.
      destruct (_ >=? _).
      * cbn [put_arg st_out st_arg_info]. by rewrite length_insert.
      * specialize (IH l ltac:(simpl; lia)
                      (next_arg (put_arg (code b - code "1"%char) st))).
        destruct (parse_loop hdr n l _);
          cbn [next_arg put_arg st_out st_arg_info] in IH;
          by rewrite length_insert in IH.
  - specialize (IH rest ltac:(simpl; lia) (put_literal a st)).
    destruct (parse_loop hdr n rest _); cbn [put_literal st_out st_arg_info] in IH;
      by rewrite length_insert in IH.
Qed.

Lemma parse_seq_args_lengths hdr out s n w :
  length (pr_out (parse_seq_args hdr out s n w)) = length out ∧
  length (pr_arg_info (parse_seq_args hdr out s n w))
  = Z.to_nat CHAFA_TERM_SEQ_ARGS_MAX.
Proof.
  unfold parse_seq_args.
  pose proof (parse_loop_lengths hdr n s
                {| st_out := out; st_j := 0; st_k := 0; st_pre_len := 0;
                   st_arg_info := replicate (Z.to_nat CHAFA_TERM_SEQ_ARGS_MAX)
                                    (sentinel 0);
                   st_oob := false |}) as H.
  destruct (parse_loop hdr n s _) as [st'|e st']; cbn [st_out st_arg_info] in H;
    rewrite length_replicate in H; destruct H as [H1 H2].
  - destruct (_ =? _); [done|]. destruct (_ >? _); [done|].
    cbn [pr_out pr_arg_info]. by rewrite length_insert.
  - done.
Qed.

(** ** Stores past the end of [out] *)

Lemma counted_put_literal c st : counted st → counted (put_literal c st).
Proof.
  intros [Hj Ho]. split; [simpl; lia|].
  cbn [put_literal st_oob st_out st_j]. rewrite length_insert, Ho.
  destruct (Z.ltb_spec (Z.of_nat (length (st_out st))) (st_j st));
    destruct (Z.ltb_spec (st_j st) (Z.of_nat (length (st_out st))));
    destruct (Z.ltb_spec (Z.of_nat (length (st_out st))) (st_j st + 1));
    simpl; try done; lia.
Qed.

Lemma counted_step_token t st : counted st → counted (step_token st t).
Proof. destruct t; [apply counted_put_literal|done]. Qed.

Lemma counted_run_tokens toks : ∀ st, counted st → counted (run_tokens toks st).
Proof.
  induction toks as [|t toks IH]; intros st H; [done|].
  rewrite run_tokens_cons. by apply IH, counted_step_token.
Qed.

Lemma counted_scan_start out : counted (scan_start out).
Proof.
  split; [done|]. simpl. symmetry. apply Z.ltb_ge. lia.
Qed.

Lemma run_tokens_out_length toks : ∀ st,
  length (st_out (run_tokens toks st)) = length (st_out st).
Proof.
  induction toks as [|[c|i] toks IH]; intros st; [done| |];
    rewrite run_tokens_cons, IH; simpl; [by rewrite length_insert|done].
Qed.

(** No store of the scan is past the end of [out] exactly when the literal
    bytes are no more than [out] has. *)
Lemma run_tokens_oob toks out :
  st_oob (run_tokens toks (scan_start out))
  = (Z.of_nat (length out) <? Z.of_nat (length (literals toks))).
Proof.
  destruct (counted_run_tokens toks _ (counted_scan_start out)) as [_ ->].
  by rewrite run_tokens_out_length, run_tokens_j.
Qed.

Section Counted.

Variable hdr : Headers.

Lemma parse_loop_counted n s : ∀ st,
  counted st → counted (exit_state (parse_loop hdr n s st)).
Proof.
  induction s as [s IH] using shorter_ind. intros st Hc.
  rewrite parse_loop_unfold.
  destruct (negb _); [done|].
  destruct s as [|a rest]; [done|].
  destruct (decide (a = NUL)); [done|].
  destruct (decide (a = PERCENT)).
  - destruct rest as [|b l]; [done|]. destruct (decide (b = PERCENT)).
    + apply IH; [simpl; lia|by apply counted_put_literal].
    + destruct (is_arg_digit b); [|done]. cbv zeta.
      destruct (_ >=? _); [done|]. apply IH; [simpl; lia|done].
  - apply IH; [simpl; lia|by apply counted_put_literal].
Qed.

(** The scan stores while [j] is below CHAFA_TERM_SEQ_LENGTH_MAX, a byte
    for a byte of the template at most. *)
Lemma parse_loop_j n s : ∀ st,
  let st' := exit_state (parse_loop hdr n s st) in
  st_j st ≤ st_j st' ∧
  st_j st' ≤ Z.max (st_j st) (hdr_seq_length_max hdr) ∧
  st_j st' ≤ st_j st + Z.of_nat (length s).
Proof.
  induction s as [s IH] using shorter_ind. intros st. cbv zeta.
  rewrite parse_loop_unfold.
  destruct (decide (st_j st < (hdr_seq_length_max hdr) ∧ st_k st < 8)) as [[Hj Hk']|Hc];
    [rewrite loop_cond_true by done
    |rewrite loop_cond_false by done; simpl; lia].
  destruct s as [|a rest]; [simpl; lia|].
  destruct (decide (a = NUL)); [simpl; lia|].
  destruct (decide (a = PERCENT)).
  - destruct rest as [|b l]; [simpl; lia|]. destruct (decide (b = PERCENT)).
    + specialize (IH l ltac:(simpl; lia) (put_literal PERCENT st)).
      cbv zeta in IH. cbn [put_literal st_j length] in *. lia.
    + destruct (is_arg_digit b); [|simpl; lia]. cbv zeta.
      destruct (_ >=? _); [simpl; lia|].
      specialize (IH l ltac:(simpl; lia)
                    (next_arg (put_arg (code b - code "1"%char) st))).
      cbv zeta in IH. cbn [next_arg put_arg st_j length] in *. lia.
  - specialize (IH rest ltac:(simpl; lia) (put_literal a st)).
    cbv zeta in IH. cbn [put_literal st_j length] in *. lia.
Qed.

(** Of a well-formed template the scan stores literal bytes only. *)
Lemma parse_loop_j_tokens n s : ∀ st toks,
  tokens s = Some toks →
  st_j (exit_state (parse_loop hdr n s st))
  ≤ st_j st + Z.of_nat (length (literals toks)).
Proof.
  induction s as [s IH] using shorter_ind. intros st toks Ht.
  rewrite parse_loop_unfold.
  destruct (negb _); [simpl; lia|].
  destruct s as [|a rest]; [simpl; lia|].
  cbn [tokens] in Ht.
  destruct (decide (a = NUL)); [simpl; lia|].
  destruct (decide (a = PERCENT)).
  - destruct rest as [|b l]; [done|]. destruct (decide (b = PERCENT)).
    + destruct (tokens l) as [t|] eqn:E; [|done]. injection Ht as <-.
      specialize (IH l ltac:(simpl; lia) (put_literal PERCENT st) t E).
      rewrite literals_cons_lit. cbn [put_literal st_j length] in *. lia.
    + destruct (is_arg_digit b); [|done].
      destruct (tokens l) as [t|] eqn:E; [|done]. injection Ht as <-. cbv zeta.
      destruct (_ >=? _); [simpl; lia|].
      specialize (IH l ltac:(simpl; lia)
                    (next_arg (put_arg (code b - code "1"%char) st)) t E).
      rewrite literals_cons_arg. cbn [next_arg put_arg st_j length] in *. lia.
  - destruct (tokens rest) as [t|] eqn:E; [|done]. injection Ht as <-.
    specialize (IH rest ltac:(simpl; lia) (put_literal a st) t E).
    rewrite literals_cons_lit. cbn [put_literal st_j length] in *. lia.
Qed.

Lemma parse_seq_args_state out s n w :
  let st' := exit_state (parse_loop hdr n s (scan_start out)) in
  pr_oob (parse_seq_args hdr out s n w) = st_oob st' ∧
  pr_out (parse_seq_args hdr out s n w) = st_out st'.
Proof.
  cbv zeta. rewrite parse_seq_args_unfold.
  destruct (parse_loop hdr n s (scan_start out)); [|done].
  simpl. destruct (_ =? _); [done|]. by destruct (_ >? _).
Qed.

(** Whether a call stored past the end of [out]: by where [j] ends. *)
Lemma parse_seq_args_oob out s n w :
  pr_oob (parse_seq_args hdr out s n w)
  = (Z.of_nat (length out) <? st_j (exit_state (parse_loop hdr n s (scan_start out)))).
Proof.
  destruct (parse_seq_args_state out s n w) as [-> _].
  destruct (parse_loop_counted n s _ (counted_scan_start out)) as [_ ->].
  pose proof (parse_loop_lengths hdr n s (scan_start out)) as H.
  destruct (parse_loop hdr n s (scan_start out)); simpl in *; by destruct H as [-> _].
Qed.

(** [out] holds the whole scan when it holds as many bytes as the scan
    stores, CHAFA_TERM_SEQ_LENGTH_MAX at most. *)
Lemma parse_seq_args_stores out s n w m :
  Z.min m (hdr_seq_length_max hdr) ≤ Z.of_nat (length out) →
  st_j (exit_state (parse_loop hdr n s (scan_start out))) ≤ m →
  pr_oob (parse_seq_args hdr out s n w) = false.
Proof.
  intros Hm Hs. rewrite parse_seq_args_oob. apply Z.ltb_ge.
  pose proof (parse_loop_j n s (scan_start out)) as (H1 & H2 & H3).
  cbn [scan_start st_j] in *. lia.
Qed.

Lemma parse_seq_args_holds out s n w m :
  Z.min m (hdr_seq_length_max hdr) ≤ Z.of_nat (length out) →
  Z.of_nat (length s) ≤ m ∨ (∃ toks, tokens s = Some toks ∧
                                     Z.of_nat (length (literals toks)) ≤ m) →
  pr_oob (parse_seq_args hdr out s n w) = false.
Proof.
  intros Hm Hs. apply (parse_seq_args_stores out s n w m Hm).
  destruct Hs as [Hs|(toks & Ht & Hs)].
  - pose proof (parse_loop_j n s (scan_start out)) as (H1 & H2 & H3).
    cbn [scan_start st_j] in *. lia.
  - pose proof (parse_loop_j_tokens n s (scan_start out) toks Ht) as H4.
    cbn [scan_start st_j] in H4. lia.
Qed.

End Counted.

(** ** The container *)

Lemma g_free_live o h :
  ptr_live h o →
  g_free o h = Some {| infos := infos h; strs := strs_after_free o (strs h) |}.
Proof.
  destruct o as [l|]; simpl; [|by destruct h]. intros [s Hs]. by rewrite Hs.
Qed.

Lemma copied_whole {A} (dst src : list A) n :
  length src = Z.to_nat n → length dst = Z.to_nat n → copied dst src n = src.
Proof.
  intros Hs Hd. unfold copied.
  rewrite (take_ge src), (drop_ge dst), app_nil_r by lia. done.
Qed.

Lemma copied_length {A} (dst src : list A) n :
  (Z.to_nat n ≤ length src)%nat → (Z.to_nat n ≤ length dst)%nat →
  length (copied dst src n) = length dst.
Proof.
  intros Hs Hd. unfold copied. rewrite length_app, length_take, length_drop. lia.
Qed.

Lemma copied_take {A} (dst src : list A) n m :
  (m ≤ Z.to_nat n)%nat → (Z.to_nat n ≤ length src)%nat →
  take m (copied dst src n) = take m src.
Proof.
  intros Hn Hs. unfold copied.
  rewrite take_app_le by (rewrite length_take; lia).
  rewrite take_take. f_equal. lia.
Qed.

Lemma copied_drop {A} (dst src : list A) n :
  (Z.to_nat n ≤ length src)%nat →
  drop (Z.to_nat n) (copied dst src n) = drop (Z.to_nat n) dst.
Proof.
  intros Hs. unfold copied.
  rewrite drop_app_ge by (rewrite length_take; lia).
  rewrite length_take, Nat.min_l by done. by rewrite Nat.sub_diag.
Qed.

Lemma memcpy_fits {A} (dst src : list A) n :
  0 ≤ n ≤ Z.of_nat (length dst) → n ≤ Z.of_nat (length src) →
  memcpy dst src n = Some (copied dst src n).
Proof. intros. unfold memcpy. by rewrite bool_decide_eq_true_2. Qed.

Lemma memcpy_spills {A} (dst src : list A) n :
  Z.of_nat (length dst) < n → memcpy dst src n = None.
Proof. intros. unfold memcpy. rewrite bool_decide_eq_false_2; [done|lia]. Qed.

Lemma kind_guard (m seq : Z) :
  0 ≤ seq < m → negb ((0 <=? seq) && (seq <? m)) = false.
Proof.
  intros. destruct (Z.leb_spec 0 seq); [|lia]. by destruct (Z.ltb_spec seq m); [|lia].
Qed.

Section Container.

Variable hdr : Headers.

Lemma ptr_live_lookup h (ptrs : list (option loc)) i :
  Forall (ptr_live h) ptrs → ptr_live h (ptrs !!! i).
Proof.
  intros Hall. destruct (ptrs !! i) as [o|] eqn:E.
  - rewrite (list_lookup_total_correct _ _ _ E).
    by eapply Forall_lookup_1.
  - by rewrite list_lookup_total_alt, E.
Qed.

Lemma wf_info_row_length ti seq :
  wf_info hdr ti → 0 ≤ seq < (hdr_seq_max hdr) →
  length (seq_str ti !!! Z.to_nat seq) = Z.to_nat (hdr_seq_length_max hdr) ∧
  length (seq_args ti !!! Z.to_nat seq) = Z.to_nat CHAFA_TERM_SEQ_ARGS_MAX.
Proof.
  intros (H1 & H2 & H3 & H4 & H5) Hseq. split.
  - destruct (lookup_lt_is_Some_2 (seq_str ti) (Z.to_nat seq)) as [row Hrow]; [lia|].
    rewrite (list_lookup_total_correct _ _ _ Hrow).
    by eapply (Forall_lookup_1 _ _ _ _ H2).
  - destruct (lookup_lt_is_Some_2 (seq_args ti) (Z.to_nat seq)) as [row Hrow]; [lia|].
    rewrite (list_lookup_total_correct _ _ _ Hrow).
    by eapply (Forall_lookup_1 _ _ _ _ H4).
Qed.

Lemma compile_of_lengths stack seq s :
  length (pr_out (compile_of hdr stack seq s)) = Z.to_nat (hdr_seq_max hdr) ∧
  length (pr_arg_info (compile_of hdr stack seq s)) = Z.to_nat CHAFA_TERM_SEQ_ARGS_MAX.
Proof.
  unfold compile_of.
  destruct (parse_seq_args_lengths hdr (resize (Z.to_nat (hdr_seq_max hdr)) NUL stack) s
              (n_args (seq_meta hdr seq))
              (if type_size (seq_meta hdr seq) =? 1 then 3 else 4)) as [-> ->].
  by rewrite length_resize.
Qed.

(** The scan of [chafa_term_info_set_seq] stays inside the local array when
    the array holds what the scan stores of the template. *)
Lemma compile_holds stack seq s m :
  local_holds hdr m →
  Z.of_nat (length s) ≤ m ∨ (∃ toks, tokens s = Some toks ∧
                                     Z.of_nat (length (literals toks)) ≤ m) →
  pr_oob (compile_of hdr stack seq s) = false.
Proof.
  intros Hm Hs. unfold compile_of.
  apply (parse_seq_args_holds hdr _ s _ _ m); [|done].
  rewrite length_resize. unfold local_holds in Hm. lia.
Qed.

(** What [chafa_term_info_set_seq] does with a string of the caller's own,
    for a live container and a kind in range. *)
Lemma set_seq_template stack h p ti seq s :
  infos h !! p = Some ti → wf_info hdr ti → Forall (ptr_live h) (unparsed_str ti) →
  0 ≤ seq < (hdr_seq_max hdr) →
  let r := compile_of hdr stack seq s in
  let old := unparsed_str ti !!! Z.to_nat seq in
  let l := fresh (dom (strs_after_free old (strs h))) in
  chafa_term_info_set_seq hdr stack (Some p) seq (Some (own s)) h =
  if pr_oob r then None
  else if pr_result r then
    if bool_decide (hdr_seq_max hdr ≤ hdr_seq_length_max hdr) then
      Some ((true, pr_error r),
            {| infos :=
                 <[p := {| refs := refs ti;
                           seq_str :=
                             set_row (seq_str ti) seq
                               (copied (seq_str ti !!! Z.to_nat seq) (pr_out r) (hdr_seq_max hdr));
                           seq_args :=
                             set_row (seq_args ti) seq
                               (copied (seq_args ti !!! Z.to_nat seq) (pr_arg_info r)
                                  CHAFA_TERM_SEQ_ARGS_MAX);
                           unparsed_str :=
                             <[Z.to_nat seq := Some l]> (unparsed_str ti) |}]> (infos h);
               strs := <[l := c_str s]> (strs_after_free old (strs h)) |})
    else None
  else Some ((false, pr_error r), h).
Proof.
  intros Hti Hwf Hlive Hseq r old l. unfold chafa_term_info_set_seq.
  rewrite Hti. cbn [mbind option_bind]. rewrite kind_guard by done.
  cbn [read_str mbind option_bind].
  fold (compile_of hdr stack seq s). fold r.
  destruct (pr_oob r); [done|]. destruct (pr_result r); [|done].
  destruct (wf_info_row_length ti seq Hwf Hseq) as [Hrl Hal].
  destruct (compile_of_lengths stack seq s) as [Hol Hil]. fold r in Hol, Hil.
  case_bool_decide as Hfit.
  - rewrite !memcpy_fits by (rewrite ?Hrl, ?Hal, ?Hol, ?Hil; unfold CHAFA_TERM_SEQ_ARGS_MAX; lia).
    cbn [mbind option_bind]. rewrite (g_free_live _ h) by by apply ptr_live_lookup. done.
  - rewrite (memcpy_spills (seq_str ti !!! Z.to_nat seq)) by (rewrite Hrl; lia). done.
Qed.

(** A string argument is read twice; when the call returns, both reads
    gave the same bytes, and the call is the one on these bytes. *)
Lemma set_seq_read stack h p ti seq str x :
  infos h !! p = Some ti → 0 ≤ seq < (hdr_seq_max hdr) →
  chafa_term_info_set_seq hdr stack (Some p) seq (Some str) h = Some x →
  ∃ s, read_str str h = Some s ∧
    chafa_term_info_set_seq hdr stack (Some p) seq (Some (own s)) h = Some x.
Proof.
  intros Hti Hseq. unfold chafa_term_info_set_seq.
  rewrite Hti. cbn [mbind option_bind]. rewrite kind_guard by done.
  destruct (read_str str h) as [s|] eqn:Hs; [|done].
  cbn [read_str mbind option_bind].
  intros H. exists s. split; [done|].
  destruct (pr_oob _); [done|]. destruct (pr_result _); [|done].
  destruct (memcpy (seq_str ti !!! Z.to_nat seq) _ _) as [row|]; [|done].
  cbn [mbind option_bind] in *.
  destruct (memcpy (seq_args ti !!! Z.to_nat seq) _ _) as [slots|]; [|done].
  cbn [mbind option_bind] in *.
  destruct (g_free _ h) as [h1|] eqn:Hf; [|done]. cbn [mbind option_bind] in *.
  destruct (read_str str h1) as [s'|] eqn:Hs'; [|done]. cbn [mbind option_bind] in *.
  assert (s' = s) as ->; [|done].
  destruct str as [s0|l0]; simpl in Hs, Hs'; [congruence|].
  destruct (unparsed_str ti !!! Z.to_nat seq) as [l1|]; simpl in Hf.
  - destruct (strs h !! l1); [|done]. injection Hf as <-. simpl in Hs'.
    apply lookup_delete_Some in Hs' as [_ Hs']. congruence.
  - injection Hf as <-. congruence.
Qed.

(** A string of the heap that is not the raw template the call frees
    serves as a string of the caller's own. *)
Lemma set_seq_held stack h p ti seq l s :
  infos h !! p = Some ti → 0 ≤ seq < (hdr_seq_max hdr) →
  strs h !! l = Some s → unparsed_str ti !!! Z.to_nat seq ≠ Some l →
  chafa_term_info_set_seq hdr stack (Some p) seq (Some (held l)) h
  = chafa_term_info_set_seq hdr stack (Some p) seq (Some (own s)) h.
Proof.
  intros Hti Hseq Hs Hne. unfold chafa_term_info_set_seq.
  rewrite Hti. cbn [mbind option_bind]. rewrite kind_guard by done.
  cbn [read_str]. rewrite Hs. cbn [mbind option_bind].
  destruct (pr_oob _); [done|]. destruct (pr_result _); [|done].
  destruct (memcpy (seq_str ti !!! Z.to_nat seq) _ _) as [row|]; [|done].
  cbn [mbind option_bind].
  destruct (memcpy (seq_args ti !!! Z.to_nat seq) _ _) as [slots|]; [|done].
  cbn [mbind option_bind].
  destruct (g_free _ h) as [h1|] eqn:Hf; [|done]. cbn [mbind option_bind].
  assert (strs h1 !! l = Some s) as ->; [|done].
  destruct (unparsed_str ti !!! Z.to_nat seq) as [l1|]; simpl in Hf.
  - destruct (strs h !! l1); [|done]. injection Hf as <-. simpl.
    rewrite lookup_delete_ne; [done|congruence].
  - by injection Hf as <-.
Qed.

(** The raw template of the kind, passed back for the same kind: the call
    frees it before [g_strdup] reads it, so no such call returns TRUE. *)
Lemma set_seq_freed stack h p ti seq l :
  infos h !! p = Some ti →
  unparsed_str ti !!! Z.to_nat seq = Some l →
  chafa_term_info_set_seq hdr stack (Some p) seq (Some (held l)) h =
  if negb ((0 <=? seq) && (seq <? hdr_seq_max hdr)) then Some ((false, None), h)
  else
    s ← strs h !! l;
    let r := compile_of hdr stack seq s in
    if pr_oob r then None
    else if pr_result r then None
    else Some ((false, pr_error r), h).
Proof.
  intros Hti Hl. unfold chafa_term_info_set_seq.
  rewrite Hti. cbn [mbind option_bind]. destruct (negb _); [done|].
  cbn [read_str]. destruct (strs h !! l) as [s|] eqn:Hs; [|done].
  cbn [mbind option_bind]. fold (compile_of hdr stack seq s).
  destruct (pr_oob _); [done|]. destruct (pr_result _); [|done].
  destruct (memcpy (seq_str ti !!! Z.to_nat seq) _ _) as [row|]; [|done].
  cbn [mbind option_bind].
  destruct (memcpy (seq_args ti !!! Z.to_nat seq) _ _) as [slots|]; [|done].
  cbn [mbind option_bind].
  rewrite Hl. cbn [g_free]. rewrite Hs. cbn [mbind option_bind strs].
  by rewrite lookup_delete_eq.
Qed.

(** What a call that returns TRUE for a string has gone through, and the
    heap it leaves. *)
Lemma set_seq_accepted stack h p ti seq str s e h' :
  infos h !! p = Some ti → wf_info hdr ti → Forall (ptr_live h) (unparsed_str ti) →
  read_str str h = Some s →
  chafa_term_info_set_seq hdr stack (Some p) seq (Some str) h = Some ((true, e), h') →
  let r := compile_of hdr stack seq s in
  let old := unparsed_str ti !!! Z.to_nat seq in
  let l := fresh (dom (strs_after_free old (strs h))) in
  0 ≤ seq < (hdr_seq_max hdr) ∧
  hdr_seq_max hdr ≤ hdr_seq_length_max hdr ∧
  pr_oob r = false ∧ pr_result r = true ∧ e = pr_error r ∧
  h' = {| infos :=
            <[p := {| refs := refs ti;
                      seq_str :=
                        set_row (seq_str ti) seq
                          (copied (seq_str ti !!! Z.to_nat seq) (pr_out r) (hdr_seq_max hdr));
                      seq_args :=
                        set_row (seq_args ti) seq
                          (copied (seq_args ti !!! Z.to_nat seq) (pr_arg_info r)
                             CHAFA_TERM_SEQ_ARGS_MAX);
                      unparsed_str :=
                        <[Z.to_nat seq := Some l]> (unparsed_str ti) |}]> (infos h);
          strs := <[l := c_str s]> (strs_after_free old (strs h)) |}.
Proof.
  intros Hti Hwf Hlive Hs Hset r old l.
  assert (0 ≤ seq < hdr_seq_max hdr) as Hseq.
  { revert Hset. unfold chafa_term_info_set_seq. rewrite Hti. cbn [mbind option_bind].
    destruct (Z.leb_spec 0 seq); destruct (Z.ltb_spec seq (hdr_seq_max hdr));
      cbn [negb andb]; try done; lia. }
  destruct (set_seq_read _ _ _ _ _ _ _ Hti Hseq Hset) as (s' & Hs' & Hown).
  assert (s' = s) as -> by congruence.
  rewrite (set_seq_template stack h p ti seq s Hti Hwf Hlive Hseq) in Hown.
  cbv zeta in Hown. fold r old l in Hown.
  destruct (pr_oob r); [done|]. destruct (pr_result r); [|done].
  case_bool_decide; [|done]. injection Hown as <- <-. done.
Qed.

(** What a call on a string has done when it returns. *)
Lemma set_seq_string stack h p ti seq str x :
  infos h !! p = Some ti → wf_info hdr ti → Forall (ptr_live h) (unparsed_str ti) →
  0 ≤ seq < (hdr_seq_max hdr) →
  chafa_term_info_set_seq hdr stack (Some p) seq (Some str) h = Some x →
  ∃ s, read_str str h = Some s ∧
    let r := compile_of hdr stack seq s in
    let old := unparsed_str ti !!! Z.to_nat seq in
    let l := fresh (dom (strs_after_free old (strs h))) in
    pr_oob r = false ∧
    (pr_result r = true → hdr_seq_max hdr ≤ hdr_seq_length_max hdr) ∧
    (if pr_result r then
       Some ((true, pr_error r),
             {| infos :=
                  <[p := {| refs := refs ti;
                            seq_str :=
                              set_row (seq_str ti) seq
                                (copied (seq_str ti !!! Z.to_nat seq) (pr_out r) (hdr_seq_max hdr));
                            seq_args :=
                              set_row (seq_args ti) seq
                                (copied (seq_args ti !!! Z.to_nat seq) (pr_arg_info r)
                                   CHAFA_TERM_SEQ_ARGS_MAX);
                            unparsed_str :=
                              <[Z.to_nat seq := Some l]> (unparsed_str ti) |}]> (infos h);
                strs := <[l := c_str s]> (strs_after_free old (strs h)) |})
     else Some ((false, pr_error r), h)) = Some x.
Proof.
  intros Hti Hwf Hlive Hseq Hset.
  destruct (set_seq_read _ _ _ _ _ _ _ Hti Hseq Hset) as (s & Hs & Hown).
  exists s. split; [done|]. cbv zeta.
  rewrite (set_seq_template stack h p ti seq s Hti Hwf Hlive Hseq) in Hown.
  cbv zeta in Hown.
  destruct (pr_oob _); [done|]. split; [done|].
  destruct (pr_result _); [|done].
  case_bool_decide; [|done]. done.
Qed.

(** A call that returns FALSE has changed nothing. *)
Lemma set_seq_false stack h p seq str e h' :
  chafa_term_info_set_seq hdr stack p seq str h = Some ((false, e), h') → h' = h.
Proof.
  unfold chafa_term_info_set_seq. destruct p as [p|]; [|by intros [= <- <-]].
  destruct (infos h !! p) as [ti|]; [|done]. cbn [mbind option_bind].
  destruct (negb _); [by intros [= <- <-]|].
  destruct str as [str|].
  - destruct (read_str str h) as [s|]; [|done]. cbn [mbind option_bind].
    destruct (pr_oob _); [done|]. destruct (pr_result _); [|by intros [= <- <-]].
    destruct (memcpy (seq_str ti !!! Z.to_nat seq) _ _) as [row|]; [|done].
    cbn [mbind option_bind].
    destruct (memcpy (seq_args ti !!! Z.to_nat seq) _ _) as [slots|]; [|done].
    cbn [mbind option_bind].
    destruct (g_free _ h) as [h1|]; [|done]. cbn [mbind option_bind].
    by destruct (read_str str h1).
  - by destruct (g_free _ h).
Qed.

Lemma set_seq_clear stack h p ti seq :
  infos h !! p = Some ti → Forall (ptr_live h) (unparsed_str ti) →
  0 ≤ seq < (hdr_seq_max hdr) →
  let old := unparsed_str ti !!! Z.to_nat seq in
  chafa_term_info_set_seq hdr stack (Some p) seq None h =
  Some ((true, None),
        {| infos :=
             <[p := {| refs := refs ti;
                       seq_str :=
                         set_row (seq_str ti) seq
                           (<[0%nat := NUL]> (seq_str ti !!! Z.to_nat seq));
                       seq_args :=
                         set_row (seq_args ti) seq
                           (<[0%nat := sentinel 0]> (seq_args ti !!! Z.to_nat seq));
                       unparsed_str :=
                         <[Z.to_nat seq := None]> (unparsed_str ti) |}]> (infos h);
           strs := strs_after_free old (strs h) |}).
Proof.
  intros Hti Hlive Hseq old. unfold chafa_term_info_set_seq.
  rewrite Hti. simpl.
  destruct (Z.leb_spec 0 seq); [|lia]. destruct (Z.ltb_spec seq (hdr_seq_max hdr)); [|lia].
  simpl. rewrite (g_free_live _ h) by by apply ptr_live_lookup. done.
Qed.

End Container.

(** ** The entry points *)

Lemma to_guint_small z : 0 ≤ z < 4294967296 → to_guint z = z.
Proof. intros. unfold to_guint. by apply Z.mod_small. Qed.

Lemma aix16_wrapper base v :
  0 ≤ v ≤ 15 → 0 ≤ base ≤ 100 →
  v + (if v <? 8 then base else base + 60 - 8) = aix16 base v.
Proof. intros. unfold aix16. destruct (v <? 8); lia. Qed.

Lemma aix16_range base v :
  0 ≤ v ≤ 15 → 0 ≤ base ≤ 100 → 0 ≤ aix16 base v ≤ 255.
Proof. intros. unfold aix16. destruct (v <? 8); lia. Qed.

Section EntryPoints.

Variable hdr : Headers.
Variable past : Z.

(** Every entry point of a kind with arguments ends in the generic routine,
    on the values [passed] names. *)
Lemma chafa_term_info_emit_generic ti dest seq args :
  in_range (hdr_seq_def hdr seq) args →
  def_n_args (hdr_seq_def hdr seq) ≠ 0 →
  ∃ fmt,
    chafa_term_info_emit hdr past ti dest seq args =
    EMIT_SEQ_DEF past fmt ti dest seq (passed (hdr_seq_def hdr seq) args)
      (def_n_args (hdr_seq_def hdr seq)).
Proof.
  intros [Hlen Hall] Hn. unfold chafa_term_info_emit.
  destruct (hdr_seq_def hdr seq) eqn:Em; cbn [def_n_args arg_max] in *; try done;
    repeat (destruct args as [|? args]; try (simpl in Hlen; lia));
    repeat match goal with
           | H : Forall _ (_ :: _) |- _ => apply Forall_cons in H as [? H]
           end;
    cbn [nth passed];
    eexists;
    unfold emit_1_none_guint, emit_1_none_guint8, emit_1_aix16fg_guint8,
      emit_1_aix16bg_guint8, emit_2_none_guint, emit_2_none_guint8,
      emit_2_aix16fgbg_guint8, emit_3_none_guint, emit_3_none_guint8,
      emit_6_none_guint8, emit_seq_1_args_uint, emit_seq_1_args_uint8,
      emit_seq_2_args_uint, emit_seq_2_args_uint8, emit_seq_3_args_uint,
      emit_seq_3_args_uint8, emit_seq_6_args_uint8, emit_seq_guint, emit_seq_guint8;
    change (90 - 8) with (30 + 60 - 8); change (100 - 8) with (40 + 60 - 8);
    repeat match goal with
           | |- context [to_guint8 ?z] => rewrite (to_guint8_small z) by lia
           | |- context [to_guint ?z] => rewrite (to_guint_small z) by lia
           | |- context [?v + (if ?v <? 8 then ?b else _)] =>
               rewrite (aix16_wrapper b v) by lia;
               pose proof (aix16_range b v ltac:(lia) ltac:(lia))
           end;
    reflexivity.
Qed.

End EntryPoints.

Lemma agrees_take_drop mem0 out0 mem cur em :
  agrees mem0 out0 mem cur em → 0 ≤ out0 →
  length mem = length mem0 ∧
  take (Z.to_nat out0) mem = take (Z.to_nat out0) mem0 ∧
  take (length em) (drop (Z.to_nat out0) mem) = em ∧
  drop (Z.to_nat cur + 1) mem = drop (Z.to_nat cur + 1) mem0.
Proof.
  intros (Hlen & Hcur & Hlook) Hout. split_and!; [done| | |].
  - apply list_eq. intros i. destruct (decide (i < Z.to_nat out0)%nat).
    + rewrite !lookup_take_lt by done.
      specialize (Hlook (Z.of_nat i) ltac:(lia) ltac:(lia)).
      rewrite Nat2Z.id, decide_False in Hlook by lia. done.
    + by rewrite !lookup_take_ge by lia.
  - apply list_eq. intros i. destruct (decide (i < length em)%nat).
    + rewrite lookup_take_lt, lookup_drop by done.
      specialize (Hlook (out0 + Z.of_nat i) ltac:(lia) ltac:(lia)).
      rewrite decide_True in Hlook by lia.
      replace (Z.to_nat (out0 + Z.of_nat i)) with (Z.to_nat out0 + i)%nat in Hlook by lia.
      replace (Z.to_nat (out0 + Z.of_nat i - out0)) with i in Hlook by lia. done.
    + rewrite lookup_take_ge by lia. symmetry. apply lookup_ge_None. lia.
  - apply list_eq. intros i. rewrite !lookup_drop.
    specialize (Hlook (Z.of_nat (Z.to_nat cur + 1 + i)) ltac:(lia) ltac:(lia)).
    rewrite Nat2Z.id, decide_False in Hlook by lia. done.
Qed.

Lemma expand_app (args : list Z) t1 t2 :
  expand args (t1 ++ t2) = expand args t1 ++ expand args t2.
Proof. unfold expand. by rewrite fmap_app, concat_app. Qed.

Lemma expand_length (args : list Z) toks (w : nat) :
  Forall (λ i, (length (dec_digits (nth (Z.to_nat i) args 0%Z)) ≤ w)%nat)
    (placeholders toks) →
  (length (expand args toks)
   ≤ length (literals toks) + length (placeholders toks) * w)%nat.
Proof.
  induction toks as [|[c|i] toks IH]; intros Hall.
  - simpl. lia.
  - rewrite literals_cons_lit, placeholders_cons_lit in *.
    specialize (IH Hall). unfold expand in *. rewrite fmap_cons. simpl. lia.
  - rewrite literals_cons_arg, placeholders_cons_arg in *.
    apply Forall_cons in Hall as [Hi Hall]. specialize (IH Hall).
    unfold expand in *. rewrite fmap_cons. cbn [concat length].
    rewrite length_app. lia.
Qed.

Lemma arg_len_max_width hdr seq :
  (if type_size (seq_meta hdr seq) =? 1 then 3 else 4)
  = arg_width (hdr_seq_def hdr seq).
Proof. unfold seq_meta, arg_width. simpl. by destruct (hdr_seq_def hdr seq). Qed.

Lemma arg_width_range m : 3 ≤ arg_width m ≤ 4.
Proof. unfold arg_width. destruct (def_arg_type m); lia. Qed.

Lemma def_n_args_range m : 0 ≤ def_n_args m < CHAFA_TERM_SEQ_ARGS_MAX.
Proof. unfold CHAFA_TERM_SEQ_ARGS_MAX. destruct m; simpl; lia. Qed.

Section Compiled.

Variable hdr : Headers.

Lemma set_seq_true_in_range stack h p ti seq str e h' :
  infos h !! p = Some ti →
  chafa_term_info_set_seq hdr stack (Some p) seq str h = Some ((true, e), h') →
  0 ≤ seq < (hdr_seq_max hdr).
Proof.
  intros Hti. unfold chafa_term_info_set_seq. rewrite Hti. simpl.
  destruct (Z.leb_spec 0 seq); destruct (Z.ltb_spec seq (hdr_seq_max hdr)); simpl;
    try done; lia.
Qed.

(** What an accepted template leaves in the container: the slots of its
    runs, the sentinel with the trailing run, and the literal bytes as far
    as the local array of [chafa_term_info_set_seq] holds them. *)
Lemma compiled_after_set_seq stack h p ti seq str s e h' toks :
  (hdr_seq_length_max hdr) ≤ 256 →
  infos h !! p = Some ti → wf_info hdr ti → Forall (ptr_live h) (unparsed_str ti) →
  read_str str h = Some s →
  chafa_term_info_set_seq hdr stack (Some p) seq (Some str) h = Some ((true, e), h') →
  tokens s = Some toks →
  Z.of_nat (length (literals toks)) ≤ (hdr_seq_max hdr) →
  ∃ ti' segs trail,
    infos h' !! p = Some ti' ∧ segments [] toks = (segs, trail) ∧
    0 ≤ seq < (hdr_seq_max hdr) ∧
    indexes_below (def_n_args (hdr_seq_def hdr seq)) toks ∧
    Z.of_nat (length (literals toks))
    + Z.of_nat (length (placeholders toks)) * arg_width (hdr_seq_def hdr seq) + 1
    ≤ (hdr_seq_length_max hdr) ∧
    (∀ n seg, segs !! n = Some seg →
       (seq_args ti' !!! Z.to_nat seq) !! n = Some (slot_of seg)) ∧
    (seq_args ti' !!! Z.to_nat seq) !! length segs
    = Some (sentinel (Z.of_nat (length trail))) ∧
    take (length (literals toks)) (seq_str ti' !!! Z.to_nat seq) = literals toks.
Proof.
  intros HLM Hti Hwf Hlive Hstr Hset Htoks Hfit.
  destruct (set_seq_accepted hdr stack h p ti seq str s e h' Hti Hwf Hlive Hstr Hset)
    as (Hseq & Hrows & _ & Hres & -> & ->).
  unfold compile_of in Hres |- *. rewrite arg_len_max_width in Hres |- *.
  pose proof (arg_width_range (hdr_seq_def hdr seq)) as Hw.
  destruct (parse_seq_args_accepted _ _ _ _ _ Hres ltac:(lia))
    as (toks' & Htoks' & Hidx & Hk & Htot).
  assert (toks' = toks) as -> by congruence.
  destruct (parse_seq_args_verdict hdr (resize (Z.to_nat (hdr_seq_max hdr)) NUL stack) s
              (n_args (seq_meta hdr seq)) (arg_width (hdr_seq_def hdr seq))
              toks Htoks Hidx Hk ltac:(lia)) as [_ Hacc].
  cbv zeta in Hacc. rewrite (Hacc Htot). clear Hacc.
  destruct (segments [] toks) as [segs trail] eqn:Hsegs.
  destruct (segments_spec [] toks [] segs trail Hsegs) as (Hlits & _ & Hph).
  simpl in Hlits.
  set (st0 := scan_start (resize (Z.to_nat (hdr_seq_max hdr)) NUL stack)).
  destruct (run_tokens_slots toks st0 [] segs trail Hsegs) as (Hpre & Hlen & Hslot & Hrest);
    try done.
  { by eapply tokens_indexes. }
  { simpl. lia. }
  { simpl. rewrite <- (length_fmap snd segs), <- Hph. lia. }
  destruct (run_tokens_out toks st0) as [Hol Hot]; [done| |].
  { subst st0. simpl. rewrite length_resize. lia. }
  destruct (wf_info_row_length hdr ti seq Hwf Hseq) as [Hrl Hal].
  destruct Hwf as (Hw1 & Hw2 & Hw3 & Hw4 & Hw5).
  eexists _, segs, trail. split; [apply lookup_insert_eq|].
  split; [done|]. split; [done|]. split; [done|]. split; [done|].
  cbn [seq_args seq_str pr_out pr_arg_info]. unfold set_row.
  rewrite !list_lookup_total_insert_eq by lia.
  rewrite run_tokens_k. cbn [st_k st0 scan_start]. rewrite Z.add_0_l, Nat2Z.id.
  assert (length (placeholders toks) = length segs) as Hks
    by (by rewrite Hph, length_fmap).
  rewrite copied_whole; [| |done].
  2:{ rewrite length_insert, Hlen. done. }
  rewrite Hpre, to_guint8_small.
  2:{ assert (length trail ≤ length (literals toks))%nat
        by (rewrite Hlits, length_app; lia). lia. }
  split_and!.
  - intros n seg Hn. rewrite list_lookup_insert_ne.
    + by apply (Hslot n seg).
    + apply lookup_lt_Some in Hn. lia.
  - rewrite Hks. apply list_lookup_insert_eq. rewrite Hlen. simpl.
    unfold CHAFA_TERM_SEQ_ARGS_MAX. lia.
  - rewrite copied_take; [| lia |rewrite Hol; subst st0; simpl; rewrite length_resize; lia].
    subst st0. cbn [st_j scan_start] in Hot.
    change (Z.to_nat 0) with 0%nat in Hot. by rewrite Nat.add_0_l in Hot.
Qed.

End Compiled.

Lemma passed_range m args :
  in_range m args →
  length (passed m args) = length args ∧
  Forall (λ v, 0 ≤ v ≤ 9999 ∧ (arg_width m = 3 → v ≤ 255)) (passed m args).
Proof.
  intros [Hlen Hall].
  destruct m; cbn [def_n_args arg_max] in *;
    repeat (destruct args as [|? args]; try (simpl in Hlen; lia));
    repeat match goal with
           | H : Forall _ (_ :: _) |- _ => apply Forall_cons in H as [? H]
           end;
    cbn [passed]; (split; [done|]);
    repeat match goal with
           | |- context [aix16 ?b ?v] =>
               lazymatch goal with
               | H : 0 ≤ aix16 b v ≤ 255 |- _ => fail
               | _ => pose proof (aix16_range b v ltac:(lia) ltac:(lia))
               end
           end;
    repeat constructor; try lia; intros; try lia; try (cbv in *; congruence).
Qed.

Lemma digits_within_width m v :
  0 ≤ v ≤ 9999 ∧ (arg_width m = 3 → v ≤ 255) →
  Z.of_nat (length (dec_digits v)) ≤ arg_width m.
Proof.
  intros [Hv Hb]. pose proof (dec_digits_length v).
  pose proof (arg_width_range m).
  destruct (decide (arg_width m = 3)) as [E|E].
  - pose proof (dec_digits_length_u8 v ltac:(lia)). lia.
  - lia.
Qed.

Section EmitAfterSet.

Variable hdr : Headers.
Variable past : Z.

(** Emission of a kind right after its template was accepted, for a
    template that holds one placeholder per declared argument and whose
    literal bytes fit the local array of [chafa_term_info_set_seq]. *)
Lemma emit_after_set_seq stack h p ti seq str s e h' toks args mem out :
  (hdr_seq_length_max hdr) ≤ 256 →
  infos h !! p = Some ti → wf_info hdr ti → Forall (ptr_live h) (unparsed_str ti) →
  read_str str h = Some s →
  chafa_term_info_set_seq hdr stack (Some p) seq (Some str) h = Some ((true, e), h') →
  tokens s = Some toks →
  Z.of_nat (length (placeholders toks)) = def_n_args (hdr_seq_def hdr seq) →
  Z.of_nat (length (literals toks)) ≤ (hdr_seq_max hdr) →
  in_range (hdr_seq_def hdr seq) args →
  0 ≤ out → out + (hdr_seq_length_max hdr) ≤ Z.of_nat (length mem) →
  let ex := expand (passed (hdr_seq_def hdr seq) args) toks in
  ∃ ti' mem',
    infos h' !! p = Some ti' ∧
    chafa_term_info_emit hdr past ti' (mem, out) seq args
    = Done (mem', out + Z.of_nat (length ex)) ∧
    agrees mem out mem' (out + Z.of_nat (length ex)) ex ∧
    Z.of_nat (length ex) + 1 ≤ (hdr_seq_length_max hdr).
Proof.
  intros HLM Hti Hwf Hlive Hstr Hset Htoks Hcount Hfit Hrange Hout Hroom ex.
  destruct (compiled_after_set_seq hdr stack h p ti seq str s e h' toks)
    as (ti' & segs & trail & Hti' & Hsegs & Hseq & Hidx & Htot & Hslots & Hsent & Hrow);
    try done.
  set (m := hdr_seq_def hdr seq) in *.
  set (vals := passed m args) in *.
  destruct (segments_spec vals toks [] segs trail Hsegs) as (Hlits & Hex & Hph).
  simpl in Hlits, Hex. fold ex in Hex.
  destruct (passed_range m args Hrange) as [Hvlen Hvals]. fold vals in Hvlen, Hvals.
  pose proof Hrange as [Hargs _].
  assert (length (placeholders toks) = length segs) as Hks
    by (by rewrite Hph, length_fmap).
  assert (Forall (λ i, 0 ≤ i < Z.of_nat (length vals)) (placeholders toks)) as Hin.
  { pose proof (tokens_indexes s toks Htoks) as H07.
    unfold indexes_below in Hidx. rewrite Forall_forall in *.
    intros i Hi. specialize (Hidx i Hi). specialize (H07 i Hi). lia. }
  assert (Z.of_nat (length ex) + 1 ≤ (hdr_seq_length_max hdr)) as Hexlen.
  { pose proof (arg_width_range m).
    pose proof (expand_length vals toks (Z.to_nat (arg_width m))) as Hle.
    assert (length ex ≤ length (literals toks)
            + length (placeholders toks) * Z.to_nat (arg_width m))%nat; [|nia].
    apply Hle. rewrite Forall_forall in *. intros i Hi. specialize (Hin i Hi).
    assert (nth (Z.to_nat i) vals 0 ∈ vals) as Hv
      by (apply list_elem_of_In, nth_In; lia).
    pose proof (digits_within_width m _ (Hvals _ Hv)). lia. }
  exists ti'.
  destruct (decide (def_n_args m = 0)) as [Hn0|Hn0].
  - assert (segs = []) as -> by (destruct segs; [done|simpl in *; lia]).
    simpl in Hlits, Hex. rewrite Hlits in Hrow. rewrite Hex in *.
    destruct (emit_seq_0_args_uint_ok ti' seq trail mem out) as (mem' & Hemit & Ha);
      try done; try lia.
    exists mem'. split; [done|]. split; [|done].
    unfold chafa_term_info_emit. fold m.
    destruct m; try (simpl in Hn0; lia). exact Hemit.
  - destruct (chafa_term_info_emit_generic hdr past ti' (mem, out) seq args)
      as [fmt ->]; [done|done|].
    fold m. fold vals. rewrite <- Hcount, Hks.
    rewrite Hlits in Hrow.
    destruct (EMIT_SEQ_DEF_ok past fmt ti' seq vals segs trail mem out)
      as (mem' & Hemit & Ha); try done.
    + destruct segs; [simpl in *; lia|done].
    + apply Forall_forall. intros [r i] Hseg.
      rewrite Forall_forall in Hin. apply Hin.
      rewrite Hph. apply list_elem_of_fmap. by exists (r, i).
    + rewrite Hvlen. pose proof (def_n_args_range m).
      unfold CHAFA_TERM_SEQ_ARGS_MAX in *. lia.
    + rewrite <- Hex. lia.
    + rewrite <- Hex in *. by exists mem'.
Qed.

End EmitAfterSet.

Lemma c_str_id s : NUL ∉ s → c_str s = s.
Proof.
  induction s as [|c s IH]; [done|]. intros Hn.
  apply not_elem_of_cons in Hn as [Hc Hs]. simpl.
  rewrite decide_False by done. by rewrite IH.
Qed.

Lemma term_info_ok_inv hdr h p :
  term_info_ok hdr h p →
  ∃ ti, infos h !! p = Some ti ∧ wf_info hdr ti ∧
        Forall (ptr_live h) (unparsed_str ti).
Proof.
  unfold term_info_ok. destruct (infos h !! p) as [ti|]; [|done].
  intros [? ?]. by exists ti.
Qed.

Section SetSeq.

Variable hdr : Headers.

(** The call returns for a live container and a string of the caller's own,
    when the local array holds what the scan stores of it and the table of
    kinds is no longer than a row; with FALSE it has changed nothing. *)
Lemma set_seq_returns stack h p seq s :
  term_info_ok hdr h p →
  hdr_seq_max hdr ≤ hdr_seq_length_max hdr →
  local_holds hdr (Z.of_nat (length s)) →
  ∃ r e h',
    chafa_term_info_set_seq hdr stack (Some p) seq (Some (own s)) h
    = Some ((r, e), h') ∧
    (r = false → h' = h).
Proof.
  intros (ti & Hti & Hwf & Hlive)%term_info_ok_inv Hrows Hholds.
  destruct (decide (0 ≤ seq < (hdr_seq_max hdr))) as [Hseq|Hseq].
  - rewrite (set_seq_template hdr stack h p ti seq s Hti Hwf Hlive Hseq). cbv zeta.
    rewrite (compile_holds hdr stack seq s _ Hholds) by (left; lia).
    rewrite bool_decide_eq_true_2 by done.
    destruct (pr_result _); do 3 eexists; (split; [done|]); done.
  - exists false, None, h. split; [|done].
    unfold chafa_term_info_set_seq. rewrite Hti. simpl.
    destruct (Z.leb_spec 0 seq); destruct (Z.ltb_spec seq (hdr_seq_max hdr)); simpl;
      try done; lia.
Qed.

End SetSeq.

Lemma parse_loop_eighth hdr n s : ∀ st toks,
  tokens s = Some toks → indexes_below n toks →
  0 ≤ st_k st ≤ 8 → 8 ≤ st_k st + Z.of_nat (length (placeholders toks)) →
  st_j st + Z.of_nat (length (literals toks)) < hdr_seq_length_max hdr →
  ∃ st', parse_loop hdr n s st = Fallthrough st' ∧ st_k st' = 8.
Proof.
  induction s as [s IH] using shorter_ind. intros st toks Ht Hidx Hk Hmany Hj.
  rewrite parse_loop_unfold.
  destruct (decide (st_k st = 8)) as [Hk8|Hk8].
  { rewrite loop_cond_false by lia. by exists st. }
  rewrite loop_cond_true by lia.
  destruct s as [|a rest].
  { injection Ht as <-. simpl in Hmany. lia. }
  cbn [tokens] in Ht. destruct (decide (a = NUL)).
  { injection Ht as <-. simpl in Hmany. lia. }
  destruct (decide (a = PERCENT)).
  - destruct rest as [|b l]; [done|]. destruct (decide (b = PERCENT)).
    + destruct (tokens l) as [t|] eqn:Hl; [|done]. injection Ht as <-.
      rewrite literals_cons_lit, placeholders_cons_lit in *. cbn [length] in Hj.
      apply (IH l ltac:(simpl; lia) _ t); [done|done|done|done|simpl; lia].
    + destruct (is_arg_digit b) eqn:Hd; [|done].
      destruct (tokens l) as [t|] eqn:Hl; [|done]. injection Ht as <-.
      rewrite literals_cons_arg, placeholders_cons_arg in *. cbn [length] in Hmany.
      unfold indexes_below in Hidx. rewrite placeholders_cons_arg in Hidx.
      apply Forall_cons in Hidx as [Hi Hidx].
      pose proof (is_arg_digit_range _ Hd) as Hr.
      rewrite to_guint8_small by lia. cbv zeta.
      destruct (Z.geb_spec (code b - code "1"%char) n) as [?|_]; [lia|].
      apply (IH l ltac:(simpl; lia) _ t); [done|done|simpl; lia|simpl; lia|done].
  - destruct (tokens rest) as [t|] eqn:Hl; [|done]. injection Ht as <-.
    rewrite literals_cons_lit, placeholders_cons_lit in *. cbn [length] in Hj.
    apply (IH rest ltac:(simpl; lia) _ t); [done|done|done|done|simpl; lia].
Qed.

(** The same within a prefix of the string: the scan stops at the eighth
    placeholder whatever follows. *)
Lemma parse_loop_eighth_app hdr n pre : ∀ tp rest st,
  tokens pre = Some tp → NUL ∉ pre → indexes_below n tp →
  0 ≤ st_k st ≤ 8 → 8 ≤ st_k st + Z.of_nat (length (placeholders tp)) →
  st_j st + Z.of_nat (length (literals tp)) < hdr_seq_length_max hdr →
  ∃ st', parse_loop hdr n (pre ++ rest) st = Fallthrough st' ∧ st_k st' = 8.
Proof.
  induction pre as [pre IH] using shorter_ind. intros tp rest st Ht Hnul Hidx Hk Hmany Hj.
  rewrite parse_loop_unfold.
  destruct (decide (st_k st = 8)) as [Hk8|Hk8].
  { rewrite loop_cond_false by lia. by exists st. }
  rewrite loop_cond_true by lia.
  destruct pre as [|a pre'].
  { injection Ht as <-. simpl in Hmany. lia. }
  apply not_elem_of_cons in Hnul as [Ha Hnul].
  cbn [tokens app] in *. destruct (decide (a = NUL)) as [->|_]; [by destruct Ha|].
  destruct (decide (a = PERCENT)).
  - destruct pre' as [|b l]; [done|]. cbn [app].
    apply not_elem_of_cons in Hnul as [Hb Hnul].
    destruct (decide (b = PERCENT)).
    + destruct (tokens l) as [t|] eqn:Hl; [|done]. injection Ht as <-.
      rewrite literals_cons_lit, placeholders_cons_lit in *. cbn [length] in Hj.
      apply (IH l ltac:(simpl; lia) t); [done|done|done|done|done|simpl; lia].
    + destruct (is_arg_digit b) eqn:Hd; [|done].
      destruct (tokens l) as [t|] eqn:Hl; [|done]. injection Ht as <-.
      rewrite literals_cons_arg, placeholders_cons_arg in *. cbn [length] in Hmany.
      unfold indexes_below in Hidx. rewrite placeholders_cons_arg in Hidx.
      apply Forall_cons in Hidx as [Hi Hidx].
      pose proof (is_arg_digit_range _ Hd) as Hr.
      rewrite to_guint8_small by lia. cbv zeta.
      destruct (Z.geb_spec (code b - code "1"%char) n) as [?|_]; [lia|].
      apply (IH l ltac:(simpl; lia) t); [done|done|done|simpl; lia|simpl; lia|done].
  - destruct (tokens pre') as [t|] eqn:Hl; [|done]. injection Ht as <-.
    rewrite literals_cons_lit, placeholders_cons_lit in *. cbn [length] in Hj.
    apply (IH pre' ltac:(simpl; lia) t); [done|done|done|done|done|simpl; lia].
Qed.

(** What the scan stores of a string that starts with a well-formed prefix,
    when it stores nothing of what follows the prefix. *)
Lemma parse_loop_j_app hdr n pre : ∀ tp rest st,
  tokens pre = Some tp → NUL ∉ pre →
  (∀ st0, st_j (exit_state (parse_loop hdr n rest st0)) = st_j st0) →
  st_j (exit_state (parse_loop hdr n (pre ++ rest) st))
  ≤ st_j st + Z.of_nat (length (literals tp)).
Proof.
  induction pre as [pre IH] using shorter_ind. intros tp rest st Ht Hnul Hrest.
  destruct pre as [|a pre'].
  { injection Ht as <-. simpl. rewrite Hrest. lia. }
  rewrite parse_loop_unfold.
  destruct (negb _); [simpl; lia|].
  apply not_elem_of_cons in Hnul as [Ha Hnul].
  cbn [tokens app] in *. destruct (decide (a = NUL)) as [->|_]; [by destruct Ha|].
  destruct (decide (a = PERCENT)).
  - destruct pre' as [|b l]; [done|]. cbn [app].
    apply not_elem_of_cons in Hnul as [Hb Hnul].
    destruct (decide (b = PERCENT)).
    + destruct (tokens l) as [t|] eqn:Hl; [|done]. injection Ht as <-.
      specialize (IH l ltac:(simpl; lia) t rest (put_literal PERCENT st) Hl Hnul Hrest).
      rewrite literals_cons_lit. cbn [put_literal st_j length] in *. lia.
    + destruct (is_arg_digit b) eqn:Hd; [|done].
      destruct (tokens l) as [t|] eqn:Hl; [|done]. injection Ht as <-. cbv zeta.
      destruct (_ >=? _); [simpl; lia|].
      specialize (IH l ltac:(simpl; lia) t rest
                    (next_arg (put_arg (code b - code "1"%char) st)) Hl Hnul Hrest).
      rewrite literals_cons_arg. cbn [next_arg put_arg st_j length] in *. lia.
  - destruct (tokens pre') as [t|] eqn:Hl; [|done]. injection Ht as <-.
    specialize (IH pre' ltac:(simpl; lia) t rest (put_literal a st) Hl Hnul Hrest).
    rewrite literals_cons_lit. cbn [put_literal st_j length] in *. lia.
Qed.

(** At a [%] that no defined escape follows, or that a placeholder for an
    argument the kind does not have follows, the scan ends and stores
    nothing. *)
Lemma parse_loop_stuck hdr n rest st :
  match rest with
  | [] => True
  | c :: _ => c ≠ PERCENT ∧ (is_arg_digit c = false ∨ n ≤ code c - code "1"%char)
  end →
  st_j (exit_state (parse_loop hdr n (PERCENT :: rest) st)) = st_j st.
Proof.
  intros Hrest. rewrite parse_loop_unfold.
  destruct (negb _); [done|].
  rewrite decide_False by done. rewrite decide_True by done.
  destruct rest as [|c post]; [done|]. destruct Hrest as [Hc Hd].
  rewrite decide_False by done.
  destruct (is_arg_digit c) eqn:Hdig; [|done]. cbv zeta.
  destruct Hd as [?|Hn]; [done|].
  pose proof (is_arg_digit_range _ Hdig) as Hr.
  rewrite to_guint8_small by lia.
  by destruct (Z.geb_spec (code c - code "1"%char) n) as [?|?]; [|lia].
Qed.

(** A [%] that ends the string is a malformed escape. *)
Lemma parse_dangling_percent hdr out n w pre tp :
  tokens pre = Some tp → NUL ∉ pre → 0 ≤ w →
  let r := parse_seq_args hdr out (pre ++ [PERCENT]) n w in
  pr_result r = false ∧
  (indexes_below n tp →
   Z.of_nat (length (literals tp)) < hdr_seq_length_max hdr →
   Z.of_nat (length (placeholders tp)) < 8 → pr_error r = None).
Proof.
  intros Htp Hnul Hw r. split.
  - destruct (pr_result r) eqn:Hr; [|done]. exfalso.
    apply parse_seq_args_accepted in Hr as (toks & Ht & _); [|done].
    rewrite (tokens_app pre tp _ Htp Hnul) in Ht. done.
  - intros Hidx Hj Hk. subst r. rewrite parse_seq_args_unfold.
    rewrite (parse_loop_app hdr n pre tp _ _ Htp Hnul Hidx) by (simpl; lia).
    rewrite parse_loop_unfold, loop_cond_true
      by (rewrite ?run_tokens_j, ?run_tokens_k; simpl; lia).
    rewrite decide_False by done. rewrite decide_True by done. done.
Qed.

Lemma tokens_percent c post :
  tokens (PERCENT :: c :: post) =
  if decide (c = PERCENT) then cons (TLit PERCENT) <$> tokens post
  else if is_arg_digit c then cons (TArg (code c - code "1"%char)) <$> tokens post
  else None.
Proof. done. Qed.

Section Escapes.

Variable hdr : Headers.

(** An escape that is neither %% nor %1..%8: the template is rejected, and
    where the scan gets as far as the escape no error is set. *)
Lemma parse_bad_escape out n w pre post tp c :
  tokens pre = Some tp → NUL ∉ pre → 0 ≤ w →
  c ≠ PERCENT → is_arg_digit c = false →
  let r := parse_seq_args hdr out (pre ++ PERCENT :: c :: post) n w in
  pr_result r = false ∧
  (indexes_below n tp → Z.of_nat (length (literals tp)) < (hdr_seq_length_max hdr) →
   Z.of_nat (length (placeholders tp)) < 8 → pr_error r = None).
Proof.
  intros Htp Hnul Hw Hc Hd r. split.
  - destruct (pr_result r) eqn:Hr; [|done]. exfalso.
    apply parse_seq_args_accepted in Hr as (toks & Ht & _); [|done].
    rewrite (tokens_app pre tp _ Htp Hnul), tokens_percent in Ht.
    rewrite decide_False, Hd in Ht by done. done.
  - intros Hidx Hj Hk. subst r. rewrite parse_seq_args_unfold.
    rewrite (parse_loop_app hdr n pre tp _ _ Htp Hnul Hidx) by (simpl; lia).
    rewrite parse_loop_unfold, loop_cond_true
      by (rewrite ?run_tokens_j, ?run_tokens_k; simpl; lia).
    rewrite decide_False by done. rewrite decide_True by done.
    rewrite decide_False, Hd by done. done.
Qed.

(** A placeholder for an argument the kind does not have: the template is
    rejected, and where the scan gets as far as the placeholder the error
    is bad-arguments. *)
Lemma parse_bad_index out n w pre post tp c :
  tokens pre = Some tp → NUL ∉ pre → 0 ≤ w →
  is_arg_digit c = true → n ≤ code c - code "1"%char →
  let r := parse_seq_args hdr out (pre ++ PERCENT :: c :: post) n w in
  pr_result r = false ∧
  (indexes_below n tp → Z.of_nat (length (literals tp)) < (hdr_seq_length_max hdr) →
   Z.of_nat (length (placeholders tp)) < 8 →
   pr_error r = Some CHAFA_TERM_INFO_ERROR_BAD_ARGUMENTS).
Proof.
  intros Htp Hnul Hw Hd Hn r.
  assert (c ≠ PERCENT) as Hc by (intros ->; done).
  pose proof (is_arg_digit_range _ Hd) as Hr07.
  split.
  - destruct (pr_result r) eqn:Hr; [|done]. exfalso.
    apply parse_seq_args_accepted in Hr as (toks & Ht & Hidx & _); [|done].
    rewrite (tokens_app pre tp _ Htp Hnul), tokens_percent in Ht.
    rewrite decide_False, Hd in Ht by done.
    destruct (tokens post) as [tpost|]; [|done]. injection Ht as <-.
    unfold indexes_below in Hidx.
    rewrite placeholders_app, placeholders_cons_arg in Hidx.
    apply Forall_app in Hidx as [_ Hidx]. apply Forall_cons in Hidx as [Hlt _]. lia.
  - intros Hidx Hj Hk. subst r. rewrite parse_seq_args_unfold.
    rewrite (parse_loop_app hdr n pre tp _ _ Htp Hnul Hidx) by (simpl; lia).
    rewrite parse_loop_unfold, loop_cond_true
      by (rewrite ?run_tokens_j, ?run_tokens_k; simpl; lia).
    rewrite decide_False by done. rewrite decide_True by done.
    rewrite decide_False, Hd by done. cbv zeta.
    rewrite to_guint8_small by lia.
    destruct (Z.geb_spec (code c - code "1"%char) n); [done|lia].
Qed.

(** The scan of [chafa_term_info_set_seq] stays inside the local array up to
    a [%] it ends at, when the array holds the literal bytes before it. *)
Lemma compile_stuck_holds stack seq pre rest tp :
  tokens pre = Some tp → NUL ∉ pre →
  match rest with
  | [] => True
  | c :: _ => c ≠ PERCENT ∧
              (is_arg_digit c = false ∨
               def_n_args (hdr_seq_def hdr seq) ≤ code c - code "1"%char)
  end →
  local_holds hdr (Z.of_nat (length (literals tp))) →
  pr_oob (compile_of hdr stack seq (pre ++ PERCENT :: rest)) = false.
Proof.
  intros Htp Hnul Hrest Hholds. unfold compile_of.
  apply (parse_seq_args_stores hdr _ _ _ _ (Z.of_nat (length (literals tp)))).
  - rewrite length_resize. unfold local_holds in Hholds. lia.
  - pose proof (parse_loop_j_app hdr (n_args (seq_meta hdr seq)) pre tp (PERCENT :: rest)
                  (scan_start (resize (Z.to_nat (hdr_seq_max hdr)) NUL stack)) Htp Hnul)
      as Hj.
    cbn [scan_start st_j] in Hj. rewrite Z.add_0_l in Hj. apply Hj.
    intros st0. by apply parse_loop_stuck.
Qed.

(** Eight placeholders in a well-formed prefix: bad-arguments, whatever
    follows. *)
Lemma compile_eighth stack seq pre rest tp :
  tokens pre = Some tp → NUL ∉ pre →
  indexes_below (def_n_args (hdr_seq_def hdr seq)) tp →
  8 ≤ Z.of_nat (length (placeholders tp)) →
  Z.of_nat (length (literals tp)) < hdr_seq_length_max hdr →
  pr_result (compile_of hdr stack seq (pre ++ rest)) = false ∧
  pr_error (compile_of hdr stack seq (pre ++ rest))
  = Some CHAFA_TERM_INFO_ERROR_BAD_ARGUMENTS.
Proof.
  intros Htp Hnul Hidx Hmany Hj. unfold compile_of. rewrite parse_seq_args_unfold.
  destruct (parse_loop_eighth_app hdr (n_args (seq_meta hdr seq)) pre tp rest
              (scan_start (resize (Z.to_nat (hdr_seq_max hdr)) NUL stack)))
    as (st' & -> & Hk); [done|done|done|simpl; lia|simpl; lia|simpl; lia|].
  by rewrite Hk.
Qed.

(** The literal bytes an accepted template leaves in the container: the
    local array of [chafa_term_info_set_seq] held them all. *)
Lemma row_after_set_seq stack h p ti seq str s e h' :
  infos h !! p = Some ti → wf_info hdr ti → Forall (ptr_live h) (unparsed_str ti) →
  read_str str h = Some s →
  chafa_term_info_set_seq hdr stack (Some p) seq (Some str) h = Some ((true, e), h') →
  ∃ toks ti',
    tokens s = Some toks ∧ infos h' !! p = Some ti' ∧
    Z.of_nat (length (literals toks)) ≤ (hdr_seq_max hdr) ∧
    take (length (literals toks)) (seq_str ti' !!! Z.to_nat seq) = literals toks.
Proof.
  intros Hti Hwf Hlive Hstr Hset.
  destruct (set_seq_accepted hdr stack h p ti seq str s e h' Hti Hwf Hlive Hstr Hset)
    as (Hseq & Hrows & Hoob & Hres & -> & ->).
  unfold compile_of in Hres, Hoob |- *. rewrite arg_len_max_width in Hres, Hoob |- *.
  pose proof (arg_width_range (hdr_seq_def hdr seq)) as Hw.
  destruct (parse_seq_args_accepted _ _ _ _ _ Hres ltac:(lia))
    as (toks & Htoks & Hidx & Hk & Htot).
  destruct (parse_seq_args_verdict hdr (resize (Z.to_nat (hdr_seq_max hdr)) NUL stack) s
              (n_args (seq_meta hdr seq)) (arg_width (hdr_seq_def hdr seq))
              toks Htoks Hidx Hk ltac:(lia)) as [_ Hacc].
  cbv zeta in Hacc. rewrite (Hacc Htot) in Hoob |- *. clear Hacc.
  cbn [pr_oob] in Hoob. rewrite run_tokens_oob, length_resize in Hoob.
  apply Z.ltb_ge in Hoob.
  assert (Z.of_nat (length (literals toks)) ≤ hdr_seq_max hdr) as Hfit by lia.
  exists toks. eexists. split; [done|]. split; [apply lookup_insert_eq|].
  split; [done|].
  set (st0 := scan_start (resize (Z.to_nat (hdr_seq_max hdr)) NUL stack)).
  destruct (run_tokens_out toks st0) as [Hol Hot]; [done| |].
  { subst st0. simpl. rewrite length_resize. lia. }
  destruct (wf_info_row_length hdr ti seq Hwf Hseq) as [Hrl Hal].
  destruct Hwf as (Hw1 & Hw2 & Hw3 & Hw4 & Hw5).
  cbn [seq_str pr_out]. unfold set_row.
  rewrite !list_lookup_total_insert_eq by lia.
  rewrite copied_take;
    [| lia |rewrite Hol; subst st0; simpl; rewrite length_resize; lia].
  subst st0. cbn [st_j scan_start] in Hot.
  change (Z.to_nat 0) with 0%nat in Hot. by rewrite Nat.add_0_l in Hot.
Qed.

End Escapes.

(** ** Copies *)

Lemma ptr_live_mono h h' o :
  strs h ⊆ strs h' → ptr_live h o → ptr_live h' o.
Proof.
  intros Hsub. destruct o as [l|]; [|done]. simpl. intros [s Hs].
  exists s. by eapply lookup_weaken.
Qed.

Lemma copy_loop_spec h0 todo : ∀ i nti h,
  strs h0 ⊆ strs h →
  Forall (ptr_live h0) (drop (Z.to_nat i) (unparsed_str nti)) →
  Forall (fresh_live h0 h) (take (Z.to_nat i) (unparsed_str nti)) →
  0 ≤ i → (Z.to_nat i + todo = length (unparsed_str nti))%nat →
  ∃ nti' h',
    copy_loop todo i nti h = Some (nti', h') ∧
    infos h' = infos h ∧ strs h0 ⊆ strs h' ∧
    refs nti' = refs nti ∧ seq_str nti' = seq_str nti ∧
    seq_args nti' = seq_args nti ∧
    length (unparsed_str nti') = length (unparsed_str nti) ∧
    Forall (fresh_live h0 h') (unparsed_str nti').
Proof.
  induction todo as [|todo IH]; intros i nti h Hsub Hlive Hfresh Hi Hlen.
  - exists nti, h. rewrite take_ge in Hfresh by lia. by split_and!.
  - cbn [copy_loop].
    destruct (lookup_lt_is_Some_2 (unparsed_str nti) (Z.to_nat i)) as [o Ho]; [lia|].
    rewrite (list_lookup_total_correct _ _ _ Ho).
    rewrite (drop_S _ _ _ Ho) in Hlive. apply Forall_cons in Hlive as [Hl Hlive].
    destruct o as [l|].
    + destruct Hl as [s Hs]. pose proof (lookup_weaken _ _ _ _ Hs Hsub) as Hs'.
      rewrite Hs'. cbn [mbind option_bind g_strdup].
      set (l' := fresh (dom (strs h))).
      assert (l' ∉ dom (strs h)) as Hl' by apply is_fresh.
      assert (strs h ⊆ <[l' := c_str s]> (strs h)) as Hsub1
        by (apply insert_subseteq; by apply not_elem_of_dom).
      destruct (IH (i + 1) (set_unparsed nti i (Some l'))
                  {| infos := infos h; strs := <[l' := c_str s]> (strs h) |})
        as (nti' & h' & -> & H1 & H2 & H3 & H4 & H5 & H6 & H7).
      * cbn [strs]. by etrans.
      * cbn [set_unparsed unparsed_str].
        replace (Z.to_nat (i + 1)) with (S (Z.to_nat i)) by lia.
        by rewrite drop_insert_lt by lia.
      * cbn [set_unparsed unparsed_str].
        replace (Z.to_nat (i + 1)) with (S (Z.to_nat i)) by lia.
        rewrite (take_S_r _ _ (Some l')) by (apply list_lookup_insert_eq; lia).
        rewrite take_insert_ge by lia. apply Forall_app. split.
        -- eapply Forall_impl; [exact Hfresh|]. intros o Ho' m ->.
           destruct (Ho' m eq_refl) as [? [x Hx]]. split; [done|].
           exists x. cbn [strs]. by eapply lookup_weaken.
        -- constructor; [|constructor]. intros m [= <-]. split.
           ++ intros Hin. apply Hl'. revert Hin. apply subseteq_dom in Hsub. set_solver.
           ++ cbn [strs]. rewrite lookup_insert_eq. by eexists.
      * lia.
      * cbn [set_unparsed unparsed_str]. rewrite length_insert. lia.
      * exists nti', h'. cbn [set_unparsed unparsed_str refs seq_str seq_args infos] in *.
        rewrite length_insert in H6. by split_and!.
    + destruct (IH (i + 1) nti h) as (nti' & h' & -> & H1 & H2 & H3 & H4 & H5 & H6 & H7);
        try done; try lia.
      * by replace (Z.to_nat (i + 1)) with (S (Z.to_nat i)) by lia.
      * replace (Z.to_nat (i + 1)) with (S (Z.to_nat i)) by lia.
        rewrite (take_S_r _ _ None) by done. apply Forall_app. split; [done|].
        constructor; [|constructor]. by intros m.
      * by exists nti', h'.
Qed.

Section Copy.

Variable hdr : Headers.

(** A copy of a live container: a new container with the compiled data of
    the original and with strings of its own. *)
Lemma chafa_term_info_copy_spec h p ti :
  infos h !! p = Some ti → wf_info hdr ti → Forall (ptr_live h) (unparsed_str ti) →
  ∃ q tq h1,
    chafa_term_info_copy hdr (Some p) h = Some (Some q, h1) ∧
    (q ∉ dom (infos h)) ∧ infos h1 = <[q := tq]> (infos h) ∧
    strs h ⊆ strs h1 ∧
    seq_str tq = seq_str ti ∧ seq_args tq = seq_args ti ∧
    length (unparsed_str tq) = length (unparsed_str ti) ∧
    Forall (fresh_live h h1) (unparsed_str tq).
Proof.
  intros Hti Hwf Hlive. unfold chafa_term_info_copy. rewrite Hti.
  cbn [mbind option_bind].
  destruct Hwf as (Hw1 & Hw2 & Hw3 & Hw4 & Hw5).
  destruct (copy_loop_spec h (Z.to_nat (hdr_seq_max hdr)) 0
              {| refs := 1; seq_str := seq_str ti; seq_args := seq_args ti;
                 unparsed_str := unparsed_str ti |} h)
    as (tq & h' & -> & H1 & H2 & H3 & H4 & H5 & H6 & H7);
    [done|done|by constructor|done|cbn [unparsed_str]; lia|].
  cbn [mbind option_bind].
  exists (fresh (dom (infos h))), tq, (set_info (fresh (dom (infos h))) tq h').
  split_and!; try done.
  - apply is_fresh.
  - cbn [set_info infos]. by rewrite H1.
Qed.

End Copy.

(** ** Where the cursor goes, whatever the slots *)

Lemma store_length mem p c mem' : store mem p c = Done mem' → length mem' = length mem.
Proof.
  unfold store. case_bool_decide; [|done]. intros [= <-]. apply length_insert.
Qed.

Lemma store_bytes_overrun bs : ∀ mem p,
  bs ≠ [] → 0 ≤ p → Z.of_nat (length mem) < p + Z.of_nat (length bs) →
  store_bytes mem p bs = Overrun.
Proof.
  induction bs as [|b bs IH]; intros mem p Hne Hp Hlen; [done|].
  cbn [store_bytes]. destruct (store mem p b) as [mem1|] eqn:E; [|done].
  rewrite outcome_bind_Done. apply store_length in E as Hl.
  unfold store in E. case_bool_decide; [|done]. cbn [length] in Hlen.
  destruct bs as [|b' bs]; [simpl in Hlen; lia|].
  apply IH; [done|lia|]. rewrite Hl. cbn [length] in *. lia.
Qed.

(** [copy_bytes] stores the bytes it loads, at least one. *)
Lemma copy_bytes_loop_as_store more : ∀ mem out src in_,
  ∃ bs, length bs = S more ∧
        copy_bytes_loop more mem out src in_ = store_bytes mem out bs.
Proof.
  induction more as [|more IH]; intros mem out src in_.
  - exists [load src in_]. split; [done|]. simpl.
    by destruct (store mem out (load src in_)).
  - cbn [copy_bytes_loop].
    destruct (store mem out (load src in_)) as [mem1|] eqn:E.
    + rewrite outcome_bind_Done.
      destruct (IH mem1 (out + 1) src (in_ + 1)) as (bs & Hl & ->).
      exists (load src in_ :: bs). split; [simpl; lia|].
      cbn [store_bytes]. by rewrite E.
    + exists (replicate (S (S more)) (load src in_)).
      split; [apply length_replicate|]. cbn [replicate store_bytes]. by rewrite E.
Qed.

Lemma copy_bytes_fits mem out src in_ n :
  0 ≤ out → 0 ≤ n → out + Z.max 1 n ≤ Z.of_nat (length mem) →
  ∃ mem', copy_bytes mem out src in_ n = Done mem' ∧ length mem' = length mem.
Proof.
  intros Hout Hn Hroom. unfold copy_bytes.
  destruct (copy_bytes_loop_as_store (Z.to_nat (n - 1)) mem out src in_)
    as (bs & Hl & ->).
  destruct (store_bytes_lookup bs mem out) as (mem' & -> & Hl' & _); [lia|lia|].
  by exists mem'.
Qed.

Lemma copy_bytes_overrun mem out src in_ n :
  0 ≤ out → 0 ≤ n → Z.of_nat (length mem) < out + Z.max 1 n →
  copy_bytes mem out src in_ n = Overrun.
Proof.
  intros Hout Hn Hroom. unfold copy_bytes.
  destruct (copy_bytes_loop_as_store (Z.to_nat (n - 1)) mem out src in_)
    as (bs & Hl & ->).
  apply store_bytes_overrun; [by destruct bs|lia..].
Qed.

Section Cursor.

Variable past : Z.

Lemma format_fits mem out v :
  0 ≤ out → out + Z.of_nat (length (dec_digits v)) ≤ Z.of_nat (length mem) →
  ∃ mem', chafa_format_dec_uint_0_to_9999 mem out v
          = Done (mem', out + Z.of_nat (length (dec_digits v))) ∧
          length mem' = length mem.
Proof.
  intros Hout Hroom. unfold chafa_format_dec_uint_0_to_9999.
  destruct (store_bytes_lookup (dec_digits v) mem out) as (mem' & -> & Hl & _);
    [lia|lia|].
  by exists mem'.
Qed.

Lemma format_overrun mem out v :
  0 ≤ out → Z.of_nat (length mem) < out + Z.of_nat (length (dec_digits v)) →
  chafa_format_dec_uint_0_to_9999 mem out v = Overrun.
Proof.
  intros Hout Hroom. unfold chafa_format_dec_uint_0_to_9999.
  pose proof (dec_digits_length v).
  rewrite store_bytes_overrun; [done| |done..].
  by destruct (dec_digits v); [simpl in *; lia|].
Qed.

Lemma loop_advance_nonneg todo slots args : ∀ i,
  (∀ k, 0 ≤ pre_len (slots !!! k)) → 0 ≤ loop_advance past todo slots args i.
Proof.
  induction todo as [|todo IH]; intros i Hpre; [done|]. cbn [loop_advance].
  specialize (IH (i + 1) Hpre). specialize (Hpre (Z.to_nat i)). lia.
Qed.

(** With room for it the loop moves the cursor by [loop_advance]. *)
Lemma emit_seq_loop_fits todo row slots args : ∀ mem out ofs i,
  (∀ k, 0 ≤ pre_len (slots !!! k)) → 0 ≤ out →
  out + loop_advance past todo slots args i ≤ Z.of_nat (length mem) →
  ∃ mem' ofs',
    emit_seq_loop past todo row slots args mem out ofs i
    = Done (mem', out + loop_advance past todo slots args i, ofs',
            i + Z.of_nat todo) ∧
    length mem' = length mem.
Proof.
  induction todo as [|todo IH]; intros mem out ofs i Hpre Hout Hroom.
  - exists mem, ofs. simpl. by rewrite !Z.add_0_r.
  - cbn [emit_seq_loop loop_advance] in *.
    set (a := slots !!! Z.to_nat i) in *.
    pose proof (Hpre (Z.to_nat i)) as Hn. fold a in Hn.
    pose proof (dec_digits_length (nth_arg past args (arg_index a))) as Hd.
    pose proof (loop_advance_nonneg todo slots args (i + 1) Hpre) as Hrest.
    destruct (copy_bytes_fits mem out row ofs (pre_len a)) as (mem1 & -> & Hl1);
      [lia..|].
    rewrite outcome_bind_Done.
    destruct (format_fits mem1 (out + pre_len a) (nth_arg past args (arg_index a)))
      as (mem2 & -> & Hl2); [lia..|].
    rewrite outcome_bind_Done.
    destruct (IH mem2 (out + pre_len a
                       + Z.of_nat (length (dec_digits (nth_arg past args (arg_index a)))))
                (ofs + pre_len a) (i + 1)) as (mem' & ofs' & -> & Hl');
      [done|lia|lia|].
    exists mem', ofs'. split; [|congruence].
    replace (i + Z.of_nat (S todo)) with (i + 1 + Z.of_nat todo) by lia.
    by rewrite !Z.add_assoc.
Qed.

(** Without room for it the loop stores outside the buffer. *)
Lemma emit_seq_loop_overrun todo row slots args : ∀ mem out ofs i,
  (∀ k, 0 ≤ pre_len (slots !!! k)) → 0 ≤ out ≤ Z.of_nat (length mem) →
  Z.of_nat (length mem) < out + loop_advance past todo slots args i →
  emit_seq_loop past todo row slots args mem out ofs i = Overrun.
Proof.
  induction todo as [|todo IH]; intros mem out ofs i Hpre Hout Hroom.
  - simpl in Hroom. lia.
  - cbn [emit_seq_loop loop_advance] in *.
    set (a := slots !!! Z.to_nat i) in *.
    pose proof (Hpre (Z.to_nat i)) as Hn. fold a in Hn.
    pose proof (dec_digits_length (nth_arg past args (arg_index a))) as Hd.
    destruct (decide (out + Z.max 1 (pre_len a) ≤ Z.of_nat (length mem))) as [Hfit|Hfit].
    + destruct (copy_bytes_fits mem out row ofs (pre_len a)) as (mem1 & -> & Hl1);
        [lia..|].
      rewrite outcome_bind_Done.
      destruct (decide (out + pre_len a
                        + Z.of_nat (length (dec_digits (nth_arg past args (arg_index a))))
                        ≤ Z.of_nat (length mem))) as [Hfit2|Hfit2].
      * destruct (format_fits mem1 (out + pre_len a)
                    (nth_arg past args (arg_index a))) as (mem2 & -> & Hl2); [lia..|].
        rewrite outcome_bind_Done. apply IH; [done|lia|lia].
      * by rewrite format_overrun by lia.
    + by rewrite copy_bytes_overrun by lia.
Qed.

End Cursor.

Section Absent.

Variable hdr : Headers.
Variable past : Z.

(** Emission of a kind whose first slot is the bare sentinel: the routines
    with arguments return at once, the one without arguments lets
    [copy_bytes] store its one byte. *)
Lemma emit_absent ti seq mem out args :
  (seq_args ti !!! Z.to_nat seq) !! 0%nat = Some (sentinel 0) →
  load (seq_str ti !!! Z.to_nat seq) 0 = NUL →
  0 ≤ out < Z.of_nat (length mem) →
  chafa_term_info_emit hdr past ti (mem, out) seq args =
  Done (if decide (def_n_args (hdr_seq_def hdr seq) = 0)
        then <[Z.to_nat out := NUL]> mem else mem, out).
Proof.
  intros Hslot Hrow Hout. unfold chafa_term_info_emit.
  destruct (hdr_seq_def hdr seq); cbn [def_n_args];
    [rewrite decide_True by done|rewrite decide_False by done..];
    unfold emit_0_none_void, emit_1_none_guint, emit_1_none_guint8,
      emit_1_aix16fg_guint8, emit_1_aix16bg_guint8, emit_2_none_guint,
      emit_2_none_guint8, emit_2_aix16fgbg_guint8, emit_3_none_guint,
      emit_3_none_guint8, emit_6_none_guint8, emit_seq_1_args_uint,
      emit_seq_1_args_uint8, emit_seq_2_args_uint, emit_seq_2_args_uint8,
      emit_seq_3_args_uint, emit_seq_3_args_uint8, emit_seq_6_args_uint8,
      emit_seq_guint, emit_seq_guint8, EMIT_SEQ_DEF, emit_seq_0_args_uint;
    rewrite (list_lookup_total_correct _ _ _ Hslot); cbn [sentinel arg_index pre_len];
    try reflexivity.
  rewrite copy_bytes_none by done. rewrite Hrow, store_Done by done.
  rewrite outcome_bind_Done. by rewrite Z.add_0_r.
Qed.

End Absent.

Lemma load_first_NUL row : load (<[0%nat := NUL]> row) 0 = NUL.
Proof. by destruct row. Qed.

Lemma have_seq_in_range hdr h p ti seq :
  infos h !! p = Some ti → 0 ≤ seq < hdr_seq_max hdr →
  chafa_term_info_have_seq hdr (Some p) seq h
  = Some (match unparsed_str ti !!! Z.to_nat seq with
          | Some _ => true
          | None => false
          end, h).
Proof.
  intros Hti Hseq. unfold chafa_term_info_have_seq. rewrite Hti. simpl.
  destruct (Z.leb_spec 0 seq); [|lia].
  by destruct (Z.ltb_spec seq (hdr_seq_max hdr)); [|lia].
Qed.

Lemma get_seq_in_range hdr h p ti seq :
  infos h !! p = Some ti → 0 ≤ seq < hdr_seq_max hdr →
  chafa_term_info_get_seq hdr (Some p) seq h
  = Some (unparsed_str ti !!! Z.to_nat seq, h).
Proof.
  intros Hti Hseq. unfold chafa_term_info_get_seq. rewrite Hti. simpl.
  destruct (Z.leb_spec 0 seq); [|lia].
  by destruct (Z.ltb_spec seq (hdr_seq_max hdr)); [|lia].
Qed.

Section Frame.

Variable hdr : Headers.

Lemma strs_after_free_other o (m : gmap loc (list gchar)) l :
  o ≠ Some l → strs_after_free o m !! l = m !! l.
Proof.
  destruct o as [l0|]; [|done]. intros Hne. simpl.
  apply lookup_delete_ne. congruence.
Qed.

Lemma snapshot_frame h h' b tb :
  infos h !! b = Some tb → infos h' !! b = Some tb →
  Forall (λ o, ∀ l, o = Some l → strs h' !! l = strs h !! l) (unparsed_str tb) →
  snapshot h' b = snapshot h b.
Proof.
  intros Hb Hb' Hsame. unfold snapshot. rewrite Hb, Hb'. simpl. do 2 f_equal.
  apply Forall_fmap_ext_1. eapply Forall_impl; [exact Hsame|].
  intros [l|] Hl; [|done]. simpl. by apply Hl.
Qed.

(** [chafa_term_info_set_seq] on one container leaves another one as it
    is, when the string it frees is not one of the other's. *)
Lemma set_seq_frame stack h a b ta tb seq str r e h' :
  infos h !! a = Some ta → infos h !! b = Some tb → a ≠ b → wf_info hdr ta →
  Forall (ptr_live h) (unparsed_str ta) → Forall (ptr_live h) (unparsed_str tb) →
  (unparsed_str ta !!! Z.to_nat seq = None ∨
   unparsed_str ta !!! Z.to_nat seq ∉ unparsed_str tb) →
  chafa_term_info_set_seq hdr stack (Some a) seq str h = Some ((r, e), h') →
  snapshot h' b = snapshot h b.
Proof.
  intros Ha Hb Hab Hwa Hla Hlb Hold Hset.
  assert (∀ m, Forall (λ o, ∀ l, o = Some l →
            strs_after_free (unparsed_str ta !!! Z.to_nat seq) m !! l = m !! l)
            (unparsed_str tb)) as Hfree.
  { intros m. apply Forall_forall. intros o Ho l ->.
    apply strs_after_free_other. destruct Hold as [->|Hold]; [done|].
    intros E. apply Hold. by rewrite E. }
  destruct (decide (0 ≤ seq < hdr_seq_max hdr)) as [Hseq|Hseq].
  - destruct str as [g|].
    + apply (set_seq_string hdr stack h a ta seq) in Hset as (s & _ & _ & _ & Hset);
        [|done..].
      destruct (pr_result _); injection Hset as <- <- <-; [|done].
      apply (snapshot_frame _ _ _ tb Hb).
      * cbn [infos]. by rewrite lookup_insert_ne.
      * cbn [strs]. apply Forall_forall. intros o Ho l ->.
        rewrite Forall_forall in Hlb. destruct (Hlb _ Ho) as [x Hx].
        specialize (Hfree (strs h)). rewrite Forall_forall in Hfree.
        pose proof (Hfree _ Ho l eq_refl) as Hl.
        rewrite lookup_insert_ne; [done|].
        intros E.
        pose proof (is_fresh (dom (strs_after_free (unparsed_str ta !!! Z.to_nat seq)
                                     (strs h)))) as Hfr.
        rewrite E in Hfr. apply Hfr, elem_of_dom. rewrite Hl. by eexists.
    + rewrite (set_seq_clear hdr stack h a ta seq Ha Hla Hseq) in Hset.
      cbv zeta in Hset. injection Hset as <- <- <-.
      apply (snapshot_frame _ _ _ tb Hb).
      * cbn [infos]. by rewrite lookup_insert_ne.
      * cbn [strs]. apply Hfree.
  - unfold chafa_term_info_set_seq in Hset. rewrite Ha in Hset. simpl in Hset.
    destruct (Z.leb_spec 0 seq); destruct (Z.ltb_spec seq (hdr_seq_max hdr));
      simpl in Hset; try lia; by injection Hset as <- <- <-.
Qed.

End Frame.

(** ** The heaps reached through the functions of this file *)

Lemma heap_ok_empty hdr : heap_ok hdr empty_heap.
Proof.
  split.
  - intros p [ti Hti]. done.
  - intros p1 i1 p2 i2 l (ti & Hti & _). done.
Qed.

Lemma owns_live hdr h p i l : heap_ok hdr h → owns h p i l → is_Some (strs h !! l).
Proof.
  intros [Hok _] (ti & Hti & Hi).
  destruct (term_info_ok_inv hdr h p (Hok p ltac:(by eexists)))
    as (ti' & Hti' & _ & Hlive).
  assert (ti' = ti) as -> by congruence.
  exact (Forall_lookup_1 _ _ _ _ Hlive Hi).
Qed.

(** One raw template of one container is replaced, the strings of all the
    others stay, and the new string is no one else's. *)
Lemma heap_ok_update hdr h p ti ti' (k : nat) (o' : option loc) strs' :
  heap_ok hdr h → infos h !! p = Some ti →
  wf_info hdr ti' → unparsed_str ti' = <[k := o']> (unparsed_str ti) →
  (k < length (unparsed_str ti))%nat →
  (∀ m, unparsed_str ti !! k ≠ Some (Some m) →
        is_Some (strs h !! m) → is_Some (strs' !! m)) →
  (∀ l, o' = Some l →
        is_Some (strs' !! l) ∧ ∀ p' i, owns h p' i l → p' = p ∧ i = k) →
  heap_ok hdr {| infos := <[p := ti']> (infos h); strs := strs' |}.
Proof.
  intros Hh Hti Hwf Hup Hk Hkeep Hnew. pose proof Hh as [Hok Huniq].
  set (h' := {| infos := <[p := ti']> (infos h); strs := strs' |}).
  assert (∀ p1 i1 m, owns h' p1 i1 m →
            (p1 = p ∧ i1 = k ∧ o' = Some m) ∨
            (¬ (p1 = p ∧ i1 = k) ∧ owns h p1 i1 m)) as Hcases.
  { intros p1 i1 m (t & Ht & Hi). cbn [h' infos] in Ht.
    destruct (decide (p1 = p)) as [->|Hne].
    - rewrite lookup_insert_eq in Ht. injection Ht as <-. rewrite Hup in Hi.
      destruct (decide (i1 = k)) as [->|Hik].
      + rewrite list_lookup_insert_eq in Hi by done. injection Hi as ->. by left.
      + rewrite list_lookup_insert_ne in Hi by done. right.
        split; [by intros [_ ?]|]. by exists ti.
    - rewrite lookup_insert_ne in Ht by done. right.
      split; [by intros [? _]|]. by exists t. }
  assert (∀ p1 i1 m, ¬ (p1 = p ∧ i1 = k) → owns h p1 i1 m →
            is_Some (strs' !! m)) as Hstay.
  { intros p1 i1 m Hne Ho. apply Hkeep; [|by eapply owns_live].
    intros Hk'. apply Hne. apply (Huniq p1 i1 p k m Ho). by exists ti. }
  split.
  - intros p1 [t Ht]. unfold term_info_ok. rewrite Ht. cbn [h' infos] in Ht.
    destruct (decide (p1 = p)) as [->|Hne].
    + rewrite lookup_insert_eq in Ht. injection Ht as <-. split; [done|].
      rewrite Hup. apply Forall_lookup. intros i [m|] Hi; [|done]. cbn [ptr_live h' strs].
      destruct (decide (i = k)) as [->|Hik].
      * rewrite list_lookup_insert_eq in Hi by done. injection Hi as Ho.
        by destruct (Hnew m Ho).
      * rewrite list_lookup_insert_ne in Hi by done.
        apply (Hstay p i m); [by intros [_ ?]|by exists ti].
    + rewrite lookup_insert_ne in Ht by done.
      destruct (term_info_ok_inv hdr h p1 (Hok p1 ltac:(by eexists)))
        as (t' & Ht' & Hwf' & Hlive').
      assert (t' = t) as -> by congruence. split; [done|].
      apply Forall_lookup. intros i [m|] Hi; [|done]. cbn [ptr_live h' strs].
      apply (Hstay p1 i m); [by intros [? _]|by exists t].
  - intros p1 i1 p2 i2 m H1 H2.
    destruct (Hcases _ _ _ H1) as [(-> & -> & Ho1)|[Hn1 Ho1]];
      destruct (Hcases _ _ _ H2) as [(-> & -> & Ho2)|[Hn2 Ho2]].
    + done.
    + destruct (Hnew m Ho1) as [_ Hm]. by destruct (Hn2 (Hm _ _ Ho2)).
    + destruct (Hnew m Ho2) as [_ Hm]. by destruct (Hn1 (Hm _ _ Ho1)).
    + by apply (Huniq _ _ _ _ m).
Qed.

Section Reachable.

Variable hdr : Headers.

Lemma chafa_term_info_new_wf h :
  ∃ ti, infos (chafa_term_info_new hdr h).2 !! (chafa_term_info_new hdr h).1
        = Some ti ∧
        wf_info hdr ti ∧ Forall (λ o, o = None) (unparsed_str ti).
Proof.
  unfold chafa_term_info_new. cbn [fst snd set_info infos].
  eexists. split; [apply lookup_insert_eq|]. split.
  - unfold wf_info. cbn [seq_str seq_args unparsed_str].
    rewrite !length_replicate. split_and!; try done.
    + apply Forall_replicate. by rewrite length_replicate.
    + apply Forall_replicate. by rewrite length_insert, length_replicate.
  - cbn [unparsed_str]. by apply Forall_replicate.
Qed.

(** A new container joins the heap. *)
Lemma heap_ok_new h :
  heap_ok hdr h →
  heap_ok hdr (chafa_term_info_new hdr h).2 ∧
  term_info_ok hdr (chafa_term_info_new hdr h).2 (chafa_term_info_new hdr h).1.
Proof.
  intros Hh. pose proof Hh as [Hok Huniq].
  destruct (chafa_term_info_new_wf h) as (nt & Hnt & Hwf & Hnone).
  set (p := (chafa_term_info_new hdr h).1) in *.
  set (h' := (chafa_term_info_new hdr h).2) in *.
  assert (infos h !! p = None) as Hp.
  { apply not_elem_of_dom. apply is_fresh. }
  assert (∀ p1, p1 ≠ p → infos h' !! p1 = infos h !! p1) as Hother.
  { intros p1 Hne. unfold h', chafa_term_info_new. cbn [snd set_info infos].
    by apply lookup_insert_ne. }
  assert (strs h' = strs h) as Hstrs by done.
  assert (∀ p1 i m, owns h' p1 i m → owns h p1 i m) as Hold.
  { intros p1 i m (t & Ht & Hi). destruct (decide (p1 = p)) as [->|Hne].
    - assert (t = nt) as -> by congruence.
      by pose proof (Forall_lookup_1 _ _ _ _ Hnone Hi).
    - rewrite Hother in Ht by done. by exists t. }
  assert (term_info_ok hdr h' p) as Hnew.
  { unfold term_info_ok. rewrite Hnt. split; [done|].
    eapply Forall_impl; [exact Hnone|]. by intros o ->. }
  split; [|done]. split.
  - intros p1 [t Ht]. destruct (decide (p1 = p)) as [->|Hne]; [done|].
    rewrite Hother in Ht by done.
    destruct (term_info_ok_inv hdr h p1 (Hok p1 ltac:(by eexists)))
      as (t' & Ht' & Hwf' & Hlive').
    unfold term_info_ok. rewrite Hother, Ht' by done. split; [done|].
    eapply Forall_impl; [exact Hlive'|]. intros [m|] Hm; [exact Hm|done].
  - intros p1 i1 p2 i2 m H1 H2. eapply Huniq; by apply Hold.
Qed.

(** Setting or clearing a kind keeps the heap as it should be, whatever the
    call returns. *)
Lemma heap_ok_set_seq stack h p seq str r h' :
  heap_ok hdr h → is_Some (infos h !! p) →
  chafa_term_info_set_seq hdr stack (Some p) seq str h = Some (r, h') →
  heap_ok hdr h'.
Proof.
  intros Hh Hp Hset. pose proof Hh as [Hok Huniq].
  destruct (term_info_ok_inv hdr h p (Hok p Hp)) as (ti & Hti & Hwf & Hlive).
  destruct (decide (0 ≤ seq < hdr_seq_max hdr)) as [Hseq|Hseq].
  2:{ unfold chafa_term_info_set_seq in Hset. rewrite Hti in Hset. simpl in Hset.
      destruct (Z.leb_spec 0 seq); destruct (Z.ltb_spec seq (hdr_seq_max hdr));
        simpl in Hset; try lia; by injection Hset as <- <-. }
  destruct (wf_info_row_length hdr ti seq Hwf Hseq) as [Hrl Hal].
  pose proof Hwf as (Hw1 & Hw2 & Hw3 & Hw4 & Hw5).
  destruct (lookup_lt_is_Some_2 (unparsed_str ti) (Z.to_nat seq)) as [old Hold];
    [lia|].
  pose proof (list_lookup_total_correct _ _ _ Hold) as Hold'.
  assert (∀ m, unparsed_str ti !! Z.to_nat seq ≠ Some (Some m) →
               is_Some (strs h !! m) →
               is_Some (strs_after_free old (strs h) !! m)) as Hkeep.
  { intros m Hne Hm. rewrite strs_after_free_other; [done|]. congruence. }
  destruct str as [g|].
  - apply (set_seq_string hdr stack h p ti seq) in Hset as (s & _ & _ & Hrows & Hset);
      [|done..].
    rewrite Hold' in Hset.
    destruct (pr_result _); injection Hset as <- <-; [|done].
    specialize (Hrows eq_refl).
    set (l := fresh (dom (strs_after_free old (strs h)))).
    destruct (parse_seq_args_lengths hdr
                (resize (Z.to_nat (hdr_seq_max hdr)) NUL stack) s
                (n_args (seq_meta hdr seq))
                (if type_size (seq_meta hdr seq) =? 1 then 3 else 4)) as [Hlo Hla].
    rewrite length_resize in Hlo.
    eapply (heap_ok_update hdr h p ti _ (Z.to_nat seq) (Some l)); try done.
    + unfold wf_info, set_row. cbn [seq_str seq_args unparsed_str].
      rewrite !length_insert. split_and!; try done.
      * apply Forall_insert; [done|].
        rewrite copied_length; [done| |]; unfold compile_of; lia.
      * apply Forall_insert; [done|].
        rewrite copied_length; [done| |]; unfold compile_of; lia.
    + lia.
    + intros m Hne Hm. destruct (decide (m = l)) as [->|Hml].
      * rewrite lookup_insert_eq. by eexists.
      * rewrite lookup_insert_ne by done. by apply Hkeep.
    + intros m [= <-]. split; [rewrite lookup_insert_eq; by eexists|].
      intros p' i Ho. apply (Huniq p' i p (Z.to_nat seq) l Ho).
      exists ti. split; [done|]. rewrite Hold. f_equal.
      destruct (decide (old = Some l)) as [|Hne]; [done|exfalso].
      apply (is_fresh (dom (strs_after_free old (strs h)))). fold l.
      apply elem_of_dom. rewrite strs_after_free_other by done.
      by eapply owns_live.
  - rewrite (set_seq_clear hdr stack h p ti seq Hti Hlive Hseq) in Hset.
    cbv zeta in Hset. rewrite Hold' in Hset. injection Hset as <- <-.
    eapply (heap_ok_update hdr h p ti _ (Z.to_nat seq) None); try done.
    + unfold wf_info, set_row. cbn [seq_str seq_args unparsed_str].
      rewrite !length_insert. split_and!; try done.
      * apply Forall_insert; [done|]. by rewrite length_insert.
      * apply Forall_insert; [done|]. by rewrite length_insert.
    + lia.
Qed.

End Reachable.

(** The strings the loop of [chafa_term_info_copy] has made so far are
    live and differ from each other; so they do when it is done. *)
Lemma copy_loop_distinct todo : ∀ i nti h nti' h',
  copy_loop todo i nti h = Some (nti', h') →
  0 ≤ i → (Z.to_nat i + todo = length (unparsed_str nti))%nat →
  (∀ i1 l, (i1 < Z.to_nat i)%nat → unparsed_str nti !! i1 = Some (Some l) →
           is_Some (strs h !! l)) →
  (∀ i1 i2 l, (i1 < Z.to_nat i)%nat → (i2 < Z.to_nat i)%nat →
     unparsed_str nti !! i1 = Some (Some l) →
     unparsed_str nti !! i2 = Some (Some l) → i1 = i2) →
  ∀ i1 i2 l, unparsed_str nti' !! i1 = Some (Some l) →
             unparsed_str nti' !! i2 = Some (Some l) → i1 = i2.
Proof.
  induction todo as [|todo IH]; intros i nti h nti' h' Hc Hi Hlen Hlive Hdist.
  - injection Hc as <- <-. intros i1 i2 l H1 H2.
    apply (Hdist i1 i2 l); [| |done|done].
    + apply lookup_lt_Some in H1. lia.
    + apply lookup_lt_Some in H2. lia.
  - cbn [copy_loop] in Hc.
    destruct (unparsed_str nti !!! Z.to_nat i) as [l0|] eqn:E.
    + destruct (strs h !! l0) as [s|] eqn:Hs; [|done].
      cbn [mbind option_bind g_strdup] in Hc.
      set (l' := fresh (dom (strs h))) in Hc.
      assert (strs h !! l' = None) as Hl'
        by (apply not_elem_of_dom, is_fresh).
      apply (IH _ _ _ _ _ Hc); [lia| | |].
      * cbn [set_unparsed unparsed_str]. rewrite length_insert. lia.
      * cbn [set_unparsed unparsed_str strs]. intros i1 l Hi1 H1.
        destruct (decide (i1 = Z.to_nat i)) as [->|Hne].
        -- rewrite list_lookup_insert_eq in H1 by lia. injection H1 as <-.
           rewrite lookup_insert_eq. by eexists.
        -- rewrite list_lookup_insert_ne in H1 by done.
           destruct (Hlive i1 l ltac:(lia) H1) as [x Hx].
           exists x. rewrite lookup_insert_ne; [done|]. congruence.
      * cbn [set_unparsed unparsed_str]. intros i1 i2 l Hi1 Hi2 H1 H2.
        destruct (decide (i1 = Z.to_nat i)) as [->|Hn1];
          destruct (decide (i2 = Z.to_nat i)) as [->|Hn2]; [done| | |].
        -- rewrite list_lookup_insert_eq in H1 by lia. injection H1 as <-.
           rewrite list_lookup_insert_ne in H2 by done.
           destruct (Hlive i2 l' ltac:(lia) H2) as [x Hx]. congruence.
        -- rewrite list_lookup_insert_eq in H2 by lia. injection H2 as <-.
           rewrite list_lookup_insert_ne in H1 by done.
           destruct (Hlive i1 l' ltac:(lia) H1) as [x Hx]. congruence.
        -- rewrite list_lookup_insert_ne in H1, H2 by done.
           apply (Hdist i1 i2 l); [lia|lia|done|done].
    + assert (unparsed_str nti !! Z.to_nat i = Some None) as Hnone.
      { destruct (lookup_lt_is_Some_2 (unparsed_str nti) (Z.to_nat i)) as [o Ho];
          [lia|]. rewrite (list_lookup_total_correct _ _ _ Ho) in E. by rewrite Ho, E. }
      apply (IH _ _ _ _ _ Hc); [lia|lia| |].
      * intros i1 l Hi1 H1. apply (Hlive i1 l); [|done].
        destruct (decide (i1 = Z.to_nat i)) as [->|]; [congruence|lia].
      * intros i1 i2 l Hi1 Hi2 H1 H2. apply (Hdist i1 i2 l); [| |done|done].
        -- destruct (decide (i1 = Z.to_nat i)) as [->|]; [congruence|lia].
        -- destruct (decide (i2 = Z.to_nat i)) as [->|]; [congruence|lia].
Qed.

Section ReachableCopy.

Variable hdr : Headers.

(** A copy joins the heap with strings of its own. *)
Lemma heap_ok_copy h p :
  heap_ok hdr h → is_Some (infos h !! p) →
  ∃ q h1,
    chafa_term_info_copy hdr (Some p) h = Some (Some q, h1) ∧
    heap_ok hdr h1 ∧ term_info_ok hdr h1 q.
Proof.
  intros Hh Hp. pose proof Hh as [Hok Huniq].
  destruct (term_info_ok_inv hdr h p (Hok p Hp)) as (ti & Hti & Hwf & Hlive).
  destruct (chafa_term_info_copy_spec hdr h p ti Hti Hwf Hlive)
    as (q & tq & h1 & Hcopy & Hq & Hinfos & Hsub & Hs1 & Hs2 & Hlen & Hfresh).
  exists q, h1. split; [done|].
  assert (∀ i1 i2 l, unparsed_str tq !! i1 = Some (Some l) →
                     unparsed_str tq !! i2 = Some (Some l) → i1 = i2) as Hdist.
  { pose proof Hcopy as Hc. unfold chafa_term_info_copy in Hc. rewrite Hti in Hc.
    cbn [mbind option_bind] in Hc.
    destruct (copy_loop _ _ _ _) as [[nt h']|] eqn:Hloop; [|done].
    cbn [mbind option_bind] in Hc. injection Hc as Hq' Hh1.
    assert (tq = nt) as ->.
    { assert (infos h1 !! q = Some tq) as H1 by (by rewrite Hinfos, lookup_insert_eq).
      rewrite <- Hh1, <- Hq' in H1. cbn [set_info infos] in H1.
      rewrite lookup_insert_eq in H1. congruence. }
    apply (copy_loop_distinct _ _ _ _ _ _ Hloop); [done| | |].
    - cbn [unparsed_str]. destruct Hwf as (_ & _ & _ & _ & ->). lia.
    - intros i1 l Hi1. simpl in Hi1. lia.
    - intros i1 i2 l Hi1. simpl in Hi1. lia. }
  assert (infos h !! q = None) as Hqn by (by apply not_elem_of_dom).
  assert (term_info_ok hdr h1 q) as Hokq.
  { unfold term_info_ok. rewrite Hinfos, lookup_insert_eq. split.
    - destruct Hwf as (Hw1 & Hw2 & Hw3 & Hw4 & Hw5).
      unfold wf_info. rewrite Hs1, Hs2, Hlen. done.
    - eapply Forall_impl; [exact Hfresh|]. intros [l|] Hl; [|done]. simpl.
      by destruct (Hl l eq_refl). }
  assert (∀ p1 i m, owns h1 p1 i m →
            (p1 = q ∧ unparsed_str tq !! i = Some (Some m)) ∨
            (p1 ≠ q ∧ owns h p1 i m)) as Hcases.
  { intros p1 i m (t & Ht & Hi). rewrite Hinfos in Ht.
    destruct (decide (p1 = q)) as [->|Hne].
    - rewrite lookup_insert_eq in Ht. injection Ht as <-. by left.
    - rewrite lookup_insert_ne in Ht by done. right. split; [done|]. by exists t. }
  assert (∀ i m, unparsed_str tq !! i = Some (Some m) → strs h !! m = None) as Hnew.
  { intros i m Hi. apply not_elem_of_dom.
    by destruct (Forall_lookup_1 _ _ _ _ Hfresh Hi m eq_refl). }
  split; [|done]. split.
  - intros p1 [t Ht]. destruct (decide (p1 = q)) as [->|Hne]; [done|].
    rewrite Hinfos, lookup_insert_ne in Ht by done.
    destruct (term_info_ok_inv hdr h p1 (Hok p1 ltac:(by eexists)))
      as (t' & Ht' & Hwf' & Hlive').
    unfold term_info_ok. rewrite Hinfos, lookup_insert_ne, Ht' by done.
    split; [done|]. eapply Forall_impl; [exact Hlive'|].
    intros o. by apply ptr_live_mono.
  - intros p1 i1 p2 i2 m H1 H2.
    destruct (Hcases _ _ _ H1) as [[-> Ho1]|[Hn1 Ho1]];
      destruct (Hcases _ _ _ H2) as [[-> Ho2]|[Hn2 Ho2]].
    + split; [done|]. by apply (Hdist i1 i2 m).
    + destruct (owns_live hdr h _ _ _ Hh Ho2) as [x Hx].
      rewrite (Hnew _ _ Ho1) in Hx. done.
    + destruct (owns_live hdr h _ _ _ Hh Ho1) as [x Hx].
      rewrite (Hnew _ _ Ho2) in Hx. done.
    + by apply (Huniq _ _ _ _ m).
Qed.

End ReachableCopy.

(** ** Reference counts *)

Lemma to_gint_small z : -2147483648 ≤ z < 2147483648 → to_gint z = z.
Proof. intros. unfold to_gint. rewrite Z.mod_small by lia. lia. Qed.

Lemma set_refs_id ti r : r = refs ti → set_refs ti r = ti.
Proof. intros ->. by destruct ti. Qed.

Lemma set_refs_set_refs ti r r' : set_refs (set_refs ti r) r' = set_refs ti r'.
Proof. done. Qed.

Lemma heap_eta h : {| infos := infos h; strs := strs h |} = h.
Proof. by destruct h. Qed.

Lemma set_info_twice p ti ti' h :
  infos h !! p = Some ti → set_info p ti (set_info p ti' h) = h.
Proof.
  intros Hti. unfold set_info. cbn [infos strs].
  rewrite insert_insert_eq, insert_id by done. apply heap_eta.
Qed.

Lemma free_loop_none todo : ∀ i ti h,
  Forall (λ o, o = None) (unparsed_str ti) → free_loop todo i ti h = Some h.
Proof.
  induction todo as [|todo IH]; intros i ti h Hnone; [done|]. cbn [free_loop].
  assert (unparsed_str ti !!! Z.to_nat i = None) as ->.
  { destruct (unparsed_str ti !! Z.to_nat i) as [o|] eqn:E.
    - rewrite (list_lookup_total_correct _ _ _ E).
      exact (Forall_lookup_1 _ _ _ _ Hnone E).
    - by rewrite list_lookup_total_alt, E. }
  cbn [g_free mbind option_bind]. by apply IH.
Qed.

(** What the loop of [chafa_term_info_unref] leaves of the strings, when
    the raw templates from kind [i] on are live and differ from each
    other. *)
Lemma free_loop_spec ti todo : ∀ i h,
  0 ≤ i → (Z.to_nat i + todo = length (unparsed_str ti))%nat →
  (∀ j l, (Z.to_nat i ≤ j)%nat → unparsed_str ti !! j = Some (Some l) →
          is_Some (strs h !! l)) →
  (∀ j1 j2 l, unparsed_str ti !! j1 = Some (Some l) →
              unparsed_str ti !! j2 = Some (Some l) → j1 = j2) →
  ∃ h', free_loop todo i ti h = Some h' ∧ infos h' = infos h ∧
    (∀ j l, (Z.to_nat i ≤ j)%nat → unparsed_str ti !! j = Some (Some l) →
            strs h' !! l = None) ∧
    (∀ l, (∀ j, (Z.to_nat i ≤ j)%nat → unparsed_str ti !! j ≠ Some (Some l)) →
          strs h' !! l = strs h !! l).
Proof.
  induction todo as [|todo IH]; intros i h Hi Hlen Hlive Hdist.
  - exists h. split_and!; [done|done| |done].
    intros j l Hj Hl. apply lookup_lt_Some in Hl. lia.
  - cbn [free_loop].
    destruct (lookup_lt_is_Some_2 (unparsed_str ti) (Z.to_nat i)) as [o Ho]; [lia|].
    rewrite (list_lookup_total_correct _ _ _ Ho).
    assert (ptr_live h o) as Hlo.
    { destruct o as [l|]; [|done]. by apply (Hlive (Z.to_nat i) l). }
    rewrite (g_free_live o h Hlo). cbn [mbind option_bind].
    destruct (IH (i + 1) {| infos := infos h; strs := strs_after_free o (strs h) |})
      as (h' & -> & Hinf & Hgone & Hkeep); [lia|lia| |done|].
    + intros j l Hj Hl. cbn [strs]. rewrite strs_after_free_other.
      * apply (Hlive j l); [lia|done].
      * intros ->. assert (Z.to_nat i = j) by (by apply (Hdist _ _ l)). lia.
    + exists h'. split_and!; [done|done| |].
      * intros j l Hj Hl. destruct (decide (j = Z.to_nat i)) as [->|Hne].
        -- rewrite Hkeep.
           ++ cbn [strs]. assert (o = Some l) as -> by congruence.
              simpl. apply lookup_delete_eq.
           ++ intros j' Hj' Hl'. assert (j' = Z.to_nat i) by (by apply (Hdist _ _ l)).
              lia.
        -- apply (Hgone j l); [lia|done].
      * intros l Hl. rewrite Hkeep by (intros j Hj; apply Hl; lia).
        cbn [strs]. apply strs_after_free_other. intros ->. by apply (Hl (Z.to_nat i)).
Qed.

(** ** What the reference count leaves alone *)

Lemma owns_set_refs h p ti r p1 i l :
  infos h !! p = Some ti →
  owns (set_info p (set_refs ti r) h) p1 i l ↔ owns h p1 i l.
Proof.
  intros Hti. unfold owns, set_info. cbn [infos]. split.
  - intros (t & Ht & Hi). destruct (decide (p1 = p)) as [->|Hne].
    + rewrite lookup_insert_eq in Ht. injection Ht as <-. by exists ti.
    + rewrite lookup_insert_ne in Ht by done. by exists t.
  - intros (t & Ht & Hi). destruct (decide (p1 = p)) as [->|Hne].
    + rewrite lookup_insert_eq. exists (set_refs ti r). split; [done|].
      cbn [set_refs unparsed_str]. congruence.
    + rewrite lookup_insert_ne by done. by exists t.
Qed.

Lemma heap_ok_set_refs hdr h p ti r :
  heap_ok hdr h → infos h !! p = Some ti →
  heap_ok hdr (set_info p (set_refs ti r) h).
Proof.
  intros [Hok Huniq] Hti. split.
  - intros p1 [t Ht]. unfold term_info_ok. rewrite Ht.
    unfold set_info in Ht. cbn [infos] in Ht.
    destruct (decide (p1 = p)) as [->|Hne].
    + rewrite lookup_insert_eq in Ht. injection Ht as <-.
      destruct (term_info_ok_inv hdr h p (Hok p ltac:(by eexists)))
        as (t' & Ht' & Hwf & Hlive).
      assert (t' = ti) as -> by congruence. by split.
    + rewrite lookup_insert_ne in Ht by done.
      destruct (term_info_ok_inv hdr h p1 (Hok p1 ltac:(by eexists)))
        as (t' & Ht' & Hwf & Hlive).
      assert (t' = t) as -> by congruence. by split.
  - intros p1 i1 p2 i2 l H1%owns_set_refs H2%owns_set_refs; [|done..].
    by apply (Huniq _ _ _ _ l).
Qed.

Lemma no_leak_set_refs h p ti r :
  no_leak h → infos h !! p = Some ti → no_leak (set_info p (set_refs ti r) h).
Proof.
  intros Hnl Hti l Hl. destruct (Hnl l Hl) as (p1 & i & Ho).
  exists p1, i. by apply owns_set_refs.
Qed.

Section RefCount.

Variable hdr : Headers.

Lemma chafa_term_info_ref_cases p h h' :
  chafa_term_info_ref (Some p) h = Some h' →
  h' = h ∨ ∃ ti r, infos h !! p = Some ti ∧ h' = set_info p (set_refs ti r) h.
Proof.
  unfold chafa_term_info_ref. destruct (infos h !! p) as [ti|] eqn:Hti; [|done].
  cbn [mbind option_bind]. destruct (negb _); intros [= <-]; [by left|].
  right. by exists ti, (to_gint (refs ti + 1)).
Qed.

(** What [chafa_term_info_unref] does to a container of a well-kept heap:
    nothing for a count that is not positive; with a count of 1 it frees the
    container and the strings that are its raw templates; otherwise it
    stores the count less one. *)
Lemma chafa_term_info_unref_cases p h ti :
  heap_ok hdr h → infos h !! p = Some ti →
  ∃ h', chafa_term_info_unref hdr (Some p) h = Some h' ∧
    ((refs ti ≤ 0 ∧ h' = h) ∨
     (0 < refs ti ∧ to_gint (refs ti - 1) ≠ 0 ∧
      h' = set_info p (set_refs ti (to_gint (refs ti - 1))) h) ∨
     (0 < refs ti ∧ to_gint (refs ti - 1) = 0 ∧
      infos h' = delete p (infos h) ∧
      (∀ i l, unparsed_str ti !! i = Some (Some l) → strs h' !! l = None) ∧
      (∀ l, (∀ i, unparsed_str ti !! i ≠ Some (Some l)) →
            strs h' !! l = strs h !! l))).
Proof.
  intros Hh Hti. pose proof Hh as [Hok Huniq].
  unfold chafa_term_info_unref. rewrite Hti. cbn [mbind option_bind].
  destruct (Z.gtb_spec (refs ti) 0) as [Hpos|Hneg]; cbn [negb].
  2:{ exists h. split; [done|]. left. split; [lia|done]. }
  cbv zeta. destruct (Z.eqb_spec (to_gint (refs ti - 1)) 0) as [Hz|Hnz].
  2:{ eexists. split; [done|]. right. left. split; [lia|]. by split. }
  destruct (term_info_ok_inv hdr h p (Hok p ltac:(by eexists)))
    as (t' & Ht' & Hwf & Hlive).
  assert (t' = ti) as -> by congruence.
  destruct Hwf as (_ & _ & _ & _ & Hlen).
  destruct (free_loop_spec ti (Z.to_nat (hdr_seq_max hdr)) 0 h)
    as (h1 & -> & Hinf & Hgone & Hkeep); [done|lia| | |].
  - intros j l _ Hl. exact (Forall_lookup_1 _ _ _ _ Hlive Hl).
  - intros j1 j2 l H1 H2.
    apply (Huniq p j1 p j2 l); by exists ti.
  - cbn [mbind option_bind]. eexists. split; [done|]. right. right.
    cbn [infos strs]. split_and!; [lia|done|by rewrite Hinf| |].
    + intros i l Hl. apply (Hgone i l); [lia|done].
    + intros l Hl. apply Hkeep. intros j _. apply Hl.
Qed.

Lemma heap_ok_ref p h h' :
  heap_ok hdr h → chafa_term_info_ref (Some p) h = Some h' → heap_ok hdr h'.
Proof.
  intros Hh [->|(ti & r & Hti & ->)]%chafa_term_info_ref_cases; [done|].
  by apply heap_ok_set_refs.
Qed.

Lemma no_leak_ref p h h' :
  no_leak h → chafa_term_info_ref (Some p) h = Some h' → no_leak h'.
Proof.
  intros Hh [->|(ti & r & Hti & ->)]%chafa_term_info_ref_cases; [done|].
  by apply no_leak_set_refs.
Qed.

(** Once a container is freed, the others are as they were. *)
Lemma owns_after_free h h' p ti :
  heap_ok hdr h → infos h !! p = Some ti →
  infos h' = delete p (infos h) →
  (∀ l, (∀ i, unparsed_str ti !! i ≠ Some (Some l)) →
        strs h' !! l = strs h !! l) →
  (∀ p1 i l, owns h' p1 i l ↔ p1 ≠ p ∧ owns h p1 i l) ∧
  (∀ p1 i l, p1 ≠ p → owns h p1 i l → strs h' !! l = strs h !! l).
Proof.
  intros [Hok Huniq] Hti Hinf Hkeep. split.
  - intros p1 i l. unfold owns. rewrite Hinf. split.
    + intros (t & Ht & Hi). apply lookup_delete_Some in Ht as [Hne Ht].
      split; [done|]. by exists t.
    + intros (Hne & t & Ht & Hi). exists t. split; [|done].
      by rewrite lookup_delete_ne.
  - intros p1 i l Hne Ho. apply Hkeep. intros j Hj.
    destruct (Huniq p1 i p j l Ho) as [? _]; [by exists ti|done].
Qed.

Lemma heap_ok_unref p h h' :
  heap_ok hdr h → is_Some (infos h !! p) →
  chafa_term_info_unref hdr (Some p) h = Some h' → heap_ok hdr h'.
Proof.
  intros Hh [ti Hti] Hun.
  destruct (chafa_term_info_unref_cases p h ti Hh Hti)
    as (h1 & Hun' & [[_ ->]|[(_ & _ & ->)|(_ & _ & Hinf & Hgone & Hkeep)]]);
    rewrite Hun in Hun'; injection Hun' as ->; [done|by apply heap_ok_set_refs|].
  destruct (owns_after_free h h1 p ti Hh Hti Hinf Hkeep) as [Hown Hstay].
  pose proof Hh as [Hok Huniq]. split.
  - intros p1 [t Ht]. unfold term_info_ok. rewrite Ht. rewrite Hinf in Ht.
    apply lookup_delete_Some in Ht as [Hne Ht].
    destruct (term_info_ok_inv hdr h p1 (Hok p1 ltac:(by eexists)))
      as (t' & Ht' & Hwf & Hlive).
    assert (t' = t) as -> by congruence. split; [done|].
    apply Forall_lookup. intros i [l|] Hi; [|done]. simpl.
    rewrite (Hstay p1 i l); [|done|by exists t].
    exact (Forall_lookup_1 _ _ _ _ Hlive Hi).
  - intros p1 i1 p2 i2 l [_ H1]%Hown [_ H2]%Hown. by apply (Huniq _ _ _ _ l).
Qed.

Lemma no_leak_unref p h h' :
  heap_ok hdr h → no_leak h → is_Some (infos h !! p) →
  chafa_term_info_unref hdr (Some p) h = Some h' → no_leak h'.
Proof.
  intros Hh Hnl [ti Hti] Hun.
  destruct (chafa_term_info_unref_cases p h ti Hh Hti)
    as (h1 & Hun' & [[_ ->]|[(_ & _ & ->)|(_ & _ & Hinf & Hgone & Hkeep)]]);
    rewrite Hun in Hun'; injection Hun' as ->; [done|by apply no_leak_set_refs|].
  destruct (owns_after_free h h1 p ti Hh Hti Hinf Hkeep) as [Hown Hstay].
  intros l Hl.
  assert (∀ i, unparsed_str ti !! i ≠ Some (Some l)) as Hnot.
  { intros i Hi. rewrite (Hgone i l Hi) in Hl. by destruct Hl. }
  rewrite (Hkeep l Hnot) in Hl. destruct (Hnl l Hl) as (p1 & i & Ho).
  exists p1, i. apply Hown. split; [|done].
  intros ->. destruct Ho as (t & Ht & Hi). assert (t = ti) as -> by congruence.
  by apply (Hnot i).
Qed.

End RefCount.

(** ** The strings of a copy *)

Lemma c_str_no_NUL s : NUL ∉ c_str s.
Proof.
  induction s as [|c s IH]; simpl; [by apply not_elem_of_nil|].
  destruct (decide (c = NUL)); [by apply not_elem_of_nil|].
  apply not_elem_of_cons. by split.
Qed.

(** What the loop of [chafa_term_info_copy] makes of the raw templates from
    kind [i] on, when they are live: each is replaced by a new string with
    the same bytes, and nothing else is added to the heap. *)
Lemma copy_loop_contents todo : ∀ i nti h nti' h',
  copy_loop todo i nti h = Some (nti', h') →
  0 ≤ i → (Z.to_nat i + todo = length (unparsed_str nti))%nat →
  (∀ j l, (Z.to_nat i ≤ j)%nat → unparsed_str nti !! j = Some (Some l) →
          is_Some (strs h !! l)) →
  strs h ⊆ strs h' ∧
  (∀ j, (j < Z.to_nat i)%nat → unparsed_str nti' !! j = unparsed_str nti !! j) ∧
  (∀ j, (Z.to_nat i ≤ j)%nat → unparsed_str nti !! j = Some None →
        unparsed_str nti' !! j = Some None) ∧
  (∀ j l, (Z.to_nat i ≤ j)%nat → unparsed_str nti !! j = Some (Some l) →
     ∃ l' s, unparsed_str nti' !! j = Some (Some l') ∧ strs h !! l = Some s ∧
             strs h' !! l' = Some (c_str s) ∧ strs h !! l' = None) ∧
  (∀ m x, strs h' !! m = Some x →
     strs h !! m = Some x ∨
     ∃ j s, (Z.to_nat i ≤ j)%nat ∧ unparsed_str nti' !! j = Some (Some m) ∧
            x = c_str s).
Proof.
  induction todo as [|todo IH]; intros i nti h nti' h' Hc Hi Hlen Hlive.
  - injection Hc as <- <-. split_and!; try done.
    + intros j l Hj Hl. apply lookup_lt_Some in Hl. lia.
    + intros m x Hm. by left.
  - cbn [copy_loop] in Hc.
    destruct (lookup_lt_is_Some_2 (unparsed_str nti) (Z.to_nat i)) as [o Ho]; [lia|].
    rewrite (list_lookup_total_correct _ _ _ Ho) in Hc.
    destruct o as [l0|].
    + destruct (strs h !! l0) as [s0|] eqn:Hs0; [|done].
      cbn [mbind option_bind g_strdup] in Hc.
      set (l' := fresh (dom (strs h))) in Hc.
      assert (strs h !! l' = None) as Hl' by (apply not_elem_of_dom, is_fresh).
      assert (strs h ⊆ <[l' := c_str s0]> (strs h)) as Hsub1
        by (by apply insert_subseteq).
      destruct (IH _ _ _ _ _ Hc) as (Hsub & Hlow & Hnone & Hsome & Honly);
        [lia|cbn [set_unparsed unparsed_str]; rewrite length_insert; lia| |].
      { intros j l Hj Hl. cbn [set_unparsed unparsed_str strs] in *.
        rewrite list_lookup_insert_ne in Hl by lia.
        destruct (Hlive j l ltac:(lia) Hl) as [x Hx]. exists x.
        by eapply lookup_weaken. }
      cbn [set_unparsed unparsed_str strs] in *.
      split_and!.
      * by etrans.
      * intros j Hj. rewrite Hlow by lia. apply list_lookup_insert_ne. lia.
      * intros j Hj Hn. assert (j ≠ Z.to_nat i) by congruence.
        apply Hnone; [lia|]. by rewrite list_lookup_insert_ne.
      * intros j l Hj Hl. destruct (decide (j = Z.to_nat i)) as [->|Hne].
        -- assert (l = l0) as -> by congruence. exists l', s0.
           split_and!; [|done| |done].
           ++ rewrite Hlow by lia. apply list_lookup_insert_eq. lia.
           ++ eapply lookup_weaken; [|exact Hsub]. apply lookup_insert_eq.
        -- destruct (Hsome j l) as (l1 & s & H1 & H2 & H3 & H4);
              [lia|by rewrite list_lookup_insert_ne|].
           destruct (Hlive j l ltac:(lia) Hl) as [x Hx].
           assert (l ≠ l') as Hll by congruence.
           rewrite lookup_insert_ne in H2 by done.
           exists l1, s. split_and!; [done|done|done|].
           apply lookup_insert_None in H4. by destruct H4.
      * intros m x Hm. destruct (Honly m x Hm) as [Hm'|(j & s & Hj & H1 & H2)].
        -- apply lookup_insert_Some in Hm' as [[<- <-]|[_ Hm']]; [|by left].
           right. exists (Z.to_nat i), s0. split_and!; [lia| |done].
           rewrite Hlow by lia. apply list_lookup_insert_eq. lia.
        -- right. exists j, s. split_and!; [lia|done|done].
    + destruct (IH _ _ _ _ _ Hc) as (Hsub & Hlow & Hnone & Hsome & Honly);
        [lia|lia| |].
      { intros j l Hj Hl. apply (Hlive j l); [lia|done]. }
      split_and!; try done.
      * intros j Hj. apply Hlow. lia.
      * intros j Hj Hn. destruct (decide (j = Z.to_nat i)) as [->|Hne].
        -- rewrite Hlow by lia. done.
        -- apply Hnone; [lia|done].
      * intros j l Hj Hl. assert (j ≠ Z.to_nat i) by congruence.
        apply Hsome; [lia|done].
      * intros m x Hm. destruct (Honly m x Hm) as [Hm'|(j & s & Hj & H1 & H2)];
          [by left|]. right. exists j, s. split_and!; [lia|done|done].
Qed.

Section CopyContents.

Variable hdr : Headers.

(** The raw templates of a copy: NULL where the original has NULL, and
    elsewhere a string of its own with the bytes of the original's. *)
Lemma chafa_term_info_copy_contents h p ti q h1 :
  infos h !! p = Some ti → wf_info hdr ti → Forall (ptr_live h) (unparsed_str ti) →
  chafa_term_info_copy hdr (Some p) h = Some (Some q, h1) →
  ∃ tq, infos h1 = <[q := tq]> (infos h) ∧ infos h !! q = None ∧
    refs tq = 1 ∧ seq_str tq = seq_str ti ∧ seq_args tq = seq_args ti ∧
    strs h ⊆ strs h1 ∧
    (∀ j, unparsed_str ti !! j = Some None → unparsed_str tq !! j = Some None) ∧
    (∀ j l, unparsed_str ti !! j = Some (Some l) →
       ∃ l' s, unparsed_str tq !! j = Some (Some l') ∧ strs h !! l = Some s ∧
               strs h1 !! l' = Some (c_str s) ∧ strs h !! l' = None) ∧
    (∀ m x, strs h1 !! m = Some x →
       strs h !! m = Some x ∨
       ∃ j s, unparsed_str tq !! j = Some (Some m) ∧ x = c_str s).
Proof.
  intros Hti Hwf Hlive Hc. unfold chafa_term_info_copy in Hc. rewrite Hti in Hc.
  cbn [mbind option_bind] in Hc.
  destruct (copy_loop _ _ _ _) as [[tq h']|] eqn:Hloop; [|done].
  cbn [mbind option_bind] in Hc. injection Hc as <- <-.
  destruct Hwf as (_ & _ & _ & _ & Hlen).
  destruct (copy_loop_contents _ _ _ _ _ _ Hloop)
    as (Hsub & _ & Hnone & Hsome & Honly); [done|cbn [unparsed_str]; lia| |].
  { intros j l _ Hl. exact (Forall_lookup_1 _ _ _ _ Hlive Hl). }
  destruct (copy_loop_spec h (Z.to_nat (hdr_seq_max hdr)) 0
              {| refs := 1; seq_str := seq_str ti; seq_args := seq_args ti;
                 unparsed_str := unparsed_str ti |} h)
    as (tq' & h'' & Hloop' & H1 & H2 & H3 & H4 & H5 & H6 & H7);
    [done|done|by constructor|done|cbn [unparsed_str]; lia|].
  rewrite Hloop in Hloop'. injection Hloop' as <- <-.
  cbn [refs seq_str seq_args unparsed_str] in *.
  exists tq. cbn [set_info infos strs]. split_and!; try done.
  - by rewrite H1.
  - apply not_elem_of_dom, is_fresh.
  - intros j Hj. apply Hnone; [lia|done].
  - intros j l Hl. apply Hsome; [lia|done].
  - intros m x Hm. destruct (Honly m x Hm) as [?|(j & s & _ & ? & ?)]; [by left|].
    right. by exists j, s.
Qed.

End CopyContents.

(** ** No string is lost, no string holds a NUL *)

Lemma strs_after_free_Some o (m : gmap loc (list gchar)) l x :
  strs_after_free o m !! l = Some x → o ≠ Some l ∧ m !! l = Some x.
Proof.
  destruct o as [l0|]; simpl; [|done].
  intros [Hne Hl]%lookup_delete_Some. split; [congruence|done].
Qed.

Section Tidy.

Variable hdr : Headers.

Lemma no_leak_new h : no_leak h → no_leak (chafa_term_info_new hdr h).2.
Proof.
  intros Hnl l Hl. destruct (Hnl l Hl) as (p1 & i & t & Ht & Hi).
  exists p1, i, t. split; [|done]. unfold chafa_term_info_new.
  cbn [snd set_info infos]. rewrite lookup_insert_ne; [done|].
  intros <-. pose proof (is_fresh (dom (infos h))) as Hf.
  apply Hf, elem_of_dom. by eexists.
Qed.

(** The heap after [chafa_term_info_set_seq] on a live container with a
    kind in range: as it was after a failure; otherwise the container [p]
    has a new raw template [o'] for the kind, the old one is freed, and a
    new string, if any, is a C string. *)
Lemma set_seq_heap stack h p ti seq str r h' :
  infos h !! p = Some ti → wf_info hdr ti → Forall (ptr_live h) (unparsed_str ti) →
  0 ≤ seq < hdr_seq_max hdr →
  chafa_term_info_set_seq hdr stack (Some p) seq str h = Some (r, h') →
  h' = h ∨
  ∃ ti' o' strs',
    h' = {| infos := <[p := ti']> (infos h); strs := strs' |} ∧
    unparsed_str ti' = <[Z.to_nat seq := o']> (unparsed_str ti) ∧
    (∀ m x, strs' !! m = Some x →
       (o' = Some m ∧ ∃ s, x = c_str s) ∨
       (unparsed_str ti !!! Z.to_nat seq ≠ Some m ∧ strs h !! m = Some x)).
Proof.
  intros Hti Hwf Hlive Hseq Hset. destruct str as [g|].
  - apply (set_seq_string hdr stack h p ti seq) in Hset as (s & _ & _ & _ & Hset);
      [|done..].
    destruct (pr_result _); injection Hset as <- <-; [|by left].
    right. do 3 eexists. split; [done|]. cbn [unparsed_str]. split; [done|].
    intros m x Hm. apply lookup_insert_Some in Hm as [[<- <-]|[Hne Hm]].
    + left. split; [done|]. by eexists.
    + right. by apply strs_after_free_Some.
  - rewrite (set_seq_clear hdr stack h p ti seq Hti Hlive Hseq) in Hset.
    cbv zeta in Hset. injection Hset as <- <-.
    right. do 3 eexists. split; [done|]. cbn [unparsed_str]. split; [done|].
    intros m x Hm. right. by apply strs_after_free_Some.
Qed.

Lemma set_seq_out_of_range stack h p seq str r h' :
  ¬ (0 ≤ seq < hdr_seq_max hdr) →
  chafa_term_info_set_seq hdr stack (Some p) seq str h = Some (r, h') →
  r = (false, None) ∧ h' = h.
Proof.
  intros Hseq Hset. unfold chafa_term_info_set_seq in Hset.
  destruct (infos h !! p); [|done]. simpl in Hset.
  destruct (Z.leb_spec 0 seq); destruct (Z.ltb_spec seq (hdr_seq_max hdr));
    simpl in Hset; try lia; by injection Hset as <- <-.
Qed.

Lemma no_leak_set_seq stack h p seq str r h' :
  heap_ok hdr h → no_leak h → is_Some (infos h !! p) →
  chafa_term_info_set_seq hdr stack (Some p) seq str h = Some (r, h') →
  no_leak h'.
Proof.
  intros Hh Hnl Hp Hset. pose proof Hh as [Hok Huniq].
  destruct (term_info_ok_inv hdr h p (Hok p Hp)) as (ti & Hti & Hwf & Hlive).
  destruct (decide (0 ≤ seq < hdr_seq_max hdr)) as [Hseq|Hseq].
  2:{ by destruct (set_seq_out_of_range _ _ _ _ _ _ _ Hseq Hset) as [_ ->]. }
  destruct (set_seq_heap _ _ _ _ _ _ _ _ Hti Hwf Hlive Hseq Hset)
    as [->|(ti' & o' & strs' & -> & Hup & Hstrs)]; [done|].
  destruct Hwf as (_ & _ & _ & _ & Hlen).
  intros m [x Hm]. cbn [strs] in Hm.
  destruct (Hstrs m x Hm) as [[-> _]|[Hold Hm']].
  - exists p, (Z.to_nat seq), ti'. cbn [infos]. rewrite lookup_insert_eq.
    split; [done|]. rewrite Hup. apply list_lookup_insert_eq. lia.
  - destruct (Hnl m ltac:(by eexists)) as (p1 & i & t & Ht & Hi).
    exists p1, i. unfold owns. cbn [infos].
    destruct (decide (p1 = p)) as [->|Hne].
    + rewrite lookup_insert_eq. exists ti'. split; [done|].
      assert (t = ti) as -> by congruence. rewrite Hup.
      rewrite list_lookup_insert_ne; [done|]. intros <-.
      rewrite (list_lookup_total_correct _ _ _ Hi) in Hold. done.
    + rewrite lookup_insert_ne by done. by exists t.
Qed.

Lemma strs_clean_set_seq stack h p seq str r h' :
  heap_ok hdr h → strs_clean h → is_Some (infos h !! p) →
  chafa_term_info_set_seq hdr stack (Some p) seq str h = Some (r, h') →
  strs_clean h'.
Proof.
  intros Hh Hcl Hp Hset. pose proof Hh as [Hok Huniq].
  destruct (term_info_ok_inv hdr h p (Hok p Hp)) as (ti & Hti & Hwf & Hlive).
  destruct (decide (0 ≤ seq < hdr_seq_max hdr)) as [Hseq|Hseq].
  2:{ by destruct (set_seq_out_of_range _ _ _ _ _ _ _ Hseq Hset) as [_ ->]. }
  destruct (set_seq_heap _ _ _ _ _ _ _ _ Hti Hwf Hlive Hseq Hset)
    as [->|(ti' & o' & strs' & -> & Hup & Hstrs)]; [done|].
  intros m x Hm. cbn [strs] in Hm.
  destruct (Hstrs m x Hm) as [[_ [s ->]]|[_ Hm']]; [apply c_str_no_NUL|].
  by apply (Hcl m).
Qed.

Lemma no_leak_copy h p q h1 :
  heap_ok hdr h → no_leak h → is_Some (infos h !! p) →
  chafa_term_info_copy hdr (Some p) h = Some (Some q, h1) → no_leak h1.
Proof.
  intros [Hok _] Hnl Hp Hc.
  destruct (term_info_ok_inv hdr h p (Hok p Hp)) as (ti & Hti & Hwf & Hlive).
  destruct (chafa_term_info_copy_contents hdr h p ti q h1 Hti Hwf Hlive Hc)
    as (tq & Hinf & Hq & _ & _ & _ & _ & _ & _ & Honly).
  intros m [x Hm]. destruct (Honly m x Hm) as [Hm'|(j & s & Hj & _)].
  - destruct (Hnl m ltac:(by eexists)) as (p1 & i & t & Ht & Hi).
    exists p1, i, t. split; [|done]. rewrite Hinf, lookup_insert_ne; [done|].
    intros <-. congruence.
  - exists q, j, tq. split; [|done]. by rewrite Hinf, lookup_insert_eq.
Qed.

Lemma strs_clean_copy h p q h1 :
  heap_ok hdr h → strs_clean h → is_Some (infos h !! p) →
  chafa_term_info_copy hdr (Some p) h = Some (Some q, h1) → strs_clean h1.
Proof.
  intros [Hok _] Hcl Hp Hc.
  destruct (term_info_ok_inv hdr h p (Hok p Hp)) as (ti & Hti & Hwf & Hlive).
  destruct (chafa_term_info_copy_contents hdr h p ti q h1 Hti Hwf Hlive Hc)
    as (tq & Hinf & Hq & _ & _ & _ & _ & _ & _ & Honly).
  intros m x Hm. destruct (Honly m x Hm) as [Hm'|(j & s & _ & ->)].
  - by apply (Hcl m).
  - apply c_str_no_NUL.
Qed.

Lemma strs_clean_ref p h h' :
  strs_clean h → chafa_term_info_ref (Some p) h = Some h' → strs_clean h'.
Proof. by intros Hh [->|(ti & r & Hti & ->)]%chafa_term_info_ref_cases. Qed.

Lemma strs_clean_unref p h h' :
  heap_ok hdr h → strs_clean h → is_Some (infos h !! p) →
  chafa_term_info_unref hdr (Some p) h = Some h' → strs_clean h'.
Proof.
  intros Hh Hcl [ti Hti] Hun.
  destruct (chafa_term_info_unref_cases hdr p h ti Hh Hti)
    as (h1 & Hun' & [[_ ->]|[(_ & _ & ->)|(_ & _ & Hinf & Hgone & Hkeep)]]);
    rewrite Hun in Hun'; injection Hun' as ->; [done|done|].
  intros m x Hm. apply (Hcl m). rewrite <- Hkeep; [done|].
  intros i Hi. rewrite (Hgone i m Hi) in Hm. done.
Qed.

End Tidy.

Lemma reachable_tidy hdr h :
  reachable hdr h → heap_ok hdr h ∧ no_leak h ∧ strs_clean h.
Proof.
  induction 1 as [|h Hr (IH & Hnl & Hcl)|h p0 q h' Hr (IH & Hnl & Hcl) Hc
                  |h stack p0 seq str r h' Hr (IH & Hnl & Hcl) Hs
                  |h p0 h' Hr (IH & Hnl & Hcl) Hf|h p0 h' Hr (IH & Hnl & Hcl) Hu].
  - split; [apply heap_ok_empty|]. split.
    + by intros l [x Hx].
    + by intros l s Hs.
  - split; [by apply heap_ok_new|]. split; [by apply no_leak_new|done].
  - assert (is_Some (infos h !! p0)) as Hp0.
    { unfold chafa_term_info_copy in Hc. by destruct (infos h !! p0). }
    destruct (heap_ok_copy hdr h p0 IH Hp0) as (q' & h1 & Hc' & Hh1 & _).
    rewrite Hc' in Hc. injection Hc as <- <-. split; [done|]. split.
    + by apply (no_leak_copy hdr h p0 q' h1).
    + by apply (strs_clean_copy hdr h p0 q' h1).
  - assert (is_Some (infos h !! p0)) as Hp0.
    { unfold chafa_term_info_set_seq in Hs. by destruct (infos h !! p0). }
    split; [by eapply heap_ok_set_seq|]. split.
    + by apply (no_leak_set_seq hdr stack h p0 seq str r h').
    + by apply (strs_clean_set_seq hdr stack h p0 seq str r h').
  - split; [by apply (heap_ok_ref hdr p0 h h')|]. split.
    + by apply (no_leak_ref p0 h h').
    + by apply (strs_clean_ref p0 h h').
  - assert (is_Some (infos h !! p0)) as Hp0.
    { unfold chafa_term_info_unref in Hu. by destruct (infos h !! p0). }
    split; [by apply (heap_ok_unref hdr p0 h h')|]. split.
    + by apply (no_leak_unref hdr p0 h h').
    + by apply (strs_clean_unref hdr p0 h h').
Qed.

Lemma reachable_heap_ok hdr h : reachable hdr h → heap_ok hdr h.
Proof. by intros (? & _)%reachable_tidy. Qed.

(** Every container of a heap that was built with the functions of this
    file is one the properties below speak of. *)
Lemma reachable_term_info_ok hdr h p :
  reachable hdr h → is_Some (infos h !! p) → term_info_ok hdr h p.
Proof. intros [Hok _]%reachable_heap_ok. apply Hok. Qed.

(** ** Templates of literal bytes *)

Lemma tokens_plain l :
  Forall (λ c, c ≠ NUL ∧ c ≠ PERCENT) l → tokens l = Some (TLit <$> l).
Proof.
  induction 1 as [|c l [Hn Hp] _ IH]; [done|]. cbn [tokens].
  rewrite decide_False by done. rewrite decide_False by done. by rewrite IH.
Qed.

Lemma literals_plain l : literals (TLit <$> l) = l.
Proof.
  induction l as [|c l IH]; [done|]. rewrite fmap_cons, literals_cons_lit. by f_equal.
Qed.

Lemma placeholders_plain l : placeholders (TLit <$> l) = [].
Proof.
  induction l as [|c l IH]; [done|]. by rewrite fmap_cons, placeholders_cons_lit.
Qed.

Lemma run_tokens_plain l : ∀ st,
  st_arg_info (run_tokens (TLit <$> l) st) = st_arg_info st ∧
  st_pre_len (run_tokens (TLit <$> l) st) = st_pre_len st + Z.of_nat (length l).
Proof.
  induction l as [|c l IH]; intros st.
  - simpl. split; [done|lia].
  - rewrite fmap_cons, run_tokens_cons. destruct (IH (step_token st (TLit c))) as [-> ->].
    cbn [step_token put_literal st_arg_info st_pre_len length]. split; [done|lia].
Qed.

(** ** The verdict on a string of the caller's own *)

Section Verdict.

Variable hdr : Headers.

(** A string that is not a well-formed template with arguments the kind
    has, fewer than eight placeholders and a length within the check is
    not taken by the compiler. *)
Lemma compile_rejects stack seq s :
  ¬ (∃ toks, tokens s = Some toks ∧
       indexes_below (def_n_args (hdr_seq_def hdr seq)) toks ∧
       Z.of_nat (length (placeholders toks)) < 8 ∧
       Z.of_nat (length (literals toks))
       + Z.of_nat (length (placeholders toks)) * arg_width (hdr_seq_def hdr seq)
       + 1 ≤ hdr_seq_length_max hdr) →
  pr_result (compile_of hdr stack seq s) = false.
Proof.
  intros Hno. destruct (pr_result _) eqn:Hres; [|done]. exfalso. apply Hno.
  unfold compile_of in Hres. rewrite arg_len_max_width in Hres.
  pose proof (arg_width_range (hdr_seq_def hdr seq)) as Hw.
  by apply parse_seq_args_accepted in Hres; [|lia].
Qed.

(** A well-formed template within the conditions is taken, without an
    error; the scan has stored its literal bytes. *)
Lemma compile_accepts stack seq s toks :
  tokens s = Some toks →
  indexes_below (def_n_args (hdr_seq_def hdr seq)) toks →
  Z.of_nat (length (placeholders toks)) < 8 →
  Z.of_nat (length (literals toks))
  + Z.of_nat (length (placeholders toks)) * arg_width (hdr_seq_def hdr seq)
  + 1 ≤ hdr_seq_length_max hdr →
  compile_of hdr stack seq s =
  let st := run_tokens toks (scan_start (resize (Z.to_nat (hdr_seq_max hdr)) NUL stack)) in
  {| pr_result := true; pr_error := None; pr_out := st_out st;
     pr_arg_info :=
       <[Z.to_nat (st_k st) := sentinel (to_guint8 (st_pre_len st))]>
         (st_arg_info st);
     pr_oob := st_oob st |}.
Proof.
  intros Htoks Hidx Hk Htot. unfold compile_of. rewrite arg_len_max_width.
  pose proof (arg_width_range (hdr_seq_def hdr seq)) as Hw.
  destruct (parse_seq_args_verdict hdr (resize (Z.to_nat (hdr_seq_max hdr)) NUL stack) s
              (n_args (seq_meta hdr seq)) (arg_width (hdr_seq_def hdr seq))
              toks Htoks Hidx Hk ltac:(lia)) as [_ Hacc].
  by apply Hacc.
Qed.


(** A rejected string of the caller's own: the call returns FALSE with the
    compiler's error and the heap it was given. *)
Lemma set_seq_rejects stack h p seq s :
  term_info_ok hdr h p → 0 ≤ seq < hdr_seq_max hdr →
  pr_oob (compile_of hdr stack seq s) = false →
  pr_result (compile_of hdr stack seq s) = false →
  chafa_term_info_set_seq hdr stack (Some p) seq (Some (own s)) h
  = Some ((false, pr_error (compile_of hdr stack seq s)), h).
Proof.
  intros (ti & Hti & Hwf & Hlive)%term_info_ok_inv Hseq Hoob Hres.
  rewrite (set_seq_template hdr stack h p ti seq s Hti Hwf Hlive Hseq). cbv zeta.
  by rewrite Hoob, Hres.
Qed.

(** An accepted string of the caller's own, in a table of kinds no longer
    than a row: the call returns TRUE and the kind holds a copy of the
    string. *)
Lemma set_seq_accepts stack h p seq s :
  term_info_ok hdr h p → 0 ≤ seq < hdr_seq_max hdr →
  hdr_seq_max hdr ≤ hdr_seq_length_max hdr →
  pr_oob (compile_of hdr stack seq s) = false →
  pr_result (compile_of hdr stack seq s) = true →
  ∃ h' l,
    chafa_term_info_set_seq hdr stack (Some p) seq (Some (own s)) h
    = Some ((true, pr_error (compile_of hdr stack seq s)), h') ∧
    chafa_term_info_get_seq hdr (Some p) seq h' = Some (Some l, h') ∧
    chafa_term_info_have_seq hdr (Some p) seq h' = Some (true, h') ∧
    strs h' !! l = Some (c_str s).
Proof.
  intros (ti & Hti & Hwf & Hlive)%term_info_ok_inv Hseq Hrows Hoob Hres.
  rewrite (set_seq_template hdr stack h p ti seq s Hti Hwf Hlive Hseq). cbv zeta.
  rewrite Hoob, Hres, bool_decide_eq_true_2 by done.
  destruct Hwf as (_ & _ & _ & _ & Hlen).
  do 2 eexists. split; [done|]. split_and!.
  - erewrite get_seq_in_range; [|apply lookup_insert_eq|done].
    cbn [unparsed_str]. rewrite list_lookup_total_insert_eq; [done|lia].
  - erewrite have_seq_in_range; [|apply lookup_insert_eq|done].
    cbn [unparsed_str]. rewrite list_lookup_total_insert_eq; [done|lia].
  - cbn [strs]. apply lookup_insert_eq.
Qed.

Lemma set_seq_out_of_kinds stack h p ti seq str :
  infos h !! p = Some ti → ¬ (0 ≤ seq < hdr_seq_max hdr) →
  chafa_term_info_set_seq hdr stack (Some p) seq str h = Some ((false, None), h).
Proof.
  intros Hti Hseq. unfold chafa_term_info_set_seq. rewrite Hti. simpl.
  destruct (Z.leb_spec 0 seq); destruct (Z.ltb_spec seq (hdr_seq_max hdr)); simpl;
    try done; lia.
Qed.

End Verdict.

(** * The properties of the specification *)

(** C1 does not hold of the code.  Take a kind of six byte-sized arguments
    and the template "%1" followed by CHAFA_TERM_SEQ_LENGTH_MAX - 4 literal
    bytes; it is accepted, since the literal bytes, three digits for the one
    placeholder and the byte in reserve make CHAFA_TERM_SEQ_LENGTH_MAX.  The
    emitter's loop runs six times whatever the number of placeholders: from
    the second round on it is at the sentinel, reads [args [255]] and
    formats what it finds there.  With the first argument 255 and a buffer
    of exactly CHAFA_TERM_SEQ_LENGTH_MAX free bytes the emitter stores
    outside the buffer; with more room it returns the cursor at least
    CHAFA_TERM_SEQ_LENGTH_MAX + 4 bytes on.  The table of kinds has
    CHAFA_TERM_SEQ_LENGTH_MAX - 4 kinds at least, so that the local array of
    [chafa_term_info_set_seq] holds the literal bytes of the template, and
    CHAFA_TERM_SEQ_LENGTH_MAX at most, so that the [memcpy] out of that array
    ends inside the row.  This holds for every container, every
    CHAFA_TERM_SEQ_LENGTH_MAX from 4 to 256 and whatever the read past the
    arguments yields. *)
Theorem C1_emitter_overruns hdr past stack h p seq :
  let lm := hdr_seq_length_max hdr in
  let s := chars "%1" ++ replicate (Z.to_nat (lm - 4)) "x"%char in
  let args := [255; 0; 0; 0; 0; 0] in
  4 ≤ lm ≤ 256 →
  lm - 4 ≤ hdr_seq_max hdr ≤ lm →
  term_info_ok hdr h p → 0 ≤ seq < hdr_seq_max hdr →
  hdr_seq_def hdr seq = EMIT_SEQ_6_none_guint8 →
  ∃ h' ti',
    chafa_term_info_set_seq hdr stack (Some p) seq (Some (own s)) h
    = Some ((true, None), h') ∧
    infos h' !! p = Some ti' ∧
    in_range (hdr_seq_def hdr seq) args ∧
    chafa_term_info_emit hdr past ti' (replicate (Z.to_nat lm) "."%char, 0) seq args
    = Overrun ∧
    ∃ mem' out',
      chafa_term_info_emit hdr past ti'
        (replicate (Z.to_nat lm + 32) "."%char, 0) seq args
      = Done (mem', out') ∧
      lm + 4 ≤ out'.
Proof.
  intros lm s args Hlm Hkinds (ti & Hti & Hwf & Hlive)%term_info_ok_inv Hseq Htab.
  set (xs := replicate (Z.to_nat (lm - 4)) "x"%char).
  set (toks := TArg 0 :: (TLit <$> xs)).
  set (slots := [ {| pre_len := 0; arg_index := 0 |}; sentinel (lm - 4);
                  sentinel 0; sentinel 0; sentinel 0; sentinel 0; sentinel 0;
                  sentinel 0 ]).
  assert (tokens s = Some toks) as Htoks.
  { change (tokens (PERCENT :: "1"%char :: xs) = Some (TArg 0 :: (TLit <$> xs))).
    rewrite tokens_percent. rewrite decide_False by done.
    change (is_arg_digit "1"%char) with true. cbv iota.
    rewrite tokens_plain; [done|]. apply Forall_replicate. by split. }
  assert (literals toks = xs) as Hlits.
  { unfold toks. by rewrite literals_cons_arg, literals_plain. }
  assert (placeholders toks = [0]) as Hph.
  { unfold toks. by rewrite placeholders_cons_arg, placeholders_plain. }
  assert (Z.of_nat (length (literals toks)) = lm - 4) as Hlen.
  { rewrite Hlits. unfold xs. rewrite length_replicate. lia. }
  assert (Z.of_nat (@length gchar xs) = lm - 4) as Hxs.
  { unfold xs. rewrite length_replicate. lia. }
  assert (pr_result (compile_of hdr stack seq s) = true ∧
          pr_error (compile_of hdr stack seq s) = None ∧
          pr_arg_info (compile_of hdr stack seq s) = slots) as (Hres & Herr & Hinfo).
  { unfold compile_of, seq_meta. cbn [n_args type_size].
    rewrite Htab. cbn [def_n_args def_arg_type sizeof]. change (1 =? 1) with true.
    cbv iota.
    destruct (parse_seq_args_verdict hdr
                (resize (Z.to_nat (hdr_seq_max hdr)) NUL stack) s 6 3 toks Htoks)
      as [_ Hfit].
    - unfold indexes_below. rewrite Hph. by repeat constructor.
    - by rewrite Hph.
    - done.
    - rewrite Hfit by (rewrite Hlen, Hph; fold lm; simpl; lia).
      cbv zeta. cbn [pr_result pr_error pr_arg_info]. split; [done|]. split; [done|].
      rewrite run_tokens_k, Hph. unfold toks. rewrite run_tokens_cons.
      destruct (run_tokens_plain xs
                  (step_token (scan_start (resize (Z.to_nat (hdr_seq_max hdr)) NUL stack))
                     (TArg 0))) as [-> ->].
      rewrite Hxs. cbn [step_token next_arg put_arg scan_start st_arg_info
                          st_pre_len st_k length].
      rewrite (to_guint8_small (0 + (lm - 4))) by lia.
      replace (0 + (lm - 4)) with (lm - 4) by lia.
      reflexivity. }
  assert (pr_oob (compile_of hdr stack seq s) = false) as Hoob.
  { apply (compile_holds hdr stack seq s (lm - 4)).
    - unfold local_holds. fold lm. lia.
    - right. exists toks. split; [done|lia]. }
  rewrite (set_seq_template hdr stack h p ti seq s Hti Hwf Hlive Hseq). cbv zeta.
  rewrite Hoob, Hres, Herr, Hinfo, bool_decide_eq_true_2 by (fold lm; lia).
  destruct (wf_info_row_length hdr ti seq Hwf Hseq) as [_ Hal].
  rewrite (copied_whole _ slots) by done.
  destruct Hwf as (Hw1 & Hw2 & Hw3 & Hw4 & Hw5).
  do 2 eexists. split; [done|]. split; [apply lookup_insert_eq|].
  match goal with |- context [chafa_term_info_emit _ _ ?t _ _ _] => set (ti' := t) end.
  assert (seq_args ti' !!! Z.to_nat seq = slots) as Hslots.
  { unfold ti', set_row. cbn [seq_args]. apply list_lookup_total_insert_eq. lia. }
  clearbody ti'.
  split. { rewrite Htab. compute_done. }
  assert (∀ k, 0 ≤ pre_len (slots !!! k)) as Hpre.
  { intros k. do 8 (destruct k as [|k]; [simpl; lia|]). done. }
  pose proof (dec_digits_length past) as Hd.
  assert (loop_advance past 6 slots args 0
          = lm - 1 + 5 * Z.of_nat (length (dec_digits past))) as Hadv.
  { set (d := Z.of_nat (length (dec_digits (nth_arg past args 255)))).
    transitivity (0 + 3 + (lm - 4 + d + (0 + d + (0 + d + (0 + d + (0 + d + 0))))));
      [reflexivity|].
    subst d. change (nth_arg past args 255) with past. lia. }
  assert (∀ mem,
    chafa_term_info_emit hdr past ti' (mem, 0) seq args =
    '(mem1, out1, ofs, i) ← emit_seq_loop past 6 (seq_str ti' !!! Z.to_nat seq)
                               slots args mem 0 0 0;
    mem2 ← copy_bytes mem1 out1 (seq_str ti' !!! Z.to_nat seq) ofs
              (pre_len (slots !!! Z.to_nat i));
    Done (mem2, out1 + pre_len (slots !!! Z.to_nat i))) as Hemit.
  { intros mem. unfold chafa_term_info_emit.
    rewrite Htab. cbv iota beta zeta.
    unfold emit_6_none_guint8, emit_seq_6_args_uint8, emit_seq_guint8, EMIT_SEQ_DEF.
    rewrite Hslots. reflexivity. }
  split.
  - rewrite Hemit. rewrite emit_seq_loop_overrun; [done|done| |].
    + rewrite length_replicate. lia.
    + rewrite length_replicate, Hadv. lia.
  - rewrite Hemit.
    destruct (emit_seq_loop_fits past 6 (seq_str ti' !!! Z.to_nat seq) slots args
                (replicate (Z.to_nat lm + 32) "."%char) 0 0 0)
      as (mem1 & ofs' & -> & Hl1);
      [done|done|rewrite length_replicate, Hadv; lia|].
    rewrite outcome_bind_Done. cbv iota beta.
    change (slots !!! Z.to_nat (0 + Z.of_nat 6)) with (sentinel 0).
    cbn [sentinel pre_len].
    destruct (copy_bytes_fits mem1 (0 + loop_advance past 6 slots args 0)
                (seq_str ti' !!! Z.to_nat seq) ofs' 0) as (mem2 & -> & Hl2).
    + rewrite Hadv. lia.
    + done.
    + rewrite Hl1, length_replicate, Hadv. lia.
    + rewrite outcome_bind_Done. do 2 eexists. split; [done|].
      rewrite Hadv. lia.
Qed.

(** With CHAFA_TERM_SEQ_LENGTH_MAX 96 and as many kinds. *)
Lemma C1_witness :
  let hdr := roomy in
  let p := (chafa_term_info_new hdr empty_heap).1 in
  let h := (chafa_term_info_new hdr empty_heap).2 in
  let s := chars "%1" ++ replicate 92 "x"%char in
  4 ≤ hdr_seq_length_max hdr ≤ 256 ∧
  hdr_seq_length_max hdr - 4 ≤ hdr_seq_max hdr ≤ hdr_seq_length_max hdr ∧
  term_info_ok hdr h p ∧
  ∃ h' ti',
    chafa_term_info_set_seq hdr [] (Some p) 10 (Some (own s)) h
    = Some ((true, None), h') ∧
    infos h' !! p = Some ti' ∧
    chafa_term_info_emit hdr 0 ti' (replicate 96 "."%char, 0) 10
      [255; 0; 0; 0; 0; 0]
    = Overrun.
Proof.
  intros hdr p h s. split; [compute_done|]. split; [compute_done|].
  split; [compute_done|].
  destruct (C1_emitter_overruns hdr 0 [] h p 10)
    as (h' & ti' & Hset & Hti & _ & Hover & _).
  - compute_done.
  - compute_done.
  - compute_done.
  - compute_done.
  - reflexivity.
  - exists h', ti'. split; [exact Hset|]. split; [exact Hti|exact Hover].
Defined.

(** C2, as far as the code goes.  A kind is emitted right after its template
    was accepted.  When the template holds one placeholder for each
    argument the kind declares, its literal bytes number no more than
    CHAFA_TERM_SEQ_MAX and the arguments are in the range the entry point
    carries through, the bytes from the cursor given to the cursor returned
    are the literal bytes of the template, %% as one %, with every
    placeholder replaced by the decimal digits of its argument (after the
    aixterm transform where the kind has one); they are fewer than
    CHAFA_TERM_SEQ_LENGTH_MAX.  Nothing before the cursor given is touched,
    and behind the cursor returned at most one byte is. *)
Theorem C2_emit_expands_template hdr past stack h p seq str s e h' toks args mem out :
  hdr_seq_length_max hdr ≤ 256 →
  term_info_ok hdr h p →
  read_str str h = Some s →
  chafa_term_info_set_seq hdr stack (Some p) seq (Some str) h = Some ((true, e), h') →
  tokens s = Some toks →
  Z.of_nat (length (placeholders toks)) = def_n_args (hdr_seq_def hdr seq) →
  Z.of_nat (length (literals toks)) ≤ hdr_seq_max hdr →
  in_range (hdr_seq_def hdr seq) args →
  0 ≤ out → out + hdr_seq_length_max hdr ≤ Z.of_nat (length mem) →
  let ex := expand (passed (hdr_seq_def hdr seq) args) toks in
  ∃ ti' mem',
    infos h' !! p = Some ti' ∧
    chafa_term_info_emit hdr past ti' (mem, out) seq args
    = Done (mem', out + Z.of_nat (length ex)) ∧
    Z.of_nat (length ex) < hdr_seq_length_max hdr ∧
    length mem' = length mem ∧
    take (length ex) (drop (Z.to_nat out) mem') = ex ∧
    take (Z.to_nat out) mem' = take (Z.to_nat out) mem ∧
    drop (Z.to_nat out + length ex + 1) mem'
    = drop (Z.to_nat out + length ex + 1) mem.
Proof.
  intros HLM (ti & Hti & Hwf & Hlive)%term_info_ok_inv Hstr Hset Htoks Hcount Hfit
    Hrange Hout Hroom ex.
  destruct (emit_after_set_seq hdr past stack h p ti seq str s e h' toks args mem out)
    as (ti' & mem' & Hti' & Hemit & Ha & Hlen); try done.
  fold ex in Hemit, Ha, Hlen.
  destruct (agrees_take_drop _ _ _ _ _ Ha Hout) as (H1 & H2 & H3 & H4).
  exists ti', mem'. split_and!; try done; [lia|].
  replace (Z.to_nat out + length ex + 1)%nat
    with (Z.to_nat (out + Z.of_nat (length ex)) + 1)%nat by lia.
  done.
Qed.

(** The example of C2: ESC [ %1 ; %2 m with the arguments 31 and 1, for the
    sample kind of two wide arguments. *)
Lemma C2_witness :
  let s := ESC :: chars "[%1;%2m" in
  let h' := heap_of (sample_set 5 (Some s)) in
  term_info_ok sample sample_heap sample_ptr ∧
  ∃ ti' mem',
    infos h' !! sample_ptr = Some ti' ∧
    chafa_term_info_emit sample 0 ti' (replicate 96 NUL, 0) 5 [31; 1]
    = Done (mem', 7) ∧
    take 7 mem' = ESC :: chars "[31;1m".
Proof.
  intros s h'. split; [compute_done|].
  destruct (C2_emit_expands_template sample 0 [] sample_heap sample_ptr 5 (own s) s
              None h'
              [TLit ESC; TLit "["%char; TArg 0; TLit ";"%char; TArg 1; TLit "m"%char]
              [31; 1] (replicate 96 NUL) 0)
    as (ti' & mem' & H1 & H2 & H3 & H4 & H5 & H6 & H7).
  - vm_compute. discriminate.
  - compute_done.
  - reflexivity.
  - vm_compute. reflexivity.
  - reflexivity.
  - reflexivity.
  - vm_compute. discriminate.
  - compute_done.
  - lia.
  - vm_compute. discriminate.
  - exists ti', mem'. split; [exact H1|]. split; [exact H2|exact H5].
Defined.

(** C2 as stated fails: the example template emits the seven bytes
    ESC [ 3 1 ; 1 m and returns the cursor 7 bytes on, not 8; and an accepted
    template without placeholders, set for a kind with an argument, is not
    emitted at all. *)
Lemma C2_counterexample :
  let s := ESC :: chars "[%1;%2m" in
  let h := heap_of (sample_set 5 (Some s)) in
  let r := chafa_term_info_emit sample 0 (info_at h sample_ptr)
             (replicate 96 NUL, 0) 5 [31; 1] in
  let h1 := heap_of (sample_set 1 (Some (chars "abc"))) in
  let buf := replicate 96 "."%char in
  (sample_set 5 (Some s) = Some ((true, None), h) ∧
   infos h !! sample_ptr = Some (info_at h sample_ptr) ∧
   r = Done (buffer_of r, 7) ∧
   take 7 (buffer_of r) = ESC :: chars "[31;1m" ∧
   r ≠ Done (buffer_of r, 0 + 8)) ∧
  (sample_set 1 (Some (chars "abc")) = Some ((true, None), h1) ∧
   infos h1 !! sample_ptr = Some (info_at h1 sample_ptr) ∧
   in_range (hdr_seq_def sample 1) [5] ∧
   chafa_term_info_emit sample 0 (info_at h1 sample_ptr) (buf, 0) 1 [5]
   = Done (buf, 0)).
Proof.
  cbv zeta. split_and!; try (vm_compute; reflexivity).
  - vm_compute. discriminate.
  - compute_done.
Qed.

(** The local array of [chafa_term_info_set_seq] has CHAFA_TERM_SEQ_MAX
    bytes and the scan stores up to CHAFA_TERM_SEQ_LENGTH_MAX: with eleven
    kinds, the twelfth literal byte of a template is stored past the end of
    the array, and the call has no defined result. *)
Example literal_bytes_past_seq_max :
  sample_set 1 (Some (chars "0123456789a%1")) ≠ None ∧
  sample_set 1 (Some (chars "0123456789ab%1")) = None.
Proof. split; [vm_compute; discriminate|vm_compute; reflexivity]. Qed.

(** The string [chafa_term_info_get_seq] returns is the raw template of the
    kind itself.  Passed back to [chafa_term_info_set_seq] for that kind it
    is freed before [g_strdup] reads it, and the call has no defined result;
    passed for another kind it is copied. *)
Example raw_template_passed_back :
  let h := heap_of (sample_set 1 (Some (chars "a%1"))) in
  ∃ l,
    chafa_term_info_get_seq sample (Some sample_ptr) 1 h = Some (Some l, h) ∧
    chafa_term_info_set_seq sample [] (Some sample_ptr) 1 (Some (held l)) h = None ∧
    ∃ h', chafa_term_info_set_seq sample [] (Some sample_ptr) 2 (Some (held l)) h
          = Some ((true, None), h') ∧
          snapshot h' sample_ptr ≠ snapshot h sample_ptr.
Proof.
  eexists. split; [vm_compute; reflexivity|]. split; [vm_compute; reflexivity|].
  eexists. split; [vm_compute; reflexivity|]. vm_compute. discriminate.
Qed.

(** A template may use an argument twice; the emitter stops after as many
    placeholders as the kind has arguments. *)
Example surplus_placeholder_not_emitted :
  let h := heap_of (sample_set 1 (Some (chars "%1;%1"))) in
  sample_set 1 (Some (chars "%1;%1")) = Some ((true, None), h) ∧
  chafa_term_info_emit sample 0 (info_at h sample_ptr) (chars ".....", 0) 1 [7]
  = Done (chars "7;...", 2).
Proof. split; vm_compute; reflexivity. Qed.

(** The entry point for three wide arguments passes them on as bytes. *)
Example three_wide_arguments_as_bytes :
  let h := heap_of (sample_set 8 (Some (chars "%1;%2;%3"))) in
  sample_set 8 (Some (chars "%1;%2;%3")) = Some ((true, None), h) ∧
  take 7 (buffer_of (chafa_term_info_emit sample 0 (info_at h sample_ptr)
                       (replicate 96 "."%char, 0) 8 [1000; 2; 3]))
  = chars "232;2;3".
Proof. split; vm_compute; reflexivity. Qed.

(** C3.  A call of [chafa_term_info_set_seq] that fails changes nothing.
    Whatever the call is given, a string of the caller's, a string of the
    heap or NULL, when it returns FALSE the heap is the one it was given, so
    the raw template and the compiled form ([seq_str] and [seq_args]) of
    every kind are what they were.  And the call does return FALSE in this
    way for every failure: for a kind value out of range, and for every
    string of the caller's that is not a well-formed template naming
    arguments the kind has with fewer than eight placeholders and a length
    within the check, provided the local array of the function holds what
    the scan stores of the string. *)
Theorem C3_failed_set_seq_changes_nothing hdr stack h p seq :
  term_info_ok hdr h p →
  (∀ str e h',
     chafa_term_info_set_seq hdr stack (Some p) seq str h = Some ((false, e), h') →
     h' = h ∧ snapshot h' p = snapshot h p) ∧
  (∀ s,
     0 ≤ seq < hdr_seq_max hdr →
     local_holds hdr (Z.of_nat (length s)) →
     ¬ (∃ toks, tokens s = Some toks ∧
          indexes_below (def_n_args (hdr_seq_def hdr seq)) toks ∧
          Z.of_nat (length (placeholders toks)) < 8 ∧
          Z.of_nat (length (literals toks))
          + Z.of_nat (length (placeholders toks)) * arg_width (hdr_seq_def hdr seq)
          + 1 ≤ hdr_seq_length_max hdr) →
     ∃ e, chafa_term_info_set_seq hdr stack (Some p) seq (Some (own s)) h
          = Some ((false, e), h)) ∧
  (¬ (0 ≤ seq < hdr_seq_max hdr) →
   ∀ str, chafa_term_info_set_seq hdr stack (Some p) seq str h
          = Some ((false, None), h)).
Proof.
  intros Hok. pose proof Hok as (ti & Hti & Hwf & Hlive)%term_info_ok_inv.
  split_and!.
  - intros str e h' Hset. by rewrite (set_seq_false hdr _ _ _ _ _ _ _ Hset).
  - intros s Hseq Hholds Hno. eexists.
    apply (set_seq_rejects hdr stack h p seq s Hok Hseq).
    + apply (compile_holds hdr stack seq s _ Hholds). left. lia.
    + by apply compile_rejects.
  - intros Hseq str. by apply (set_seq_out_of_kinds hdr stack h p ti).
Qed.

Lemma C3_witness :
  term_info_ok sample sample_heap sample_ptr ∧
  ∃ e, chafa_term_info_set_seq sample [] (Some sample_ptr) 1
         (Some (own (chars "a%9"))) sample_heap
       = Some ((false, e), sample_heap).
Proof.
  split; [compute_done|].
  destruct (C3_failed_set_seq_changes_nothing sample [] sample_heap sample_ptr 1)
    as (_ & Hrej & _).
  - compute_done.
  - apply (Hrej (chars "a%9")).
    + compute_done.
    + compute_done.
    + intros (toks & Htoks & _). vm_compute in Htoks. discriminate.
Defined.

(** C4.  Setting an accepted template and reading the kind back gives the
    template.  After a call that returned TRUE, [chafa_term_info_get_seq]
    returns a string with the bytes of the C string that was passed in.  And
    the call does return TRUE, without an error, for every well-formed
    template that names arguments the kind has, holds fewer than eight
    placeholders, passes the length check and has no more literal bytes than
    the local array of the function, in a table of kinds no longer than a
    row.  The string passed in is one of the caller's or one of the heap;
    it is not the raw template the kind holds, which the call frees before
    it copies the string. *)
Theorem C4_set_then_get_roundtrip hdr stack h p seq str s :
  term_info_ok hdr h p →
  read_str str h = Some s →
  (∀ e h',
     chafa_term_info_set_seq hdr stack (Some p) seq (Some str) h
     = Some ((true, e), h') →
     ∃ l, chafa_term_info_get_seq hdr (Some p) seq h' = Some (Some l, h') ∧
          strs h' !! l = Some (c_str s) ∧ (NUL ∉ s → c_str s = s)) ∧
  (∀ toks,
     0 ≤ seq < hdr_seq_max hdr →
     hdr_seq_max hdr ≤ hdr_seq_length_max hdr →
     (∀ l, str = held l →
           chafa_term_info_get_seq hdr (Some p) seq h ≠ Some (Some l, h)) →
     tokens s = Some toks →
     indexes_below (def_n_args (hdr_seq_def hdr seq)) toks →
     Z.of_nat (length (placeholders toks)) < 8 →
     Z.of_nat (length (literals toks))
     + Z.of_nat (length (placeholders toks)) * arg_width (hdr_seq_def hdr seq)
     + 1 ≤ hdr_seq_length_max hdr →
     Z.of_nat (length (literals toks)) ≤ hdr_seq_max hdr →
     ∃ h', chafa_term_info_set_seq hdr stack (Some p) seq (Some str) h
           = Some ((true, None), h')).
Proof.
  intros Hok Hstr. pose proof Hok as (ti & Hti & Hwf & Hlive)%term_info_ok_inv.
  split.
  - intros e h' Hset.
    destruct (set_seq_accepted hdr stack h p ti seq str s e h' Hti Hwf Hlive Hstr Hset)
      as (Hseq & _ & _ & _ & _ & ->).
    destruct Hwf as (_ & _ & _ & _ & Hlen).
    eexists. split_and!.
    + erewrite get_seq_in_range; [|apply lookup_insert_eq|done].
      cbn [unparsed_str]. rewrite list_lookup_total_insert_eq; [done|lia].
    + cbn [strs]. apply lookup_insert_eq.
    + apply c_str_id.
  - intros toks Hseq Hrows Hother Htoks Hidx Hk Htot Hfit.
    assert (chafa_term_info_set_seq hdr stack (Some p) seq (Some str) h
            = chafa_term_info_set_seq hdr stack (Some p) seq (Some (own s)) h) as ->.
    { destruct str as [s0|l]; [simpl in Hstr; congruence|].
      apply (set_seq_held hdr stack h p ti seq l s Hti Hseq Hstr).
      intros E. apply (Hother l eq_refl).
      by rewrite (get_seq_in_range hdr h p ti seq Hti Hseq), E. }
    pose proof (compile_accepts hdr stack seq s toks Htoks Hidx Hk Htot) as Hc.
    cbv zeta in Hc.
    destruct (set_seq_accepts hdr stack h p seq s Hok Hseq Hrows)
      as (h' & l & Hset & _).
    + rewrite Hc. cbn [pr_oob]. rewrite run_tokens_oob, length_resize.
      apply Z.ltb_ge. lia.
    + by rewrite Hc.
    + exists h'. rewrite Hset. by rewrite Hc.
Qed.

Lemma C4_witness :
  let s := ESC :: chars "[%1;%2m" in
  term_info_ok sample sample_heap sample_ptr ∧
  ∃ h' l,
    chafa_term_info_set_seq sample [] (Some sample_ptr) 5 (Some (own s)) sample_heap
    = Some ((true, None), h') ∧
    chafa_term_info_get_seq sample (Some sample_ptr) 5 h' = Some (Some l, h') ∧
    strs h' !! l = Some s.
Proof.
  intros s. split; [compute_done|].
  destruct (C4_set_then_get_roundtrip sample [] sample_heap sample_ptr 5 (own s) s)
    as [Hget Hacc].
  - compute_done.
  - reflexivity.
  - destruct (Hacc [TLit ESC; TLit "["%char; TArg 0; TLit ";"%char; TArg 1;
                    TLit "m"%char]) as [h' Hset].
    + compute_done.
    + compute_done.
    + intros l Hl. discriminate Hl.
    + reflexivity.
    + compute_done.
    + compute_done.
    + compute_done.
    + compute_done.
    + destruct (Hget None h' Hset) as (l & Hl & Hs & Hid).
      exists h', l. split; [exact Hset|]. split; [exact Hl|].
      rewrite Hs. reflexivity.
Defined.

(** C5, as far as the code goes.  Clearing a kind of a live container
    returns TRUE, the kind is then reported absent, and emitting it returns
    the cursor it was given; so does emitting a kind of a new container.
    The entry points with arguments store nothing.  The entry points
    without arguments store one byte, a NUL, at the cursor. *)
Theorem C5_absent_kind hdr past stack h p seq mem out args :
  term_info_ok hdr h p → 0 ≤ seq < hdr_seq_max hdr →
  0 ≤ out < Z.of_nat (length mem) →
  let stored :=
    if decide (def_n_args (hdr_seq_def hdr seq) = 0)
    then <[Z.to_nat out := NUL]> mem else mem in
  (∃ h' ti',
     chafa_term_info_set_seq hdr stack (Some p) seq None h
     = Some ((true, None), h') ∧
     chafa_term_info_have_seq hdr (Some p) seq h' = Some (false, h') ∧
     infos h' !! p = Some ti' ∧
     chafa_term_info_emit hdr past ti' (mem, out) seq args = Done (stored, out)) ∧
  (∃ ti0,
     infos (chafa_term_info_new hdr h).2 !! (chafa_term_info_new hdr h).1
     = Some ti0 ∧
     chafa_term_info_have_seq hdr (Some (chafa_term_info_new hdr h).1) seq
       (chafa_term_info_new hdr h).2
     = Some (false, (chafa_term_info_new hdr h).2) ∧
     chafa_term_info_emit hdr past ti0 (mem, out) seq args = Done (stored, out)).
Proof.
  intros (ti & Hti & Hwf & Hlive)%term_info_ok_inv Hseq Hout stored.
  destruct (wf_info_row_length hdr ti seq Hwf Hseq) as [Hrl Hal].
  destruct Hwf as (Hw1 & Hw2 & Hw3 & Hw4 & Hw5).
  split.
  - rewrite (set_seq_clear hdr stack h p ti seq Hti Hlive Hseq). cbv zeta.
    do 2 eexists. split; [done|]. split_and!.
    + erewrite have_seq_in_range; [|apply lookup_insert_eq|done].
      cbn [unparsed_str]. by rewrite list_lookup_total_insert_eq by lia.
    + cbn [infos]. apply lookup_insert_eq.
    + apply emit_absent; [| |done]; cbn [seq_args seq_str]; unfold set_row;
        rewrite list_lookup_total_insert_eq by lia.
      * apply list_lookup_insert_eq. rewrite Hal. unfold CHAFA_TERM_SEQ_ARGS_MAX. lia.
      * apply load_first_NUL.
  - unfold chafa_term_info_new. cbn [fst snd set_info infos].
    eexists. split; [apply lookup_insert_eq|]. split.
    + erewrite have_seq_in_range; [|apply lookup_insert_eq|done].
      cbn [unparsed_str]. by rewrite lookup_total_replicate_2 by lia.
    + apply emit_absent; [| |done]; cbn [seq_args seq_str];
        rewrite lookup_total_replicate_2 by lia.
      * done.
      * unfold load. destruct (Z.to_nat (hdr_seq_length_max hdr)); done.
Qed.

Lemma C5_witness :
  term_info_ok sample sample_heap sample_ptr ∧
  ∃ h' ti',
    chafa_term_info_set_seq sample [] (Some sample_ptr) 3 None sample_heap
    = Some ((true, None), h') ∧
    chafa_term_info_have_seq sample (Some sample_ptr) 3 h' = Some (false, h') ∧
    infos h' !! sample_ptr = Some ti' ∧
    chafa_term_info_emit sample 0 ti' (chars "xyz", 1) 3 [7]
    = Done (chars "xyz", 1).
Proof.
  split; [compute_done|].
  destruct (C5_absent_kind sample 0 [] sample_heap sample_ptr 3 (chars "xyz") 1 [7])
    as [H _].
  - compute_done.
  - compute_done.
  - compute_done.
  - exact H.
Defined.

(** C5 as stated fails for the entry points without arguments: on a cleared
    kind they return the cursor they were given, after storing a NUL
    there. *)
Lemma C5_counterexample :
  let h := heap_of (sample_set 0 None) in
  sample_set 0 None = Some ((true, None), h) ∧
  chafa_term_info_have_seq sample (Some sample_ptr) 0 h = Some (false, h) ∧
  infos h !! sample_ptr = Some (info_at h sample_ptr) ∧
  chafa_term_info_emit sample 0 (info_at h sample_ptr) (chars "xyz", 1) 0 []
  = Done (["x"%char; NUL; "z"%char], 1) ∧
  ["x"%char; NUL; "z"%char] ≠ chars "xyz".
Proof.
  cbv zeta. split_and!; try (vm_compute; reflexivity). discriminate.
Qed.

(** C6, as far as the code goes.  In an accepted template %% is one literal
    % among the compiled bytes, between the literal bytes of what precedes
    and of what follows it, and is emitted as one % wherever the template is
    emitted as a whole (see C2).  A template with the escape %9 is always
    rejected, and so is a template with a placeholder %1..%8 for an argument
    the kind does not have; the heap is left as it is.  Let what precedes
    the escape be well-formed, name arguments the kind has and hold fewer
    literal bytes than CHAFA_TERM_SEQ_LENGTH_MAX: the placeholder out of
    range is rejected with bad-arguments; %9 is rejected without an error
    kind behind fewer than eight placeholders, and with bad-arguments behind
    eight or more.  The calls return when the local array of the function
    holds the literal bytes that precede the escape. *)
Theorem C6_escapes hdr past stack h p seq :
  term_info_ok hdr h p → 0 ≤ seq < hdr_seq_max hdr →
  let n := def_n_args (hdr_seq_def hdr seq) in
  (∀ str s e h' pre post tp,
     read_str str h = Some s →
     chafa_term_info_set_seq hdr stack (Some p) seq (Some str) h
     = Some ((true, e), h') →
     s = pre ++ PERCENT :: PERCENT :: post → tokens pre = Some tp → NUL ∉ pre →
     ∃ tq ti',
       tokens post = Some tq ∧ infos h' !! p = Some ti' ∧
       take (length (literals tp) + 1 + length (literals tq))
         (seq_str ti' !!! Z.to_nat seq)
       = literals tp ++ PERCENT :: literals tq ∧
       (∀ args mem out,
          hdr_seq_length_max hdr ≤ 256 →
          Z.of_nat (length (placeholders tp) + length (placeholders tq)) = n →
          in_range (hdr_seq_def hdr seq) args →
          0 ≤ out → out + hdr_seq_length_max hdr ≤ Z.of_nat (length mem) →
          let vals := passed (hdr_seq_def hdr seq) args in
          let ex := expand vals tp ++ PERCENT :: expand vals tq in
          ∃ mem',
            chafa_term_info_emit hdr past ti' (mem, out) seq args
            = Done (mem', out + Z.of_nat (length ex)) ∧
            take (length ex) (drop (Z.to_nat out) mem') = ex)) ∧
  (∀ pre post tp,
     tokens pre = Some tp → NUL ∉ pre →
     local_holds hdr (Z.of_nat (length (literals tp))) →
     ∃ e,
       chafa_term_info_set_seq hdr stack (Some p) seq
         (Some (own (pre ++ PERCENT :: "9"%char :: post))) h
       = Some ((false, e), h) ∧
       (indexes_below n tp →
        Z.of_nat (length (literals tp)) < hdr_seq_length_max hdr →
        (Z.of_nat (length (placeholders tp)) < 8 → e = None) ∧
        (8 ≤ Z.of_nat (length (placeholders tp)) →
         e = Some CHAFA_TERM_INFO_ERROR_BAD_ARGUMENTS))) ∧
  (∀ pre post tp c,
     tokens pre = Some tp → NUL ∉ pre →
     local_holds hdr (Z.of_nat (length (literals tp))) →
     is_arg_digit c = true → n ≤ code c - code "1"%char →
     ∃ e,
       chafa_term_info_set_seq hdr stack (Some p) seq
         (Some (own (pre ++ PERCENT :: c :: post))) h
       = Some ((false, e), h) ∧
       (indexes_below n tp →
        Z.of_nat (length (literals tp)) < hdr_seq_length_max hdr →
        e = Some CHAFA_TERM_INFO_ERROR_BAD_ARGUMENTS)).
Proof.
  intros Hok Hseq n.
  pose proof Hok as (ti & Hti & Hwf & Hlive)%term_info_ok_inv.
  pose proof (arg_width_range (hdr_seq_def hdr seq)) as Hw.
  split_and!.
  - intros str s e h' pre post tp Hstr Hset -> Htp Hnul.
    destruct (row_after_set_seq hdr stack h p ti seq str _ e h' Hti Hwf Hlive Hstr Hset)
      as (toks & ti' & Htoks & Hti' & Hfit & Hrow).
    rewrite (tokens_app pre tp _ Htp Hnul), tokens_percent in Htoks.
    rewrite decide_True in Htoks by done.
    destruct (tokens post) as [tq|] eqn:Hpost; [|done].
    injection Htoks as <-.
    rewrite literals_app, literals_cons_lit in Hrow, Hfit.
    rewrite length_app in Hrow. cbn [length] in Hrow.
    exists tq, ti'. split_and!; try done.
    { rewrite <- Hrow. f_equal. lia. }
    intros args mem out HLM Hcount Hrange Hout Hroom vals ex.
    destruct (emit_after_set_seq hdr past stack h p ti seq str
                (pre ++ PERCENT :: PERCENT :: post) e h'
                (tp ++ TLit PERCENT :: tq) args mem out)
      as (ti'' & mem' & Hti'' & Hemit & Ha & Hlen); try done.
    { rewrite (tokens_app pre tp _ Htp Hnul), tokens_percent.
      rewrite decide_True by done. by rewrite Hpost. }
    { rewrite placeholders_app, placeholders_cons_lit, length_app. exact Hcount. }
    { by rewrite literals_app, literals_cons_lit. }
    assert (ti'' = ti') as -> by congruence.
    assert (expand (passed (hdr_seq_def hdr seq) args) (tp ++ TLit PERCENT :: tq) = ex)
      as Hex by (by rewrite expand_app).
    rewrite Hex in Hemit, Ha.
    destruct (agrees_take_drop _ _ _ _ _ Ha Hout) as (H1 & H2 & H3 & H4).
    by exists mem'.
  - intros pre post tp Htp Hnul Hholds.
    assert (pr_oob (compile_of hdr stack seq (pre ++ PERCENT :: "9"%char :: post))
            = false) as Hoob.
    { apply (compile_stuck_holds hdr stack seq pre _ tp Htp Hnul); [|done].
      split; [done|]. by left. }
    destruct (parse_bad_escape hdr (resize (Z.to_nat (hdr_seq_max hdr)) NUL stack)
                (n_args (seq_meta hdr seq)) (arg_width (hdr_seq_def hdr seq))
                pre post tp "9"%char Htp Hnul) as [Hres Herr]; [lia|done|done|].
    cbv zeta in Hres, Herr. rewrite <- arg_len_max_width in Hres, Herr.
    fold (compile_of hdr stack seq (pre ++ PERCENT :: "9"%char :: post)) in Hres, Herr.
    eexists. split; [by apply (set_seq_rejects hdr stack h p seq _ Hok Hseq)|].
    intros Hidx Hj. split; [by apply Herr|].
    intros Hmany.
    by destruct (compile_eighth hdr stack seq pre (PERCENT :: "9"%char :: post) tp)
      as [_ ->].
  - intros pre post tp c Htp Hnul Hholds Hd Hn.
    assert (c ≠ PERCENT) as Hc by (intros ->; done).
    assert (pr_oob (compile_of hdr stack seq (pre ++ PERCENT :: c :: post)) = false)
      as Hoob.
    { apply (compile_stuck_holds hdr stack seq pre _ tp Htp Hnul); [|done].
      split; [done|]. by right. }
    destruct (parse_bad_index hdr (resize (Z.to_nat (hdr_seq_max hdr)) NUL stack)
                (n_args (seq_meta hdr seq)) (arg_width (hdr_seq_def hdr seq))
                pre post tp c Htp Hnul) as [Hres Herr]; [lia|done|done|].
    cbv zeta in Hres, Herr. rewrite <- arg_len_max_width in Hres, Herr.
    fold (compile_of hdr stack seq (pre ++ PERCENT :: c :: post)) in Hres, Herr.
    eexists. split; [by apply (set_seq_rejects hdr stack h p seq _ Hok Hseq)|].
    intros Hidx Hj.
    destruct (decide (Z.of_nat (length (placeholders tp)) < 8)) as [Hk|Hk].
    + by apply Herr.
    + destruct (compile_eighth hdr stack seq pre (PERCENT :: c :: post) tp)
        as [_ ->]; [done|done|done|lia|done|done].
Qed.

(** The template a%%b%1 for the sample kind of one wide argument: its row
    starts with a%b; and a%%b%2 is rejected with bad-arguments. *)
Lemma C6_witness :
  let h' := heap_of (sample_set 1 (Some (chars "a%%b%1"))) in
  term_info_ok sample sample_heap sample_ptr ∧ 0 ≤ 1 < hdr_seq_max sample ∧
  (∃ ti',
     chafa_term_info_set_seq sample [] (Some sample_ptr) 1
       (Some (own (chars "a%%b%1"))) sample_heap = Some ((true, None), h') ∧
     infos h' !! sample_ptr = Some ti' ∧
     take 3 (seq_str ti' !!! 1%nat) = chars "a%b") ∧
  chafa_term_info_set_seq sample [] (Some sample_ptr) 1
    (Some (own (chars "a%%b%2"))) sample_heap
  = Some ((false, Some CHAFA_TERM_INFO_ERROR_BAD_ARGUMENTS), sample_heap).
Proof.
  intros h'. split; [compute_done|]. split; [compute_done|].
  destruct (C6_escapes sample 0 [] sample_heap sample_ptr 1)
    as (Hpercent & _ & Hbad).
  - compute_done.
  - compute_done.
  - split.
    + destruct (Hpercent (own (chars "a%%b%1")) (chars "a%%b%1") None h'
                  (chars "a") (chars "b%1") [TLit "a"%char])
        as (tq & ti' & Htq & Hti' & Hrow & _).
      * reflexivity.
      * vm_compute. reflexivity.
      * reflexivity.
      * reflexivity.
      * compute_done.
      * exists ti'. split; [vm_compute; reflexivity|]. split; [exact Hti'|].
        injection Htq as <-. exact Hrow.
    + destruct (Hbad (chars "a%%b") [] [TLit "a"%char; TLit PERCENT; TLit "b"%char]
                  "2"%char) as (e & Hset & He).
      * reflexivity.
      * compute_done.
      * compute_done.
      * reflexivity.
      * vm_compute. discriminate.
      * rewrite He in Hset; [exact Hset|compute_done|compute_done].
Defined.

(** C6 as stated fails: the template "%9" is rejected without an error
    kind, and a placeholder out of range behind 96 literal bytes is rejected
    as too long (with a local array of 96 bytes, which holds them); neither
    call reports bad-arguments. *)
Lemma C6_counterexample :
  chafa_term_info_set_seq sample [] (Some sample_ptr) 1
    (Some (own (chars "%9"))) sample_heap
  = Some ((false, None), sample_heap) ∧
  (let p := (chafa_term_info_new roomy empty_heap).1 in
   let h := (chafa_term_info_new roomy empty_heap).2 in
   chafa_term_info_set_seq roomy [] (Some p) 1
     (Some (own (replicate 96 "x"%char ++ chars "%2"))) h
   = Some ((false, Some CHAFA_TERM_INFO_ERROR_SEQ_TOO_LONG), h)) ∧
  (None : option ChafaTermInfoError) ≠ Some CHAFA_TERM_INFO_ERROR_BAD_ARGUMENTS ∧
  Some CHAFA_TERM_INFO_ERROR_SEQ_TOO_LONG
  ≠ Some CHAFA_TERM_INFO_ERROR_BAD_ARGUMENTS.
Proof. split_and!; try (vm_compute; reflexivity); discriminate. Qed.



(** C8.  The aixterm wrappers hand the generic one-argument routine 30+v
    (foreground) or 40+v (background) for a colour index v from 0 to 7, and
    90+(v-8) or 100+(v-8) for v from 8 to 15; the two-argument wrapper does
    the same to its foreground and background arguments.  Index 3 goes out
    as 33 and index 10 as 92. *)
Theorem C8_aixterm_transform past ti dest seq v :
  0 ≤ v ≤ 15 →
  emit_1_aix16fg_guint8 past ti dest seq v
  = emit_seq_1_args_uint8 past ti dest seq (if v <? 8 then 30 + v else 90 + (v - 8)) ∧
  emit_1_aix16bg_guint8 past ti dest seq v
  = emit_seq_1_args_uint8 past ti dest seq (if v <? 8 then 40 + v else 100 + (v - 8)) ∧
  (∀ v', 0 ≤ v' ≤ 15 →
     emit_2_aix16fgbg_guint8 past ti dest seq v v'
     = emit_seq_2_args_uint8 past ti dest seq
         (if v <? 8 then 30 + v else 90 + (v - 8))
         (if v' <? 8 then 40 + v' else 100 + (v' - 8))) ∧
  emit_1_aix16fg_guint8 past ti dest seq 3
  = emit_seq_1_args_uint8 past ti dest seq 33 ∧
  emit_1_aix16fg_guint8 past ti dest seq 10
  = emit_seq_1_args_uint8 past ti dest seq 92.
Proof.
  intros Hv.
  unfold emit_1_aix16fg_guint8, emit_1_aix16bg_guint8, emit_2_aix16fgbg_guint8.
  split_and!; try reflexivity.
  - f_equal. rewrite to_guint8_small by (destruct (v <? 8); lia).
    destruct (v <? 8); lia.
  - f_equal. rewrite to_guint8_small by (destruct (v <? 8); lia).
    destruct (v <? 8); lia.
  - intros v' Hv'.
    f_equal; (rewrite to_guint_small; [|repeat case_match; lia]);
      repeat case_match; lia.
Qed.

Lemma C8_witness :
  let ti := info_at sample_heap sample_ptr in
  0 ≤ 10 ≤ 15 ∧
  emit_1_aix16fg_guint8 0 ti ([], 0) 3 10 = emit_seq_1_args_uint8 0 ti ([], 0) 3 92 ∧
  emit_1_aix16bg_guint8 0 ti ([], 0) 4 10 = emit_seq_1_args_uint8 0 ti ([], 0) 4 102.
Proof.
  intros ti. split; [lia|].
  destruct (C8_aixterm_transform 0 ti ([], 0) 3 10) as (H1 & _); [lia|].
  destruct (C8_aixterm_transform 0 ti ([], 0) 4 10) as (_ & H2 & _); [lia|].
  split; [exact H1|exact H2].
Defined.

(** C9.  In a heap built with the functions of this file, a copy is a deep
    copy and a container of its own.  It holds what the original holds, the
    compiled data and the bytes of the raw template of every kind, and
    shares no string with the original.  After the copy, a
    [chafa_term_info_set_seq] on the copy, with any kind value and any string
    or NULL, leaves the raw templates and the compiled data of every kind of
    the original as they were, and one on the original leaves those of the
    copy as they were.  Such calls return for NULL, and for a string of the
    caller's that the local array of the function holds, in a table of kinds
    no longer than a row. *)
Theorem C9_copy_is_independent hdr stack h p seq :
  reachable hdr h → is_Some (infos h !! p) →
  ∃ q h1,
    chafa_term_info_copy hdr (Some p) h = Some (Some q, h1) ∧ q ≠ p ∧
    snapshot h1 p = snapshot h p ∧
    snapshot h1 q = snapshot h p ∧
    (∀ i j l l', owns h1 p i l → owns h1 q j l' → l' ≠ l) ∧
    (∀ str r e h2,
       chafa_term_info_set_seq hdr stack (Some q) seq str h1 = Some ((r, e), h2) →
       snapshot h2 p = snapshot h p) ∧
    (∀ str r e h2,
       chafa_term_info_set_seq hdr stack (Some p) seq str h1 = Some ((r, e), h2) →
       snapshot h2 q = snapshot h1 q) ∧
    (∀ a, a = p ∨ a = q →
       is_Some (chafa_term_info_set_seq hdr stack (Some a) seq None h1) ∧
       ∀ s, hdr_seq_max hdr ≤ hdr_seq_length_max hdr →
            local_holds hdr (Z.of_nat (length s)) →
            is_Some (chafa_term_info_set_seq hdr stack (Some a) seq
                       (Some (own s)) h1)).
Proof.
  intros Hr Hp. destruct (reachable_tidy hdr h Hr) as (Hh & _ & Hcl).
  pose proof Hh as [Hok _].
  destruct (term_info_ok_inv hdr h p (Hok p Hp)) as (ti & Hti & Hwf & Hlive).
  destruct (chafa_term_info_copy_spec hdr h p ti Hti Hwf Hlive)
    as (q & tq & h1 & Hcopy & Hq & Hinfos & Hsub & Hs1 & Hs2 & Hlen & Hfresh).
  destruct (chafa_term_info_copy_contents hdr h p ti q h1 Hti Hwf Hlive Hcopy)
    as (tq' & Hinf' & _ & _ & _ & _ & _ & Hnone & Hsome & _).
  assert (q ≠ p) as Hqp.
  { intros ->. apply Hq, elem_of_dom. by eexists. }
  assert (infos h1 !! p = Some ti) as Hp1 by (by rewrite Hinfos, lookup_insert_ne).
  assert (infos h1 !! q = Some tq) as Hq1 by (by rewrite Hinfos, lookup_insert_eq).
  assert (tq' = tq) as ->.
  { rewrite Hinf' in Hq1. rewrite lookup_insert_eq in Hq1. congruence. }
  assert (Forall (ptr_live h1) (unparsed_str ti)) as Hlive1.
  { eapply Forall_impl; [exact Hlive|]. intros o. by apply ptr_live_mono. }
  assert (Forall (ptr_live h1) (unparsed_str tq)) as Hliveq.
  { eapply Forall_impl; [exact Hfresh|]. intros [l|] Hl; [|done]. simpl.
    by destruct (Hl l eq_refl). }
  assert (∀ o, o ∈ unparsed_str ti → o ∈ unparsed_str tq → o = None) as Hdisj.
  { intros [l|] Hin1 Hin2; [exfalso|done].
    rewrite Forall_forall in Hlive, Hfresh.
    destruct (Hfresh _ Hin2 l eq_refl) as [Hnew _]. apply Hnew.
    apply elem_of_dom. exact (Hlive _ Hin1). }
  assert (wf_info hdr tq) as Hwfq.
  { destruct Hwf as (Hw1 & Hw2 & Hw3 & Hw4 & Hw5).
    unfold wf_info. rewrite Hs1, Hs2, Hlen. done. }
  assert (term_info_ok hdr h1 q) as Hokq.
  { unfold term_info_ok. by rewrite Hq1. }
  assert (term_info_ok hdr h1 p) as Hokp.
  { unfold term_info_ok. by rewrite Hp1. }
  assert (snapshot h1 p = snapshot h p) as Hsnap.
  { apply (snapshot_frame _ _ _ ti Hti Hp1). apply Forall_forall.
    intros o Ho l ->. rewrite Forall_forall in Hlive.
    destruct (Hlive _ Ho) as [x Hx]. rewrite Hx. by eapply lookup_weaken. }
  assert (snapshot h1 q = snapshot h1 p) as Hdeep.
  { unfold snapshot. rewrite Hq1, Hp1. cbn [mbind option_bind]. rewrite Hs1, Hs2.
    do 2 f_equal. apply list_eq. intros j. rewrite !list_lookup_fmap.
    destruct (unparsed_str ti !! j) as [[l|]|] eqn:E.
    - destruct (Hsome j l E) as (l' & s & -> & Hl & Hl' & _). simpl.
      rewrite Hl', (lookup_weaken _ _ _ _ Hl Hsub).
      by rewrite (c_str_id s (Hcl l s Hl)).
    - by rewrite (Hnone j E).
    - rewrite lookup_ge_None_2; [done|]. apply lookup_ge_None_1 in E. lia. }
  exists q, h1. split_and!; try done.
  - by rewrite Hdeep.
  - intros i j l l' (t1 & Ht1 & Hl) (t2 & Ht2 & Hl') ->.
    assert (t1 = ti) as -> by congruence. assert (t2 = tq) as -> by congruence.
    by specialize (Hdisj (Some l) (list_elem_of_lookup_2 _ _ _ Hl)
                     (list_elem_of_lookup_2 _ _ _ Hl')).
  - intros str r e h2 Hset. rewrite <- Hsnap.
    eapply (set_seq_frame hdr stack h1 q p tq ti); try done.
    destruct (unparsed_str tq !!! Z.to_nat seq) as [l|] eqn:E; [right|by left].
    intros Hin.
    assert (Some l ∈ unparsed_str tq) as Hin'.
    { rewrite <- E. destruct (unparsed_str tq !! Z.to_nat seq) as [o|] eqn:E'.
      - rewrite (list_lookup_total_correct _ _ _ E'). by eapply list_elem_of_lookup_2.
      - by rewrite list_lookup_total_alt, E' in E. }
    by specialize (Hdisj _ Hin Hin').
  - intros str r e h2 Hset.
    eapply (set_seq_frame hdr stack h1 p q ti tq); try done.
    destruct (unparsed_str ti !!! Z.to_nat seq) as [l|] eqn:E; [right|by left].
    intros Hin.
    assert (Some l ∈ unparsed_str ti) as Hin'.
    { rewrite <- E. destruct (unparsed_str ti !! Z.to_nat seq) as [o|] eqn:E'.
      - rewrite (list_lookup_total_correct _ _ _ E'). by eapply list_elem_of_lookup_2.
      - by rewrite list_lookup_total_alt, E' in E. }
    by specialize (Hdisj _ Hin' Hin).
  - intros a Ha.
    assert (∃ ta, infos h1 !! a = Some ta ∧ Forall (ptr_live h1) (unparsed_str ta) ∧
                  term_info_ok hdr h1 a) as (ta & Hta & Hla & Hoka).
    { destruct Ha as [->| ->]; [by exists ti|by exists tq]. }
    split.
    + destruct (decide (0 ≤ seq < hdr_seq_max hdr)) as [Hseq|Hseq].
      * by rewrite (set_seq_clear hdr stack h1 a ta seq Hta Hla Hseq).
      * by rewrite (set_seq_out_of_kinds hdr stack h1 a ta seq None Hta Hseq).
    + intros s Hrows Hholds.
      destruct (set_seq_returns hdr stack h1 a seq s Hoka Hrows Hholds)
        as (r & e & h2 & -> & _). done.
Qed.

Lemma C9_witness :
  let h := heap_of (sample_set 5 (Some (ESC :: chars "[%1;%2m"))) in
  reachable sample h ∧ is_Some (infos h !! sample_ptr) ∧
  ∃ q h1,
    chafa_term_info_copy sample (Some sample_ptr) h = Some (Some q, h1) ∧
    q ≠ sample_ptr ∧ snapshot h1 q = snapshot h sample_ptr.
Proof.
  intros h.
  assert (reachable sample h) as Hr.
  { apply (reach_set_seq sample sample_heap [] sample_ptr 5
             (Some (own (ESC :: chars "[%1;%2m"))) (true, None) h).
    - apply reach_new, reach_empty.
    - vm_compute. reflexivity. }
  split; [exact Hr|]. split; [compute_done|].
  destruct (C9_copy_is_independent sample [] h sample_ptr 5 Hr)
    as (q & h1 & Hcopy & Hne & _ & Hdeep & _).
  - compute_done.
  - exists q, h1. split; [exact Hcopy|]. split; [exact Hne|exact Hdeep].
Defined.

(** C10.  For a kind value outside [0, CHAFA_TERM_SEQ_MAX) the two queries
    answer FALSE and NULL, and so they do for a NULL container; neither
    changes the heap. *)
Theorem C10_queries_out_of_range hdr h p seq :
  is_Some (infos h !! p) → ¬ (0 ≤ seq < hdr_seq_max hdr) →
  chafa_term_info_have_seq hdr (Some p) seq h = Some (false, h) ∧
  chafa_term_info_get_seq hdr (Some p) seq h = Some (None, h) ∧
  ∀ seq', chafa_term_info_have_seq hdr None seq' h = Some (false, h) ∧
          chafa_term_info_get_seq hdr None seq' h = Some (None, h).
Proof.
  intros [ti Hti] Hseq.
  unfold chafa_term_info_have_seq, chafa_term_info_get_seq. rewrite Hti. simpl.
  destruct (Z.leb_spec 0 seq); destruct (Z.ltb_spec seq (hdr_seq_max hdr)); simpl;
    try done; lia.
Qed.

Lemma C10_witness :
  is_Some (infos sample_heap !! sample_ptr) ∧ ¬ (0 ≤ 11 < hdr_seq_max sample) ∧
  chafa_term_info_have_seq sample (Some sample_ptr) 11 sample_heap
  = Some (false, sample_heap) ∧
  chafa_term_info_get_seq sample (Some sample_ptr) 11 sample_heap
  = Some (None, sample_heap).
Proof.
  assert (is_Some (infos sample_heap !! sample_ptr)) as H1 by compute_done.
  assert (¬ (0 ≤ 11 < hdr_seq_max sample)) as H2 by (vm_compute; intros [_ ?]; done).
  destruct (C10_queries_out_of_range sample sample_heap sample_ptr 11 H1 H2)
    as (H3 & H4 & _).
  split_and!; [exact H1|exact H2|exact H3|exact H4].
Defined.

(** * Further properties of the code *)

(** ** Which templates the compiler takes *)


(** X1.  [chafa_term_info_set_seq] takes a string of the caller's for a
    kind exactly when the string is a well-formed template (every [%] is
    followed by [%] or by a digit 1 to 8), every placeholder names an
    argument the kind has, there are fewer than eight placeholders, and the
    literal bytes plus the placeholders times the width per argument plus
    one do not exceed CHAFA_TERM_SEQ_LENGTH_MAX.  It then sets no error, and
    the kind is reported present.  This is so in a table of kinds no longer
    than a row, for a string that the local array of the function holds as
    far as the scan stores it. *)
Theorem X1_set_seq_accepts_exactly hdr stack h p seq s :
  term_info_ok hdr h p → 0 ≤ seq < hdr_seq_max hdr →
  hdr_seq_max hdr ≤ hdr_seq_length_max hdr →
  local_holds hdr (Z.of_nat (length s)) →
  ∃ r e h',
    chafa_term_info_set_seq hdr stack (Some p) seq (Some (own s)) h
    = Some ((r, e), h') ∧
    (r = true ↔
     ∃ toks, tokens s = Some toks ∧
       indexes_below (def_n_args (hdr_seq_def hdr seq)) toks ∧
       Z.of_nat (length (placeholders toks)) < 8 ∧
       Z.of_nat (length (literals toks))
       + Z.of_nat (length (placeholders toks)) * arg_width (hdr_seq_def hdr seq)
       + 1 ≤ hdr_seq_length_max hdr) ∧
    (r = true →
     e = None ∧
     chafa_term_info_have_seq hdr (Some p) seq h' = Some (true, h')).
Proof.
  intros Hok Hseq Hrows Hholds.
  pose proof (arg_width_range (hdr_seq_def hdr seq)) as Hw.
  assert (pr_oob (compile_of hdr stack seq s) = false) as Hoob.
  { apply (compile_holds hdr stack seq s _ Hholds). left. lia. }
  destruct (pr_result (compile_of hdr stack seq s)) eqn:Hres.
  - assert (∃ toks, tokens s = Some toks ∧
              indexes_below (def_n_args (hdr_seq_def hdr seq)) toks ∧
              Z.of_nat (length (placeholders toks)) < 8 ∧
              Z.of_nat (length (literals toks))
              + Z.of_nat (length (placeholders toks)) * arg_width (hdr_seq_def hdr seq)
              + 1 ≤ hdr_seq_length_max hdr) as Hacc.
    { unfold compile_of in Hres. rewrite arg_len_max_width in Hres.
      by apply parse_seq_args_accepted in Hres; [|lia]. }
    destruct (set_seq_accepts hdr stack h p seq s Hok Hseq Hrows Hoob Hres)
      as (h' & l & Hset & _ & Hhave & _).
    destruct Hacc as (toks & Htoks & Hidx & Hk & Htot).
    pose proof (compile_accepts hdr stack seq s toks Htoks Hidx Hk Htot) as Hc.
    cbv zeta in Hc. rewrite Hc in Hset. cbn [pr_error] in Hset.
    exists true, None, h'. split; [exact Hset|]. split; [|done].
    split; [|done]. intros _. by exists toks.
  - exists false, (pr_error (compile_of hdr stack seq s)), h.
    split; [by apply set_seq_rejects|]. split; [|done]. split; [done|].
    intros (toks & Htoks & Hidx & Hk & Htot).
    pose proof (compile_accepts hdr stack seq s toks Htoks Hidx Hk Htot) as Hc.
    cbv zeta in Hc. by rewrite Hc in Hres.
Qed.

Lemma X1_witness :
  let s := ESC :: chars "[%1;%2m" in
  term_info_ok sample sample_heap sample_ptr ∧ 0 ≤ 5 < hdr_seq_max sample ∧
  ∃ h', chafa_term_info_set_seq sample [] (Some sample_ptr) 5 (Some (own s))
          sample_heap
        = Some ((true, None), h') ∧
        chafa_term_info_have_seq sample (Some sample_ptr) 5 h' = Some (true, h').
Proof.
  intros s. split; [compute_done|]. split; [compute_done|].
  destruct (X1_set_seq_accepts_exactly sample [] sample_heap sample_ptr 5 s)
    as (r & e & h' & Hset & Hiff & Hacc).
  - compute_done.
  - compute_done.
  - compute_done.
  - compute_done.
  - assert (r = true) as Hr.
    { apply Hiff.
      exists [TLit ESC; TLit "["%char; TArg 0; TLit ";"%char; TArg 1; TLit "m"%char].
      split; [reflexivity|]. split; [compute_done|]. split; compute_done. }
    destruct (Hacc Hr) as [He Hhave]. subst r e. by exists h'.
Defined.

(** X2.  A well-formed template with eight placeholders or more, each for
    an argument the kind has, and with fewer literal bytes than
    CHAFA_TERM_SEQ_LENGTH_MAX and no more than the local array of
    [chafa_term_info_set_seq] holds, is rejected with the bad-arguments
    error, and the heap is left as it is. *)
Theorem X2_eight_placeholders_rejected hdr stack h p seq s toks :
  term_info_ok hdr h p → 0 ≤ seq < hdr_seq_max hdr →
  tokens s = Some toks →
  indexes_below (def_n_args (hdr_seq_def hdr seq)) toks →
  8 ≤ Z.of_nat (length (placeholders toks)) →
  Z.of_nat (length (literals toks)) < hdr_seq_length_max hdr →
  Z.of_nat (length (literals toks)) ≤ hdr_seq_max hdr →
  chafa_term_info_set_seq hdr stack (Some p) seq (Some (own s)) h
  = Some ((false, Some CHAFA_TERM_INFO_ERROR_BAD_ARGUMENTS), h).
Proof.
  intros Hok Hseq Htoks Hidx Hmany Hlits Hfit.
  assert (pr_result (compile_of hdr stack seq s) = false ∧
          pr_error (compile_of hdr stack seq s)
          = Some CHAFA_TERM_INFO_ERROR_BAD_ARGUMENTS) as [Hr He].
  { unfold compile_of. rewrite parse_seq_args_unfold.
    destruct (parse_loop_eighth hdr (n_args (seq_meta hdr seq)) s
                (scan_start (resize (Z.to_nat (hdr_seq_max hdr)) NUL stack)) toks)
      as (st' & -> & Hk); [done|done|simpl; lia|simpl; lia|simpl; lia|].
    rewrite Hk. done. }
  rewrite <- He. apply (set_seq_rejects hdr stack h p seq s Hok Hseq); [|done].
  apply (compile_holds hdr stack seq s (Z.of_nat (length (literals toks)))).
  - unfold local_holds. lia.
  - right. by exists toks.
Qed.

Lemma X2_witness :
  term_info_ok sample sample_heap sample_ptr ∧
  chafa_term_info_set_seq sample [] (Some sample_ptr) 1
    (Some (own (chars "%1%1%1%1%1%1%1%1"))) sample_heap
  = Some ((false, Some CHAFA_TERM_INFO_ERROR_BAD_ARGUMENTS), sample_heap).
Proof.
  split; [compute_done|].
  apply (X2_eight_placeholders_rejected sample [] sample_heap sample_ptr 1
           (chars "%1%1%1%1%1%1%1%1") (replicate 8 (TArg 0))).
  - compute_done.
  - compute_done.
  - reflexivity.
  - compute_done.
  - compute_done.
  - compute_done.
  - compute_done.
Defined.

(** X3.  A [%] that is followed by neither [%] nor a digit 1 to 8, the end
    of the string included, makes [chafa_term_info_set_seq] return FALSE
    and leave the heap as it is, when what precedes that [%] is well-formed
    and the local array of the function holds its literal bytes as far as
    the scan stores them.  When what precedes also names arguments the kind
    has, and holds fewer literal bytes than CHAFA_TERM_SEQ_LENGTH_MAX and
    fewer than eight placeholders, no error is set. *)
Theorem X3_undefined_escape hdr stack h p seq pre rest tp :
  term_info_ok hdr h p → 0 ≤ seq < hdr_seq_max hdr →
  tokens pre = Some tp → NUL ∉ pre →
  match rest with
  | [] => True
  | c :: _ => c ≠ PERCENT ∧ is_arg_digit c = false
  end →
  local_holds hdr (Z.of_nat (length (literals tp))) →
  ∃ e,
    chafa_term_info_set_seq hdr stack (Some p) seq
      (Some (own (pre ++ PERCENT :: rest))) h
    = Some ((false, e), h) ∧
    (indexes_below (def_n_args (hdr_seq_def hdr seq)) tp →
     Z.of_nat (length (literals tp)) < hdr_seq_length_max hdr →
     Z.of_nat (length (placeholders tp)) < 8 → e = None).
Proof.
  intros Hok Hseq Htp Hnul Hrest Hholds.
  pose proof (arg_width_range (hdr_seq_def hdr seq)) as Hw.
  assert (pr_result (compile_of hdr stack seq (pre ++ PERCENT :: rest)) = false ∧
          (indexes_below (def_n_args (hdr_seq_def hdr seq)) tp →
           Z.of_nat (length (literals tp)) < hdr_seq_length_max hdr →
           Z.of_nat (length (placeholders tp)) < 8 →
           pr_error (compile_of hdr stack seq (pre ++ PERCENT :: rest)) = None))
    as [Hr He].
  { unfold compile_of. rewrite arg_len_max_width. destruct rest as [|c post].
    - apply parse_dangling_percent; [done|done|lia].
    - destruct Hrest as [Hc Hd]. apply parse_bad_escape; [done|done|lia|done|done]. }
  eexists. split; [|exact He].
  apply (set_seq_rejects hdr stack h p seq _ Hok Hseq); [|done].
  apply (compile_stuck_holds hdr stack seq pre rest tp Htp Hnul); [|done].
  destruct rest as [|c post]; [done|]. destruct Hrest as [Hc Hd]. split; [done|by left].
Qed.

Lemma X3_witness :
  term_info_ok sample sample_heap sample_ptr ∧
  chafa_term_info_set_seq sample [] (Some sample_ptr) 1 (Some (own (chars "ab%")))
    sample_heap
  = Some ((false, None), sample_heap).
Proof.
  split; [compute_done|].
  destruct (X3_undefined_escape sample [] sample_heap sample_ptr 1 (chars "ab") []
              [TLit "a"%char; TLit "b"%char]) as (e & Hset & He).
  - compute_done.
  - compute_done.
  - reflexivity.
  - compute_done.
  - exact I.
  - compute_done.
  - rewrite He in Hset; [exact Hset|compute_done|compute_done|compute_done].
Defined.

(** ** Templates without placeholders *)

Lemma run_tokens_arg_info_length toks : ∀ st,
  length (st_arg_info (run_tokens toks st)) = length (st_arg_info st).
Proof.
  induction toks as [|[c|i] toks IH]; intros st; [done| |];
    rewrite run_tokens_cons, IH; cbn [step_token put_literal next_arg put_arg
                                        st_arg_info]; [done|].
  by rewrite length_insert.
Qed.

Section NoPlaceholder.

Variable hdr : Headers.
Variable past : Z.

(** The generic emitter leaves at once when the first slot is the
    sentinel, for every entry point that has arguments. *)
Lemma emit_sentinel_first ti dest seq args a :
  def_n_args (hdr_seq_def hdr seq) ≠ 0 →
  (seq_args ti !!! Z.to_nat seq) !! 0%nat = Some a →
  arg_index a = ARG_INDEX_SENTINEL →
  chafa_term_info_emit hdr past ti dest seq args = Done dest.
Proof.
  intros Hn Ha Hs. destruct dest as [mem out].
  assert (∀ fmt vals k,
            EMIT_SEQ_DEF past fmt ti (mem, out) seq vals k = Done (mem, out)) as Hdef.
  { intros fmt vals k. unfold EMIT_SEQ_DEF.
    rewrite (list_lookup_total_correct _ _ _ Ha), Hs. done. }
  unfold chafa_term_info_emit.
  destruct (hdr_seq_def hdr seq); try (simpl in Hn; lia); apply Hdef.
Qed.

End NoPlaceholder.

(** X4.  A well-formed template without a placeholder, set for a kind that
    has arguments: it is accepted when its bytes and one more do not exceed
    CHAFA_TERM_SEQ_LENGTH_MAX, and the kind is then reported present; but
    emitting the kind stores nothing and returns the cursor it was given,
    whatever the arguments.  The template has no more bytes than the local
    array of [chafa_term_info_set_seq], and the table of kinds is no longer
    than a row. *)
Theorem X4_no_placeholder_emits_nothing hdr past stack h p seq s toks :
  term_info_ok hdr h p → 0 ≤ seq < hdr_seq_max hdr →
  hdr_seq_max hdr ≤ hdr_seq_length_max hdr →
  def_n_args (hdr_seq_def hdr seq) ≠ 0 →
  tokens s = Some toks → placeholders toks = [] →
  Z.of_nat (length (literals toks)) + 1 ≤ hdr_seq_length_max hdr →
  Z.of_nat (length (literals toks)) ≤ hdr_seq_max hdr →
  ∃ h' ti',
    chafa_term_info_set_seq hdr stack (Some p) seq (Some (own s)) h
    = Some ((true, None), h') ∧
    infos h' !! p = Some ti' ∧
    chafa_term_info_have_seq hdr (Some p) seq h' = Some (true, h') ∧
    ∀ dest args, chafa_term_info_emit hdr past ti' dest seq args = Done dest.
Proof.
  intros Hok Hseq Hrows Hn Htoks Hph Hlen Hfit.
  pose proof Hok as (ti & Hti & Hwf & Hlive)%term_info_ok_inv.
  pose proof (arg_width_range (hdr_seq_def hdr seq)) as Hw.
  rewrite (set_seq_template hdr stack h p ti seq s Hti Hwf Hlive Hseq). cbv zeta.
  unfold compile_of. rewrite arg_len_max_width.
  set (out := resize (Z.to_nat (hdr_seq_max hdr)) NUL stack).
  destruct (parse_seq_args_verdict hdr out s (n_args (seq_meta hdr seq))
              (arg_width (hdr_seq_def hdr seq)) toks Htoks) as [_ Hacc].
  { unfold indexes_below. rewrite Hph. constructor. }
  { rewrite Hph. simpl. lia. }
  { lia. }
  cbv zeta in Hacc. rewrite Hacc by (rewrite Hph; simpl; lia). clear Hacc.
  cbn [pr_result pr_error pr_out pr_arg_info pr_oob].
  unfold out at 1. rewrite run_tokens_oob, length_resize.
  destruct (Z.ltb_spec (Z.of_nat (Z.to_nat (hdr_seq_max hdr)))
              (Z.of_nat (length (literals toks)))) as [?|_]; [lia|].
  rewrite bool_decide_eq_true_2 by done.
  destruct (wf_info_row_length hdr ti seq Hwf Hseq) as [Hrl Hal].
  destruct Hwf as (Hw1 & Hw2 & Hw3 & Hw4 & Hw5).
  do 2 eexists. split; [done|]. split; [apply lookup_insert_eq|]. split.
  - erewrite have_seq_in_range; [|apply lookup_insert_eq|done].
    cbn [unparsed_str]. rewrite list_lookup_total_insert_eq; [done|lia].
  - intros dest args.
    apply (emit_sentinel_first hdr past _ dest seq args
             (sentinel (to_guint8 (st_pre_len (run_tokens toks (scan_start out))))));
      [done| |done].
    cbn [seq_args]. unfold set_row. rewrite list_lookup_total_insert_eq by lia.
    rewrite run_tokens_k, Hph. cbn [scan_start st_k length].
    destruct (parse_seq_args_lengths hdr out s (n_args (seq_meta hdr seq))
                (arg_width (hdr_seq_def hdr seq))) as [_ Hla].
    assert (length (st_arg_info (run_tokens toks (scan_start out)))
            = Z.to_nat CHAFA_TERM_SEQ_ARGS_MAX) as Hl8.
    { rewrite run_tokens_arg_info_length. cbn [scan_start st_arg_info]. apply length_replicate. }
    rewrite copied_whole; [| |done].
    + apply list_lookup_insert_eq. rewrite Hl8. unfold CHAFA_TERM_SEQ_ARGS_MAX. lia.
    + by rewrite length_insert.
Qed.

Lemma X4_witness :
  term_info_ok sample sample_heap sample_ptr ∧
  ∃ h' ti',
    chafa_term_info_set_seq sample [] (Some sample_ptr) 1
      (Some (own (chars "abc"))) sample_heap = Some ((true, None), h') ∧
    infos h' !! sample_ptr = Some ti' ∧
    chafa_term_info_have_seq sample (Some sample_ptr) 1 h' = Some (true, h') ∧
    chafa_term_info_emit sample 0 ti' (chars "....", 0) 1 [5]
    = Done (chars "....", 0).
Proof.
  split; [compute_done|].
  destruct (X4_no_placeholder_emits_nothing sample 0 [] sample_heap sample_ptr 1
              (chars "abc") [TLit "a"%char; TLit "b"%char; TLit "c"%char])
    as (h' & ti' & Hset & Hti & Hhave & Hemit).
  - compute_done.
  - compute_done.
  - compute_done.
  - compute_done.
  - reflexivity.
  - reflexivity.
  - compute_done.
  - compute_done.
  - exists h', ti'. split; [exact Hset|]. split; [exact Hti|].
    split; [exact Hhave|]. apply Hemit.
Defined.

(** ** The bytes an emission touches *)

Lemma store_window mem p c mem' (lo hi : nat) :
  store mem p c = Done mem' → (lo ≤ Z.to_nat p)%nat → (Z.to_nat p < hi)%nat →
  length mem' = length mem ∧ take lo mem' = take lo mem ∧ drop hi mem' = drop hi mem.
Proof.
  unfold store. case_bool_decide; [|done]. intros [= <-] Hlo Hhi.
  rewrite length_insert, take_insert_ge, drop_insert_lt by lia. done.
Qed.

Lemma store_bytes_window bs : ∀ mem p mem' (lo hi : nat),
  store_bytes mem p bs = Done mem' → 0 ≤ p →
  (lo ≤ Z.to_nat p)%nat → (Z.to_nat p + length bs ≤ hi)%nat →
  length mem' = length mem ∧ take lo mem' = take lo mem ∧ drop hi mem' = drop hi mem.
Proof.
  induction bs as [|b bs IH]; intros mem p mem' lo hi Hs Hp Hlo Hhi.
  - by injection Hs as <-.
  - cbn [store_bytes] in Hs. destruct (store mem p b) as [mem1|] eqn:H1; [|done].
    cbn [mbind outcome_bind] in Hs. cbn [length] in Hhi.
    destruct (store_window _ _ _ _ lo hi H1) as (Hl1 & Ht1 & Hd1); [lia|lia|].
    destruct (IH _ _ _ lo hi Hs) as (Hl2 & Ht2 & Hd2); [lia|lia|lia|].
    split_and!; congruence.
Qed.

Lemma copy_bytes_window mem out src in_ n mem' (lo hi : nat) :
  copy_bytes mem out src in_ n = Done mem' → 0 ≤ out → 0 ≤ n →
  (lo ≤ Z.to_nat out)%nat → (Z.to_nat out + Z.to_nat (Z.max 1 n) ≤ hi)%nat →
  length mem' = length mem ∧ take lo mem' = take lo mem ∧ drop hi mem' = drop hi mem.
Proof.
  unfold copy_bytes. intros Hc Hout Hn Hlo Hhi.
  destruct (copy_bytes_loop_as_store (Z.to_nat (n - 1)) mem out src in_)
    as (bs & Hbs & Heq).
  rewrite Heq in Hc. apply (store_bytes_window bs mem out); [done|done|done|lia].
Qed.

Lemma format_window mem out v mem' out' (lo hi : nat) :
  chafa_format_dec_uint_0_to_9999 mem out v = Done (mem', out') → 0 ≤ out →
  (lo ≤ Z.to_nat out)%nat →
  (Z.to_nat out + length (dec_digits v) ≤ hi)%nat →
  out' = out + Z.of_nat (length (dec_digits v)) ∧
  length mem' = length mem ∧ take lo mem' = take lo mem ∧ drop hi mem' = drop hi mem.
Proof.
  unfold chafa_format_dec_uint_0_to_9999. intros Hf Hout Hlo Hhi.
  destruct (store_bytes mem out (dec_digits v)) as [mem1|] eqn:Hs; [|done].
  cbn [mbind outcome_bind] in Hf. injection Hf as <- <-. split; [done|].
  by apply (store_bytes_window (dec_digits v) mem out).
Qed.

Section Window.

Variable past : Z.

(** The loop of the emitter stores between the cursor it starts at and the
    cursor it ends at, and nowhere else. *)
Lemma emit_seq_loop_window todo row slots args (lo hi : nat) :
  ∀ mem out ofs i mem' out' ofs' i',
  emit_seq_loop past todo row slots args mem out ofs i
  = Done (mem', out', ofs', i') →
  (∀ k, 0 ≤ pre_len (slots !!! k)) → 0 ≤ out → (lo ≤ Z.to_nat out)%nat →
  (Z.to_nat (out + loop_advance past todo slots args i) ≤ hi)%nat →
  out' = out + loop_advance past todo slots args i ∧ i' = i + Z.of_nat todo ∧
  length mem' = length mem ∧ take lo mem' = take lo mem ∧ drop hi mem' = drop hi mem.
Proof.
  induction todo as [|todo IH]; intros mem out ofs i mem' out' ofs' i' He Hpre Hout Hlo Hhi.
  - injection He as <- <- <- <-. simpl. split_and!; try done; lia.
  - cbn [emit_seq_loop loop_advance] in *.
    set (a := slots !!! Z.to_nat i) in *.
    pose proof (Hpre (Z.to_nat i)) as Hn. fold a in Hn.
    pose proof (dec_digits_length (nth_arg past args (arg_index a))) as Hd.
    pose proof (loop_advance_nonneg past todo slots args (i + 1) Hpre) as Hrest.
    destruct (copy_bytes mem out row ofs (pre_len a)) as [mem1|] eqn:Hc; [|done].
    cbn [mbind outcome_bind] in He.
    destruct (chafa_format_dec_uint_0_to_9999 mem1 (out + pre_len a)
                (nth_arg past args (arg_index a))) as [[mem2 out2]|] eqn:Hf; [|done].
    cbn [mbind outcome_bind] in He.
    destruct (copy_bytes_window _ _ _ _ _ _ lo hi Hc) as (Hl1 & Ht1 & Hd1);
      [done|done|done|lia|].
    destruct (format_window _ _ _ _ _ lo hi Hf) as (-> & Hl2 & Ht2 & Hd2);
      [lia|lia|lia|].
    destruct (IH _ _ _ _ _ _ _ _ He) as (-> & -> & Hl3 & Ht3 & Hd3);
      [done|lia|lia|lia|].
    split_and!; [lia|lia|congruence..].
Qed.

(** How far the loop moves the cursor over slots that stand for the runs
    and arguments [segs]. *)
Lemma loop_advance_segs slots args : ∀ segs i,
  0 ≤ i →
  (∀ m seg, segs !! m = Some seg →
            slots !! (Z.to_nat i + m)%nat = Some (slot_of seg)) →
  Forall (λ seg, 0 ≤ seg.2 < Z.of_nat (length args)) segs →
  loop_advance past (length segs) slots args i
  = Z.of_nat (length (concat (expand_segment args <$> segs))).
Proof.
  induction segs as [|seg segs IH]; intros i Hi Hslots Hidx; [done|].
  apply Forall_cons in Hidx as [Hseg Hidx].
  cbn [length loop_advance fmap list_fmap concat].
  pose proof (Hslots 0%nat seg eq_refl) as H0. rewrite Nat.add_0_r in H0.
  rewrite (list_lookup_total_correct _ _ _ H0).
  rewrite IH; [|lia| |done].
  - change (expand_segment args seg)
      with (seg.1 ++ dec_digits (nth (Z.to_nat seg.2) args 0)).
    rewrite !length_app. cbn [slot_of pre_len arg_index]. unfold nth_arg.
    rewrite (nth_indep args past 0) by lia. lia.
  - intros m sg Hm. replace (Z.to_nat (i + 1) + m)%nat with (Z.to_nat i + S m)%nat by lia.
    by apply Hslots.
Qed.

End Window.

Lemma expand_segments_bound (vals : list Z) (w : nat) segs :
  Forall (λ seg : list gchar * Z,
            (length (dec_digits (nth (Z.to_nat seg.2) vals 0%Z)) ≤ w)%nat) segs →
  (length (concat (expand_segment vals <$> segs))
   ≤ length (concat segs.*1) + length segs * w)%nat.
Proof.
  induction 1 as [|seg segs Hseg _ IH]; [done|].
  cbn [fmap list_fmap concat length].
  change (expand_segment vals seg)
    with (seg.1 ++ dec_digits (nth (Z.to_nat seg.2) vals 0)).
  rewrite !length_app. lia.
Qed.

Section Within.

Variable hdr : Headers.
Variable past : Z.

(** The slots of a kind after its template was accepted: one for each
    placeholder, then the sentinel; no slot has a negative length. *)
Lemma slots_after_set_seq stack h p ti seq str s e h' toks :
  hdr_seq_length_max hdr ≤ 256 →
  infos h !! p = Some ti → wf_info hdr ti → Forall (ptr_live h) (unparsed_str ti) →
  read_str str h = Some s →
  chafa_term_info_set_seq hdr stack (Some p) seq (Some str) h = Some ((true, e), h') →
  tokens s = Some toks →
  ∃ ti' segs trail,
    infos h' !! p = Some ti' ∧ segments [] toks = (segs, trail) ∧
    indexes_below (def_n_args (hdr_seq_def hdr seq)) toks ∧
    Z.of_nat (length (placeholders toks)) < 8 ∧
    Z.of_nat (length (literals toks))
    + Z.of_nat (length (placeholders toks)) * arg_width (hdr_seq_def hdr seq) + 1
    ≤ hdr_seq_length_max hdr ∧
    (∀ n seg, segs !! n = Some seg →
       (seq_args ti' !!! Z.to_nat seq) !! n = Some (slot_of seg)) ∧
    (seq_args ti' !!! Z.to_nat seq) !! length segs
    = Some (sentinel (Z.of_nat (length trail))) ∧
    (∀ k, 0 ≤ pre_len ((seq_args ti' !!! Z.to_nat seq) !!! k)).
Proof.
  intros HLM Hti Hwf Hlive Hstr Hset Htoks.
  destruct (set_seq_accepted hdr stack h p ti seq str s e h' Hti Hwf Hlive Hstr Hset)
    as (Hseq & Hrows & _ & Hres & -> & ->).
  unfold compile_of in Hres |- *. rewrite arg_len_max_width in Hres |- *.
  pose proof (arg_width_range (hdr_seq_def hdr seq)) as Hw.
  destruct (parse_seq_args_accepted _ _ _ _ _ Hres ltac:(lia))
    as (toks' & Htoks' & Hidx & Hk & Htot).
  assert (toks' = toks) as -> by congruence.
  destruct (parse_seq_args_verdict hdr (resize (Z.to_nat (hdr_seq_max hdr)) NUL stack) s
              (n_args (seq_meta hdr seq)) (arg_width (hdr_seq_def hdr seq))
              toks Htoks Hidx Hk ltac:(lia)) as [_ Hacc].
  cbv zeta in Hacc. rewrite (Hacc Htot). clear Hacc.
  destruct (segments [] toks) as [segs trail] eqn:Hsegs.
  destruct (segments_spec [] toks [] segs trail Hsegs) as (Hlits & _ & Hph).
  simpl in Hlits.
  set (st0 := scan_start (resize (Z.to_nat (hdr_seq_max hdr)) NUL stack)).
  destruct (run_tokens_slots toks st0 [] segs trail Hsegs) as (Hpre & Hlen & Hslot & Hrest);
    try done.
  { by eapply tokens_indexes. }
  { simpl. lia. }
  { simpl. rewrite <- (length_fmap snd segs), <- Hph. lia. }
  destruct (wf_info_row_length hdr ti seq Hwf Hseq) as [Hrl Hal].
  destruct Hwf as (Hw1 & Hw2 & Hw3 & Hw4 & Hw5).
  eexists _, segs, trail. split; [apply lookup_insert_eq|].
  split; [done|]. split; [done|]. split; [done|]. split; [done|].
  cbn [seq_args pr_arg_info]. unfold set_row.
  rewrite !list_lookup_total_insert_eq by lia.
  rewrite run_tokens_k. cbn [st_k st0 scan_start]. rewrite Z.add_0_l, Nat2Z.id.
  assert (length (placeholders toks) = length segs) as Hks
    by (by rewrite Hph, length_fmap).
  rewrite copied_whole; [| |done].
  2:{ rewrite length_insert, Hlen. done. }
  rewrite Hpre, to_guint8_small.
  2:{ assert (length trail ≤ length (literals toks))%nat
        by (rewrite Hlits, length_app; lia). lia. }
  cbn [st0 scan_start st_arg_info st_k] in Hlen, Hslot, Hrest.
  rewrite length_replicate in Hlen.
  change (Z.to_nat 0) with 0%nat in Hslot, Hrest.
  assert (∀ n seg, segs !! n = Some seg →
            <[length (placeholders toks) := sentinel (Z.of_nat (length trail))]>
              (st_arg_info (run_tokens toks st0)) !! n = Some (slot_of seg)) as H1.
  { intros n seg Hn. rewrite list_lookup_insert_ne.
    - by apply (Hslot n seg).
    - apply lookup_lt_Some in Hn. lia. }
  assert (<[length (placeholders toks) := sentinel (Z.of_nat (length trail))]>
            (st_arg_info (run_tokens toks st0)) !! length segs
          = Some (sentinel (Z.of_nat (length trail)))) as H2.
  { rewrite Hks. apply list_lookup_insert_eq. rewrite Hlen.
    unfold CHAFA_TERM_SEQ_ARGS_MAX. lia. }
  split_and!; [done|done|].
  intros k. rewrite list_lookup_total_alt.
  destruct (decide (k < length segs)%nat) as [Hlt|Hge].
  - destruct (lookup_lt_is_Some_2 segs k Hlt) as [seg Hseg].
    rewrite (H1 k seg Hseg). simpl. lia.
  - destruct (decide (k = length segs)) as [->|Hne].
    + rewrite H2. simpl. lia.
    + rewrite list_lookup_insert_ne by lia. rewrite Hrest by lia.
      destruct (decide (k < Z.to_nat CHAFA_TERM_SEQ_ARGS_MAX)%nat).
      * by rewrite lookup_replicate_2.
      * rewrite lookup_ge_None_2; [done|]. rewrite length_replicate. lia.
Qed.

End Within.

(** X5.  The emission of a kind right after its template was accepted stays
    within CHAFA_TERM_SEQ_LENGTH_MAX bytes from the cursor whenever the
    template has at least as many placeholders as the kind has arguments:
    the call returns, with a cursor less than CHAFA_TERM_SEQ_LENGTH_MAX
    bytes on, for arguments in the range the entry point carries through
    and a buffer with CHAFA_TERM_SEQ_LENGTH_MAX bytes from the cursor on. *)
Theorem X5_emit_within_bounds hdr past stack h p seq str s e h' toks args mem out :
  hdr_seq_length_max hdr ≤ 256 →
  term_info_ok hdr h p →
  read_str str h = Some s →
  chafa_term_info_set_seq hdr stack (Some p) seq (Some str) h = Some ((true, e), h') →
  tokens s = Some toks →
  def_n_args (hdr_seq_def hdr seq) ≤ Z.of_nat (length (placeholders toks)) →
  in_range (hdr_seq_def hdr seq) args →
  0 ≤ out → out + hdr_seq_length_max hdr ≤ Z.of_nat (length mem) →
  ∃ ti' mem' out',
    infos h' !! p = Some ti' ∧
    chafa_term_info_emit hdr past ti' (mem, out) seq args = Done (mem', out') ∧
    out ≤ out' < out + hdr_seq_length_max hdr ∧
    length mem' = length mem.
Proof.
  intros HLM (ti & Hti & Hwf & Hlive)%term_info_ok_inv Hstr Hset Htoks Hcount Hrange
    Hout Hroom.
  destruct (slots_after_set_seq hdr stack h p ti seq str s e h' toks)
    as (ti' & segs & trail & Hti' & Hsegs & Hidx & Hk & Htot & Hslots & Hsent & Hpre);
    try done.
  set (m := hdr_seq_def hdr seq) in *.
  set (vals := passed m args) in *.
  set (slots := seq_args ti' !!! Z.to_nat seq) in *.
  set (row := seq_str ti' !!! Z.to_nat seq).
  destruct (segments_spec vals toks [] segs trail Hsegs) as (Hlits & _ & Hph).
  simpl in Hlits.
  destruct (passed_range m args Hrange) as [Hvlen Hvals]. fold vals in Hvlen, Hvals.
  pose proof Hrange as [Hargs _].
  pose proof (arg_width_range m) as Hw.
  pose proof (def_n_args_range m) as Hn07. unfold CHAFA_TERM_SEQ_ARGS_MAX in Hn07.
  assert (length (placeholders toks) = length segs) as Hks
    by (by rewrite Hph, length_fmap).
  set (kn := Z.to_nat (def_n_args m)).
  set (segsn := take kn segs).
  assert (length segsn = kn) as Hlsn by (unfold segsn; rewrite length_take; lia).
  assert (Forall (λ seg, 0 ≤ seg.2 < def_n_args m) segs) as Hsegidx.
  { pose proof (tokens_indexes s toks Htoks) as H07.
    unfold indexes_below in Hidx. rewrite Hph in Hidx, H07.
    rewrite Forall_fmap in Hidx, H07. rewrite Forall_forall in *.
    intros seg Hin. specialize (Hidx seg Hin). specialize (H07 seg Hin).
    simpl in *. lia. }
  assert (Forall (λ seg, 0 ≤ seg.2 < Z.of_nat (length vals)) segsn) as Hinn.
  { unfold segsn. apply Forall_take. eapply Forall_impl; [exact Hsegidx|].
    simpl. intros seg ?. lia. }
  set (f := pre_len (slots !!! kn)).
  assert (0 ≤ f ∧
          (length (concat segsn.*1) + Z.to_nat f ≤ length (literals toks))%nat)
    as [Hf0 Hfl].
  { split; [apply Hpre|]. unfold f. rewrite Hlits, length_app.
    destruct (decide (kn < length segs)%nat) as [Hlt|Hge].
    - destruct (lookup_lt_is_Some_2 segs kn Hlt) as [seg Hseg].
      rewrite (list_lookup_total_correct _ _ _ (Hslots kn seg Hseg)).
      rewrite <- (take_drop_middle segs kn seg Hseg). fold segsn.
      rewrite fmap_app, concat_app, length_app, fmap_cons. cbn [concat].
      rewrite length_app. cbn [slot_of pre_len]. lia.
    - assert (kn = length segs) as Hkn by lia.
      unfold segsn. rewrite take_ge by lia. rewrite Hkn.
      rewrite (list_lookup_total_correct _ _ _ Hsent). cbn [sentinel pre_len]. lia. }
  set (adv := Z.of_nat (length (concat (expand_segment vals <$> segsn)))).
  assert (adv + f + 1 ≤ hdr_seq_length_max hdr) as Hbound.
  { pose proof (expand_segments_bound vals (Z.to_nat (arg_width m)) segsn) as Hle.
    assert (length (concat (expand_segment vals <$> segsn))
            ≤ length (concat segsn.*1) + length segsn * Z.to_nat (arg_width m))%nat
      as Hle'.
    { apply Hle. eapply Forall_impl; [exact Hinn|]. simpl. intros seg Hseg.
      assert (nth (Z.to_nat seg.2) vals 0 ∈ vals) as Hv
        by (apply list_elem_of_In, nth_In; lia).
      rewrite Forall_forall in Hvals.
      pose proof (digits_within_width m _ (Hvals _ Hv)). lia. }
    unfold adv. nia. }
  assert (∀ mem1 cur,
            0 ≤ cur → cur + f + 1 ≤ out + hdr_seq_length_max hdr →
            length mem1 = length mem → out ≤ cur →
            ∃ mem2, copy_bytes mem1 cur row (cur - out - adv) f = Done mem2 ∧
              length mem2 = length mem1 ∧
              take (Z.to_nat out) mem2 = take (Z.to_nat out) mem1 ∧
              drop (Z.to_nat (out + hdr_seq_length_max hdr)) mem2
              = drop (Z.to_nat (out + hdr_seq_length_max hdr)) mem1) as Hlast.
  { intros mem1 cur Hc0 Hc1 Hl1 Hc2.
    destruct (copy_bytes_fits mem1 cur row (cur - out - adv) f) as (mem2 & Hcb & Hl2);
      [done|done|lia|].
    exists mem2. split; [done|].
    apply (copy_bytes_window _ _ _ _ _ _ _ _ Hcb); [done|done|lia|lia]. }
  exists ti'.
  destruct (decide (def_n_args m = 0)) as [Hn0|Hn0].
  - assert (kn = 0%nat) as Hkn0 by (unfold kn; lia).
    assert (adv = 0) as Hadv0.
    { unfold adv, segsn. by rewrite Hkn0. }
    destruct (Hlast mem out) as (mem2 & Hcb & Hl2 & Ht2 & Hd2); [done|lia|done|done|].
    rewrite Hadv0 in Hcb. replace (out - out - 0) with 0 in Hcb by lia.
    exists mem2, (out + f). split; [done|]. split.
    2:{ split_and!; [lia|lia|done]. }
    unfold chafa_term_info_emit. fold m.
    destruct m; try (simpl in Hn0; lia).
    unfold emit_0_none_void, emit_seq_0_args_uint. fold slots row.
    unfold f in Hcb |- *. rewrite Hkn0 in Hcb |- *. by rewrite Hcb.
  - destruct (chafa_term_info_emit_generic hdr past ti' (mem, out) seq args)
      as [fmt ->]; [done|done|].
    fold m vals. unfold EMIT_SEQ_DEF. fold slots row.
    assert (∃ seg0, segs !! 0%nat = Some seg0) as [seg0 Hseg0].
    { apply lookup_lt_is_Some_2. lia. }
    rewrite (list_lookup_total_correct _ _ _ (Hslots 0%nat seg0 Hseg0)).
    assert ((arg_index (slot_of seg0) =? ARG_INDEX_SENTINEL) = false) as ->.
    { pose proof (Forall_lookup_1 _ _ _ _ Hsegidx Hseg0) as H0. simpl in H0.
      cbn [slot_of arg_index]. unfold ARG_INDEX_SENTINEL. lia. }
    fold kn. rewrite <- Hlsn.
    assert (loop_advance past (length segsn) slots vals 0 = adv) as Hadv.
    { apply loop_advance_segs; [done| |done].
      intros k seg Hseg. apply Hslots. unfold segsn in Hseg.
      by apply lookup_take_Some in Hseg as [? _]. }
    destruct (emit_seq_loop_fits past (length segsn) row slots vals mem out 0 0)
      as (mem1 & ofs' & Hloop & Hl1); [done|done|rewrite Hadv; lia|].
    rewrite Hloop. rewrite outcome_bind_Done. cbv iota beta.
    destruct (emit_seq_loop_window past (length segsn) row slots vals
                (Z.to_nat out) (Z.to_nat (out + hdr_seq_length_max hdr))
                _ _ _ _ _ _ _ _ Hloop) as (_ & _ & _ & Ht1 & Hd1);
      [done|done|lia|rewrite Hadv; lia|].
    rewrite Hadv, Hlsn. replace (Z.to_nat (0 + Z.of_nat kn)) with kn by lia.
    fold f.
    destruct (copy_bytes_fits mem1 (out + adv) row ofs' f) as (mem2 & Hcb & Hl2);
      [lia|done|lia|].
    rewrite Hcb, outcome_bind_Done.
    destruct (copy_bytes_window _ _ _ _ _ _ (Z.to_nat out)
                (Z.to_nat (out + hdr_seq_length_max hdr)) Hcb)
      as (_ & Ht2 & Hd2); [lia|done|lia|lia|].
    exists mem2, (out + adv + f). split; [done|]. split; [done|].
    split_and!; [lia|lia|congruence].
Qed.

Lemma X5_witness :
  let s := chars "%1;%1;%2" in
  let h' := heap_of (sample_set 6 (Some s)) in
  term_info_ok sample sample_heap sample_ptr ∧
  ∃ ti' mem' out',
    infos h' !! sample_ptr = Some ti' ∧
    chafa_term_info_emit sample 0 ti' (replicate 96 NUL, 0) 6 [255; 7]
    = Done (mem', out') ∧
    0 ≤ out' < 0 + hdr_seq_length_max sample.
Proof.
  intros s h'. split; [compute_done|].
  destruct (X5_emit_within_bounds sample 0 [] sample_heap sample_ptr 6 (own s) s
              None h'
              [TArg 0; TLit ";"%char; TArg 0; TLit ";"%char; TArg 1]
              [255; 7] (replicate 96 NUL) 0)
    as (ti' & mem' & out' & H1 & H2 & H3 & _).
  - compute_done.
  - compute_done.
  - reflexivity.
  - vm_compute. reflexivity.
  - reflexivity.
  - compute_done.
  - compute_done.
  - lia.
  - compute_done.
  - exists ti', mem', out'. split; [exact H1|]. split; [exact H2|exact H3].
Defined.

(** ** One kind at a time *)

Section OtherKinds.

Variable hdr : Headers.
Variable past : Z.

(** An emission reads the row and the slots of its kind and nothing else of
    the container. *)
Lemma emit_reads_one_kind ti ti' dest seq args :
  seq_str ti' !!! Z.to_nat seq = seq_str ti !!! Z.to_nat seq →
  seq_args ti' !!! Z.to_nat seq = seq_args ti !!! Z.to_nat seq →
  chafa_term_info_emit hdr past ti' dest seq args
  = chafa_term_info_emit hdr past ti dest seq args.
Proof.
  intros Hrow Hslots. destruct dest as [mem out].
  assert (∀ fmt vals k,
            EMIT_SEQ_DEF past fmt ti' (mem, out) seq vals k
            = EMIT_SEQ_DEF past fmt ti (mem, out) seq vals k) as Hdef.
  { intros fmt vals k. unfold EMIT_SEQ_DEF. by rewrite Hrow, Hslots. }
  unfold chafa_term_info_emit. destruct (hdr_seq_def hdr seq); try apply Hdef.
  unfold emit_0_none_void, emit_seq_0_args_uint. by rewrite Hrow, Hslots.
Qed.

End OtherKinds.

(** X6.  In a heap built with the functions of this file, with a table of
    kinds no longer than a row, [chafa_term_info_set_seq] for one kind,
    whatever it is given and whatever it returns, leaves every other kind
    of the container as it was: the compiled bytes, the slots, the raw
    template with its bytes, the answers of [chafa_term_info_have_seq] and
    [chafa_term_info_get_seq], and what an emission of that kind does. *)
Theorem X6_set_seq_other_kinds hdr past stack h p seq str r h' seq' :
  hdr_seq_max hdr ≤ hdr_seq_length_max hdr →
  reachable hdr h → is_Some (infos h !! p) →
  chafa_term_info_set_seq hdr stack (Some p) seq str h = Some (r, h') →
  0 ≤ seq' → seq' ≠ seq →
  ∃ ti ti',
    infos h !! p = Some ti ∧ infos h' !! p = Some ti' ∧
    seq_str ti' !!! Z.to_nat seq' = seq_str ti !!! Z.to_nat seq' ∧
    seq_args ti' !!! Z.to_nat seq' = seq_args ti !!! Z.to_nat seq' ∧
    unparsed_str ti' !!! Z.to_nat seq' = unparsed_str ti !!! Z.to_nat seq' ∧
    (∀ l, unparsed_str ti !!! Z.to_nat seq' = Some l →
          strs h' !! l = strs h !! l) ∧
    fst <$> chafa_term_info_have_seq hdr (Some p) seq' h'
    = fst <$> chafa_term_info_have_seq hdr (Some p) seq' h ∧
    fst <$> chafa_term_info_get_seq hdr (Some p) seq' h'
    = fst <$> chafa_term_info_get_seq hdr (Some p) seq' h ∧
    ∀ dest args,
      chafa_term_info_emit hdr past ti' dest seq' args
      = chafa_term_info_emit hdr past ti dest seq' args.
Proof.
  intros Hrows Hh%reachable_heap_ok Hp Hset Hseq' Hne. pose proof Hh as [Hok Huniq].
  destruct (term_info_ok_inv hdr h p (Hok p Hp)) as (ti & Hti & Hwf & Hlive).
  assert (∀ ti',
    infos h' !! p = Some ti' →
    seq_str ti' !!! Z.to_nat seq' = seq_str ti !!! Z.to_nat seq' →
    seq_args ti' !!! Z.to_nat seq' = seq_args ti !!! Z.to_nat seq' →
    unparsed_str ti' !!! Z.to_nat seq' = unparsed_str ti !!! Z.to_nat seq' →
    (∀ l, unparsed_str ti !!! Z.to_nat seq' = Some l →
          strs h' !! l = strs h !! l) →
    ∃ ti ti',
      infos h !! p = Some ti ∧ infos h' !! p = Some ti' ∧
      seq_str ti' !!! Z.to_nat seq' = seq_str ti !!! Z.to_nat seq' ∧
      seq_args ti' !!! Z.to_nat seq' = seq_args ti !!! Z.to_nat seq' ∧
      unparsed_str ti' !!! Z.to_nat seq' = unparsed_str ti !!! Z.to_nat seq' ∧
      (∀ l, unparsed_str ti !!! Z.to_nat seq' = Some l →
            strs h' !! l = strs h !! l) ∧
      fst <$> chafa_term_info_have_seq hdr (Some p) seq' h'
      = fst <$> chafa_term_info_have_seq hdr (Some p) seq' h ∧
      fst <$> chafa_term_info_get_seq hdr (Some p) seq' h'
      = fst <$> chafa_term_info_get_seq hdr (Some p) seq' h ∧
      ∀ dest args,
        chafa_term_info_emit hdr past ti' dest seq' args
        = chafa_term_info_emit hdr past ti dest seq' args) as Hall.
  { intros ti' Hti' H1 H2 H3 H4. exists ti, ti'. split_and!; try done.
    - unfold chafa_term_info_have_seq. rewrite Hti, Hti'. simpl.
      destruct (negb _); [done|]. simpl. by rewrite H3.
    - unfold chafa_term_info_get_seq. rewrite Hti, Hti'. simpl.
      destruct (negb _); [done|]. simpl. by rewrite H3.
    - intros dest args. by apply emit_reads_one_kind. }
  destruct (decide (0 ≤ seq < hdr_seq_max hdr)) as [Hseq|Hseq].
  2:{ destruct (set_seq_out_of_range _ _ _ _ _ _ _ _ Hseq Hset) as [_ ->].
      by apply (Hall ti). }
  assert (Z.to_nat seq ≠ Z.to_nat seq') as Hidx by lia.
  destruct (lookup_lt_is_Some_2 (unparsed_str ti) (Z.to_nat seq)) as [old Hold].
  { destruct Hwf as (_ & _ & _ & _ & Hlen). lia. }
  pose proof (list_lookup_total_correct _ _ _ Hold) as Hold'.
  assert (∀ l, unparsed_str ti !!! Z.to_nat seq' = Some l →
               is_Some (strs h !! l) ∧ old ≠ Some l) as Hother.
  { intros l Hl.
    assert (unparsed_str ti !! Z.to_nat seq' = Some (Some l)) as Hl'.
    { rewrite list_lookup_total_alt in Hl.
      by destruct (unparsed_str ti !! Z.to_nat seq') as [o|]; simplify_eq/=. }
    split; [exact (Forall_lookup_1 _ _ _ _ Hlive Hl')|].
    intros ->. destruct (Huniq p (Z.to_nat seq) p (Z.to_nat seq') l) as [_ ?];
      [by exists ti|by exists ti|done]. }
  destruct str as [g|].
  - apply (set_seq_string hdr stack h p ti seq) in Hset as (s & _ & _ & _ & Hset);
      [|done..].
    rewrite Hold' in Hset.
    destruct (pr_result _); injection Hset as <- <-; [|by apply (Hall ti)].
    eapply Hall; [apply lookup_insert_eq|..]; cbn [seq_str seq_args unparsed_str strs];
      unfold set_row; try by rewrite list_lookup_total_insert_ne.
    intros l Hl. destruct (Hother l Hl) as [[x Hx] Hne'].
    rewrite lookup_insert_ne.
    + by apply strs_after_free_other.
    + intros E. pose proof (is_fresh (dom (strs_after_free old (strs h)))) as Hfr.
      rewrite E in Hfr. apply Hfr, elem_of_dom.
      rewrite strs_after_free_other by done. by eexists.
  - rewrite (set_seq_clear hdr stack h p ti seq Hti Hlive Hseq) in Hset.
    cbv zeta in Hset. rewrite Hold' in Hset. injection Hset as <- <-.
    eapply Hall; [apply lookup_insert_eq|..]; cbn [seq_str seq_args unparsed_str strs];
      unfold set_row; try by rewrite list_lookup_total_insert_ne.
    intros l Hl. destruct (Hother l Hl) as [_ Hne']. by apply strs_after_free_other.
Qed.

Lemma X6_witness :
  let h := heap_of (sample_set 5 (Some (ESC :: chars "[%1;%2m"))) in
  reachable sample h ∧
  ∃ h' ti ti',
    chafa_term_info_set_seq sample [] (Some sample_ptr) 1 (Some (own (chars "a%1"))) h
    = Some ((true, None), h') ∧
    infos h !! sample_ptr = Some ti ∧ infos h' !! sample_ptr = Some ti' ∧
    chafa_term_info_emit sample 0 ti' (replicate 96 NUL, 0) 5 [31; 1]
    = chafa_term_info_emit sample 0 ti (replicate 96 NUL, 0) 5 [31; 1].
Proof.
  intros h.
  assert (reachable sample h) as Hr.
  { apply (reach_set_seq sample sample_heap [] sample_ptr 5
             (Some (own (ESC :: chars "[%1;%2m"))) (true, None) h).
    - apply reach_new, reach_empty.
    - vm_compute. reflexivity. }
  split; [exact Hr|].
  destruct (X6_set_seq_other_kinds sample 0 [] h sample_ptr 1 (Some (own (chars "a%1")))
              (true, None)
              (heap_of (chafa_term_info_set_seq sample [] (Some sample_ptr) 1
                          (Some (own (chars "a%1"))) h)) 5)
    as (ti & ti' & H1 & H2 & _ & _ & _ & _ & _ & _ & H3).
  - compute_done.
  - exact Hr.
  - compute_done.
  - vm_compute. reflexivity.
  - lia.
  - lia.
  - eexists _, ti, ti'. split; [vm_compute; reflexivity|].
    split; [exact H1|]. split; [exact H2|]. apply H3.
Defined.

(** ** Heaps built with the functions of this file *)

(** X7.  In a heap built from the empty one with [chafa_term_info_new],
    [_copy], [_set_seq], [_ref] and [_unref], every container has arrays of
    the declared sizes and raw templates that are live strings, and no string
    is the raw template of two kinds or of two containers.  So a further
    call on a container of the heap returns, without reading or freeing an
    object that is not live and without freeing a string twice: a
    [_copy], a [_ref], an [_unref], a [_set_seq] with NULL, and a
    [_set_seq] with a string of the caller's or of the heap that the local
    array of the function holds, in a table of kinds no longer than a row,
    when the string is not the raw template which the kind holds and the
    call frees. *)
Theorem X7_reachable_heap_is_sound hdr h :
  reachable hdr h →
  (∀ p, is_Some (infos h !! p) → term_info_ok hdr h p) ∧
  (∀ p1 i1 p2 i2 l, owns h p1 i1 l → owns h p2 i2 l → p1 = p2 ∧ i1 = i2) ∧
  (∀ p, is_Some (infos h !! p) →
     (∀ stack seq,
        is_Some (chafa_term_info_set_seq hdr stack (Some p) seq None h)) ∧
     (∀ stack seq str s,
        hdr_seq_max hdr ≤ hdr_seq_length_max hdr →
        read_str str h = Some s →
        local_holds hdr (Z.of_nat (length s)) →
        (∀ l, str = held l →
              chafa_term_info_get_seq hdr (Some p) seq h ≠ Some (Some l, h)) →
        is_Some (chafa_term_info_set_seq hdr stack (Some p) seq (Some str) h)) ∧
     (∃ q h1, chafa_term_info_copy hdr (Some p) h = Some (Some q, h1)) ∧
     is_Some (chafa_term_info_ref (Some p) h) ∧
     is_Some (chafa_term_info_unref hdr (Some p) h)).
Proof.
  intros Hh%reachable_heap_ok. pose proof Hh as [Hok Huniq].
  split; [done|]. split; [done|]. intros p Hp.
  destruct (term_info_ok_inv hdr h p (Hok p Hp)) as (ti & Hti & Hwf & Hlive).
  split_and!.
  - intros stack seq.
    destruct (decide (0 ≤ seq < hdr_seq_max hdr)) as [Hseq|Hseq].
    + by rewrite (set_seq_clear hdr stack h p ti seq Hti Hlive Hseq).
    + by rewrite (set_seq_out_of_kinds hdr stack h p ti seq None Hti Hseq).
  - intros stack seq str s Hrows Hstr Hholds Hother.
    destruct (decide (0 ≤ seq < hdr_seq_max hdr)) as [Hseq|Hseq].
    2:{ by rewrite (set_seq_out_of_kinds hdr stack h p ti seq _ Hti Hseq). }
    assert (chafa_term_info_set_seq hdr stack (Some p) seq (Some str) h
            = chafa_term_info_set_seq hdr stack (Some p) seq (Some (own s)) h) as ->.
    { destruct str as [s0|l]; [simpl in Hstr; congruence|].
      apply (set_seq_held hdr stack h p ti seq l s Hti Hseq Hstr).
      intros E. apply (Hother l eq_refl).
      by rewrite (get_seq_in_range hdr h p ti seq Hti Hseq), E. }
    destruct (set_seq_returns hdr stack h p seq s (Hok p Hp) Hrows Hholds)
      as (r & e & h' & -> & _). done.
  - destruct (heap_ok_copy hdr h p Hh Hp) as (q & h1 & Hc & _). by exists q, h1.
  - unfold chafa_term_info_ref. rewrite Hti.
    cbn [mbind option_bind]. by destruct (negb _).
  - destruct (chafa_term_info_unref_cases hdr p h ti Hh Hti) as (h' & -> & _).
    by eexists.
Qed.

Lemma X7_witness :
  let h := heap_of (sample_set 5 (Some (ESC :: chars "[%1;%2m"))) in
  reachable sample h ∧ term_info_ok sample h sample_ptr ∧
  is_Some (chafa_term_info_unref sample (Some sample_ptr) h).
Proof.
  intros h.
  assert (reachable sample h) as Hr.
  { apply (reach_set_seq sample sample_heap [] sample_ptr 5
             (Some (own (ESC :: chars "[%1;%2m"))) (true, None) h).
    - apply reach_new, reach_empty.
    - vm_compute. reflexivity. }
  split; [exact Hr|].
  destruct (X7_reachable_heap_is_sound sample h Hr) as (Hok & _ & Hcalls).
  assert (is_Some (infos h !! sample_ptr)) as Hp by compute_done.
  split; [exact (Hok sample_ptr Hp)|].
  destruct (Hcalls sample_ptr Hp) as (_ & _ & _ & _ & Hun). exact Hun.
Defined.

(** X8.  In such a heap no string is lost: every string of the heap is the
    raw template of some kind of some container that is there.  And every
    string is a C string, without a NUL inside. *)
Theorem X8_reachable_heap_has_no_leak hdr h :
  reachable hdr h →
  (∀ l, is_Some (strs h !! l) → ∃ p i, owns h p i l) ∧
  (∀ l s, strs h !! l = Some s → NUL ∉ s).
Proof.
  intros Hr. destruct (reachable_tidy hdr h Hr) as (_ & Hnl & Hcl). split.
  - intros l Hl. by apply Hnl.
  - intros l s Hs. by apply (Hcl l).
Qed.

Lemma X8_witness :
  let h0 := heap_of (sample_set 5 (Some (ESC :: chars "[%1;%2m"))) in
  let h := heap_of (chafa_term_info_set_seq sample [] (Some sample_ptr) 5
                      (Some (own (chars "%1,%2"))) h0) in
  reachable sample h ∧
  ∀ l, is_Some (strs h !! l) → ∃ p i, owns h p i l.
Proof.
  intros h0 h.
  assert (reachable sample h) as Hr.
  { apply (reach_set_seq sample h0 [] sample_ptr 5 (Some (own (chars "%1,%2")))
             (true, None) h).
    - apply (reach_set_seq sample sample_heap [] sample_ptr 5
               (Some (own (ESC :: chars "[%1;%2m"))) (true, None) h0).
      + apply reach_new, reach_empty.
      + vm_compute. reflexivity.
    - vm_compute. reflexivity. }
  split; [exact Hr|].
  exact (proj1 (X8_reachable_heap_has_no_leak sample h Hr)).
Defined.

(** ** Taking and dropping references *)

(** X9.  While the count stays between 1 and the largest [gint],
    [chafa_term_info_ref] and [chafa_term_info_unref] undo each other: a
    reference taken and dropped leaves the heap exactly as it was, and so
    does a reference dropped and taken again when it was not the last. *)
Theorem X9_ref_unref_inverse hdr h p ti :
  infos h !! p = Some ti → 0 < refs ti < 2147483647 →
  chafa_term_info_ref (Some p) h ≫= chafa_term_info_unref hdr (Some p) = Some h ∧
  (1 < refs ti →
   chafa_term_info_unref hdr (Some p) h ≫= chafa_term_info_ref (Some p) = Some h).
Proof.
  intros Hti Hrefs. split.
  - unfold chafa_term_info_ref. rewrite Hti. cbn [mbind option_bind].
    destruct (Z.gtb_spec (refs ti) 0) as [_|?]; [|lia]. cbn [negb mbind option_bind].
    rewrite (to_gint_small (refs ti + 1)) by lia.
    unfold chafa_term_info_unref. cbn [set_info infos].
    rewrite lookup_insert_eq. cbn [mbind option_bind set_refs refs].
    destruct (Z.gtb_spec (refs ti + 1) 0) as [_|?]; [|lia]. cbn [negb].
    replace (refs ti + 1 - 1) with (refs ti) by lia.
    rewrite (to_gint_small (refs ti)) by lia. cbv zeta.
    destruct (Z.eqb_spec (refs ti) 0) as [?|_]; [lia|].
    rewrite set_refs_set_refs, (set_refs_id ti) by done.
    f_equal. by apply set_info_twice.
  - intros Hmore. unfold chafa_term_info_unref. rewrite Hti.
    cbn [mbind option_bind].
    destruct (Z.gtb_spec (refs ti) 0) as [_|?]; [|lia]. cbn [negb].
    rewrite (to_gint_small (refs ti - 1)) by lia. cbv zeta.
    destruct (Z.eqb_spec (refs ti - 1) 0) as [?|_]; [lia|].
    cbn [mbind option_bind]. unfold chafa_term_info_ref. cbn [set_info infos].
    rewrite lookup_insert_eq. cbn [mbind option_bind set_refs refs].
    destruct (Z.gtb_spec (refs ti - 1) 0) as [_|?]; [|lia]. cbn [negb].
    replace (refs ti - 1 + 1) with (refs ti) by lia.
    rewrite (to_gint_small (refs ti)) by lia.
    rewrite set_refs_set_refs, (set_refs_id ti) by done.
    f_equal. by apply set_info_twice.
Qed.

Lemma X9_witness :
  infos sample_heap !! sample_ptr = Some (info_at sample_heap sample_ptr) ∧
  0 < refs (info_at sample_heap sample_ptr) < 2147483647 ∧
  chafa_term_info_ref (Some sample_ptr) sample_heap
    ≫= chafa_term_info_unref sample (Some sample_ptr)
  = Some sample_heap.
Proof.
  assert (infos sample_heap !! sample_ptr
          = Some (info_at sample_heap sample_ptr)) as H1 by reflexivity.
  assert (0 < refs (info_at sample_heap sample_ptr) < 2147483647) as H2
    by compute_done.
  split; [exact H1|]. split; [exact H2|].
  exact (proj1 (X9_ref_unref_inverse sample sample_heap sample_ptr _ H1 H2)).
Defined.

(** X10.  In a heap built with the functions of this file, dropping the
    last reference to a container returns; the container is then gone from
    the heap and so is every string that was one of its raw templates, while
    every other container holds what it held. *)
Theorem X10_unref_last_reference hdr h p ti :
  reachable hdr h → infos h !! p = Some ti → refs ti = 1 →
  ∃ h',
    chafa_term_info_unref hdr (Some p) h = Some h' ∧
    infos h' = delete p (infos h) ∧
    (∀ i l, unparsed_str ti !! i = Some (Some l) → strs h' !! l = None) ∧
    (∀ q, q ≠ p → snapshot h' q = snapshot h q).
Proof.
  intros Hh%reachable_heap_ok Hti Hone. pose proof Hh as [Hok Huniq].
  destruct (chafa_term_info_unref_cases hdr p h ti Hh Hti)
    as (h' & Hun & [[? _]|[(_ & Hnz & _)|(_ & _ & Hinf & Hgone & Hkeep)]]).
  - lia.
  - rewrite Hone in Hnz. done.
  - exists h'. split_and!; [done|done|done|].
    intros q Hq. destruct (infos h !! q) as [tq|] eqn:Htq.
    + apply (snapshot_frame h h' q tq Htq).
      * by rewrite Hinf, lookup_delete_ne.
      * apply Forall_lookup. intros i o Hi l ->. apply Hkeep. intros j Hj.
        destruct (Huniq q i p j l) as [? _]; [by exists tq|by exists ti|done].
    + unfold snapshot. by rewrite Hinf, lookup_delete_ne, Htq.
Qed.

Lemma X10_witness :
  let h := heap_of (sample_set 5 (Some (ESC :: chars "[%1;%2m"))) in
  reachable sample h ∧ refs (info_at h sample_ptr) = 1 ∧
  ∃ h', chafa_term_info_unref sample (Some sample_ptr) h = Some h' ∧
        infos h' = delete sample_ptr (infos h).
Proof.
  intros h.
  assert (reachable sample h) as Hr.
  { apply (reach_set_seq sample sample_heap [] sample_ptr 5
             (Some (own (ESC :: chars "[%1;%2m"))) (true, None) h).
    - apply reach_new, reach_empty.
    - vm_compute. reflexivity. }
  split; [exact Hr|]. split; [reflexivity|].
  destruct (X10_unref_last_reference sample h sample_ptr (info_at h sample_ptr) Hr)
    as (h' & Hun & Hinf & _).
  - reflexivity.
  - reflexivity.
  - exists h'. split; [exact Hun|exact Hinf].
Defined.

(** X11.  A container that is made and released at once leaves no trace:
    [chafa_term_info_unref] on the result of [chafa_term_info_new] gives
    back the heap as it was before, for every heap. *)
Theorem X11_new_then_unref hdr h :
  chafa_term_info_unref hdr (Some (chafa_term_info_new hdr h).1)
    (chafa_term_info_new hdr h).2
  = Some h.
Proof.
  destruct (chafa_term_info_new_wf hdr h) as (nt & Hnt & _ & Hnone).
  assert (refs nt = 1) as Hrefs.
  { unfold chafa_term_info_new in Hnt. cbn [fst snd set_info infos] in Hnt.
    rewrite lookup_insert_eq in Hnt. by injection Hnt as <-. }
  unfold chafa_term_info_unref. rewrite Hnt. cbn [mbind option_bind].
  rewrite Hrefs. change (negb (1 >? 0)) with false. cbv iota zeta.
  change (to_gint (1 - 1) =? 0) with true. cbv iota.
  rewrite (free_loop_none _ _ nt _ Hnone). cbn [mbind option_bind].
  unfold chafa_term_info_new. cbn [fst snd set_info infos strs].
  rewrite delete_insert_id; [apply f_equal, heap_eta|].
  apply not_elem_of_dom, is_fresh.
Qed.

(** ** What a copy holds *)

(** X12.  In a heap built with the functions of this file, the copy of a
    container has a count of 1 and holds what the original holds: for every
    kind the same compiled bytes and slots, and a raw template with the
    same bytes, in a string of its own.  So [chafa_term_info_have_seq]
    answers the same for both, and every emission does the same. *)
Theorem X12_copy_holds_the_same hdr past h p :
  reachable hdr h → is_Some (infos h !! p) →
  ∃ q h1 tp tq,
    chafa_term_info_copy hdr (Some p) h = Some (Some q, h1) ∧
    infos h1 !! p = Some tp ∧ infos h1 !! q = Some tq ∧
    refs tq = 1 ∧
    snapshot h1 q = snapshot h1 p ∧
    (∀ j l l', unparsed_str tp !! j = Some (Some l) →
               unparsed_str tq !! j = Some (Some l') → l' ≠ l) ∧
    (∀ seq, fst <$> chafa_term_info_have_seq hdr (Some q) seq h1
            = fst <$> chafa_term_info_have_seq hdr (Some p) seq h1) ∧
    (∀ dest seq args,
       chafa_term_info_emit hdr past tq dest seq args
       = chafa_term_info_emit hdr past tp dest seq args).
Proof.
  intros Hr Hp. destruct (reachable_tidy hdr h Hr) as (Hh & _ & Hcl).
  pose proof Hh as [Hok _].
  destruct (term_info_ok_inv hdr h p (Hok p Hp)) as (ti & Hti & Hwf & Hlive).
  destruct (chafa_term_info_copy_spec hdr h p ti Hti Hwf Hlive)
    as (q & tq' & h1 & Hcopy & _ & Hinf' & _ & _ & _ & Hlen' & _).
  destruct (chafa_term_info_copy_contents hdr h p ti q h1 Hti Hwf Hlive Hcopy)
    as (tq & Hinf & Hq & Hrefs & Hs1 & Hs2 & Hsub & Hnone & Hsome & _).
  assert (q ≠ p) as Hqp by congruence.
  assert (infos h1 !! p = Some ti) as Hp1 by (by rewrite Hinf, lookup_insert_ne).
  assert (infos h1 !! q = Some tq) as Hq1 by (by rewrite Hinf, lookup_insert_eq).
  assert (length (unparsed_str tq) = length (unparsed_str ti)) as Hlen.
  { assert (tq' = tq) as <-; [|done].
    rewrite Hinf' in Hq1. rewrite lookup_insert_eq in Hq1. congruence. }
  assert (∀ j, (λ o, l ← o; strs h1 !! l) <$> (unparsed_str tq !! j)
               = (λ o, l ← o; strs h1 !! l) <$> (unparsed_str ti !! j)) as Hsame.
  { intros j. destruct (unparsed_str ti !! j) as [[l|]|] eqn:E.
    - destruct (Hsome j l E) as (l' & s & -> & Hl & Hl' & _). simpl.
      rewrite Hl', (lookup_weaken _ _ _ _ Hl Hsub).
      by rewrite (c_str_id s (Hcl l s Hl)).
    - by rewrite (Hnone j E).
    - rewrite lookup_ge_None_2; [done|]. apply lookup_ge_None_1 in E. lia. }
  exists q, h1, ti, tq. split_and!; try done.
  - unfold snapshot. rewrite Hq1, Hp1. cbn [mbind option_bind]. rewrite Hs1, Hs2.
    do 2 f_equal. apply list_eq. intros j. rewrite !list_lookup_fmap. apply Hsame.
  - intros j l l' Hl Hl'. destruct (Hsome j l Hl) as (l2 & s & Hl2 & Hs & _ & Hnew).
    assert (l2 = l') as -> by congruence. congruence.
  - intros seq. unfold chafa_term_info_have_seq. rewrite Hp1, Hq1.
    cbn [mbind option_bind]. destruct (negb _); [done|]. simpl. do 2 f_equal.
    rewrite !list_lookup_total_alt. specialize (Hsame (Z.to_nat seq)).
    destruct (unparsed_str ti !! Z.to_nat seq) as [[l|]|] eqn:E.
    + destruct (Hsome _ l E) as (l' & s & -> & _). done.
    + by rewrite (Hnone _ E).
    + rewrite lookup_ge_None_2; [done|]. apply lookup_ge_None_1 in E. lia.
  - intros dest seq args. apply emit_reads_one_kind; congruence.
Qed.

Lemma X12_witness :
  let h := heap_of (sample_set 5 (Some (ESC :: chars "[%1;%2m"))) in
  reachable sample h ∧
  ∃ q h1,
    chafa_term_info_copy sample (Some sample_ptr) h = Some (Some q, h1) ∧
    snapshot h1 q = snapshot h1 sample_ptr.
Proof.
  intros h.
  assert (reachable sample h) as Hr.
  { apply (reach_set_seq sample sample_heap [] sample_ptr 5
             (Some (own (ESC :: chars "[%1;%2m"))) (true, None) h).
    - apply reach_new, reach_empty.
    - vm_compute. reflexivity. }
  split; [exact Hr|].
  destruct (X12_copy_holds_the_same sample 0 h sample_ptr Hr)
    as (q & h1 & tp & tq & Hc & _ & _ & _ & Hsnap & _).
  - compute_done.
  - exists q, h1. split; [exact Hc|exact Hsnap].
Defined.

(** ** Copying bytes *)

Lemma store_bytes_splice bs : ∀ mem p,
  0 ≤ p → p + Z.of_nat (length bs) ≤ Z.of_nat (length mem) →
  store_bytes mem p bs
  = Done (take (Z.to_nat p) mem ++ bs ++ drop (Z.to_nat p + length bs) mem).
Proof.
  induction bs as [|b bs IH]; intros mem p Hp Hroom.
  - cbn [store_bytes length app]. by rewrite Nat.add_0_r, take_drop.
  - cbn [store_bytes length] in *. rewrite store_Done by lia.
    cbn [mbind outcome_bind]. rewrite IH; [|lia|rewrite length_insert; lia].
    f_equal. replace (Z.to_nat (p + 1)) with (S (Z.to_nat p)) by lia.
    rewrite (take_S_r _ _ b) by (apply list_lookup_insert_eq; lia).
    rewrite take_insert_ge by lia. rewrite drop_insert_lt by lia.
    replace (S (Z.to_nat p) + length bs)%nat
      with (Z.to_nat p + S (length bs))%nat by lia.
    by rewrite <- app_assoc.
Qed.

(** X13.  [copy_bytes (out, in, n)] copies max (1, n) bytes: when the
    destination has room for them from [out] on and the source holds them
    from [in] on, the destination afterwards is what it was with those bytes
    of the source in place of its own; so for n ≤ 0 one byte is copied. *)
Theorem X13_copy_bytes_copies mem out src in_ n :
  0 ≤ out → 0 ≤ in_ →
  out + Z.max 1 n ≤ Z.of_nat (length mem) →
  in_ + Z.max 1 n ≤ Z.of_nat (length src) →
  copy_bytes mem out src in_ n
  = Done (take (Z.to_nat out) mem
          ++ take (Z.to_nat (Z.max 1 n)) (drop (Z.to_nat in_) src)
          ++ drop (Z.to_nat (out + Z.max 1 n)) mem).
Proof.
  intros Hout Hin Hroom Hsrc.
  set (bs := take (Z.to_nat (Z.max 1 n)) (drop (Z.to_nat in_) src)).
  assert (length bs = Z.to_nat (Z.max 1 n)) as Hbs.
  { unfold bs. rewrite length_take, length_drop. lia. }
  assert (copy_bytes mem out src in_ n = store_bytes mem out bs) as ->.
  { destruct (decide (0 < n)) as [Hn|Hn].
    - apply copy_bytes_run; [done|done|lia|]. by rewrite Hbs.
    - rewrite copy_bytes_none by lia. unfold bs.
      replace (Z.to_nat (Z.max 1 n)) with 1%nat by lia.
      destruct (lookup_lt_is_Some_2 src (Z.to_nat in_)) as [c Hc]; [lia|].
      rewrite (drop_S _ _ _ Hc). cbn [take store_bytes].
      unfold load. rewrite (list_lookup_total_correct _ _ _ Hc).
      by destruct (store mem out c). }
  rewrite store_bytes_splice by lia. rewrite Hbs.
  by replace (Z.to_nat out + Z.to_nat (Z.max 1 n))%nat
    with (Z.to_nat (out + Z.max 1 n)) by lia.
Qed.

Lemma X13_witness :
  copy_bytes (chars "......") 1 (chars "abcdef") 2 3 = Done (chars ".cde..") ∧
  copy_bytes (chars "......") 1 (chars "abcdef") 2 0 = Done (chars ".c....").
Proof.
  split.
  - rewrite (X13_copy_bytes_copies (chars "......") 1 (chars "abcdef") 2 3);
      [reflexivity|lia|lia|compute_done|compute_done].
  - rewrite (X13_copy_bytes_copies (chars "......") 1 (chars "abcdef") 2 0);
      [reflexivity|lia|lia|compute_done|compute_done].
Defined.

(** ** The bytes of a row that a new template does not reach *)

(** X14.  [chafa_term_info_set_seq] copies CHAFA_TERM_SEQ_MAX bytes into the
    row of the kind, not CHAFA_TERM_SEQ_LENGTH_MAX: where the first is the
    smaller, the bytes of the row from offset CHAFA_TERM_SEQ_MAX on are
    after an accepted template what they were before it. *)
Theorem X14_row_tail_is_kept hdr stack h p seq str e h' :
  term_info_ok hdr h p → hdr_seq_max hdr ≤ hdr_seq_length_max hdr →
  chafa_term_info_set_seq hdr stack (Some p) seq (Some str) h = Some ((true, e), h') →
  ∃ ti ti',
    infos h !! p = Some ti ∧ infos h' !! p = Some ti' ∧
    length (seq_str ti' !!! Z.to_nat seq) = Z.to_nat (hdr_seq_length_max hdr) ∧
    drop (Z.to_nat (hdr_seq_max hdr)) (seq_str ti' !!! Z.to_nat seq)
    = drop (Z.to_nat (hdr_seq_max hdr)) (seq_str ti !!! Z.to_nat seq).
Proof.
  intros (ti & Hti & Hwf & Hlive)%term_info_ok_inv Hle Hset.
  pose proof (set_seq_true_in_range _ _ _ _ _ _ _ _ _ Hti Hset) as Hseq.
  apply (set_seq_string hdr stack h p ti seq) in Hset as (s & _ & _ & _ & Hset);
    [|done..].
  destruct (pr_result _); [|done]. injection Hset as <- <-.
  destruct (wf_info_row_length hdr ti seq Hwf Hseq) as [Hrl _].
  destruct Hwf as (Hw1 & _).
  destruct (parse_seq_args_lengths hdr
              (resize (Z.to_nat (hdr_seq_max hdr)) NUL stack) s
              (n_args (seq_meta hdr seq))
              (if type_size (seq_meta hdr seq) =? 1 then 3 else 4)) as [Hlo _].
  rewrite length_resize in Hlo.
  exists ti. eexists. split; [done|]. split; [apply lookup_insert_eq|].
  cbn [seq_str]. unfold set_row. rewrite list_lookup_total_insert_eq by lia.
  unfold compile_of. split.
  - rewrite copied_length; [done|lia|lia].
  - apply copied_drop. lia.
Qed.

Lemma X14_witness :
  let s := chars "0123456789a%1" in
  let h' := heap_of (sample_set 1 (Some s)) in
  term_info_ok sample sample_heap sample_ptr ∧
  hdr_seq_max sample ≤ hdr_seq_length_max sample ∧
  ∃ ti ti',
    infos sample_heap !! sample_ptr = Some ti ∧ infos h' !! sample_ptr = Some ti' ∧
    drop 11 (seq_str ti' !!! 1%nat) = drop 11 (seq_str ti !!! 1%nat).
Proof.
  intros s h'. split; [compute_done|]. split; [compute_done|].
  destruct (X14_row_tail_is_kept sample [] sample_heap sample_ptr 1 (own s) None h')
    as (ti & ti' & H1 & H2 & _ & H3).
  - compute_done.
  - compute_done.
  - vm_compute. reflexivity.
  - exists ti, ti'. split; [exact H1|]. split; [exact H2|exact H3].
Defined.
